(** * PetscVector: index translation, array cache and assembly life cycle

    A shallow embedding of [include/numerics/petsc_vector.h] (libMesh).
    The PETSc library is an external collaborator: every call the class
    makes is recorded, in order, in a log, and the answers PETSc gives
    (error codes, the start of the ownership range of a new parallel
    vector) are taken from a [Petsc] record the development is
    parametrised by.  Member functions become functions from the object
    to a computation in the monad [M], which threads the log and stops
    at the first failure. *)

From stdpp Require Import gmap strings list pretty sorting.
From Stdlib Require Import ZArith Lia Bool.
From Stdlib Require QArith.

Open Scope Z_scope.

(** ** Build configuration *)

(** What the preprocessor decides: the width of [numeric_index_type]
    (and of [PetscInt], the header asserts both have the same size),
    whether assertions are compiled out, whether MPI is available, and
    the container [LIBMESH_BEST_UNORDERED_MAP] stands for.  The header
    uses that container as a map from indices to indices; of the
    container itself only the order in which an iteration from [begin ()]
    to [end ()] visits the keys matters here.  That order is the
    container's own business: [unordered_map_keys] gives it, and all that
    is known of it is that every key is visited once. *)
Record Config := {
  index_bits : positive;
  NDEBUG : bool;
  LIBMESH_HAVE_MPI : bool;
  unordered_map_keys : gmap Z Z -> list Z;
  unordered_map_keys_visits_each_once :
    forall m, unordered_map_keys m ≡ₚ (map_to_list m).*1
}.

Definition index_modulus (cfg : Config) : Z := 2 ^ Z.pos (index_bits cfg).

(** [static_cast<numeric_index_type>]: an unsigned integer of
    [index_bits] bits; arithmetic on it wraps around. *)
Definition to_index (cfg : Config) (z : Z) : Z := z mod index_modulus cfg.

(** [static_cast<PetscInt>]: the signed integer of the same width. *)
Definition to_PetscInt (cfg : Config) (z : Z) : Z :=
  let r := z mod index_modulus cfg in
  if r <? index_modulus cfg / 2 then r else r - index_modulus cfg.

Definition is_index (cfg : Config) (z : Z) : Prop := 0 <= z < index_modulus cfg.

(** ** The PETSc side *)

Inductive ParallelType := AUTOMATIC | SERIAL | PARALLEL | GHOSTED.

Definition ParallelType_eqb (a b : ParallelType) : bool :=
  match a, b with
  | AUTOMATIC, AUTOMATIC | SERIAL, SERIAL
  | PARALLEL, PARALLEL | GHOSTED, GHOSTED => true
  | _, _ => false
  end.

(** The numeric values of the enumerators are declared outside this
    header; where the class prints a [ParallelType], the text here shows
    the enumerator by name. *)
Definition ParallelType_name (t : ParallelType) : string :=
  match t with
  | AUTOMATIC => "AUTOMATIC" | SERIAL => "SERIAL"
  | PARALLEL => "PARALLEL" | GHOSTED => "GHOSTED"
  end.

Inductive VecType := VECSEQ | VECMPI | VECSHARED.

(** A [Vec] handle.  PETSc fixes the layout of a vector when it is
    created, so the handle carries it: [vec_id] names the storage,
    [vec_rstart] and [vec_n] give the ownership range
    [[vec_rstart, vec_rstart + vec_n)], and [vec_ghosts] is the ghost
    list of a vector made by [VecCreateGhost] ([None] for the others;
    only ghosted vectors carry a local-to-global mapping here). *)
Record Vec := {
  vec_id : nat;
  vec_type : VecType;
  vec_N : Z;
  vec_rstart : Z;
  vec_n : Z;
  vec_ghosts : option (list Z)
}.

(** The indices of the local-to-global mapping: the owned indices
    followed by the ghost indices. *)
Definition vec_mapping (v : Vec) : option (list Z) :=
  match vec_ghosts v with
  | Some gs => Some (seqZ (vec_rstart v) (vec_n v) ++ gs)
  | None => None
  end.

(** The local form of a ghosted vector: a sequential vector over the
    same storage, the owned entries followed by the ghost entries. *)
Definition vec_local_form (v : Vec) : option Vec :=
  match vec_ghosts v with
  | Some gs =>
      let n := vec_n v + Z.of_nat (length gs) in
      Some {| vec_id := vec_id v; vec_type := VECSEQ; vec_N := n;
              vec_rstart := 0; vec_n := n; vec_ghosts := None |}
  | None => None
  end.

Inductive InsertMode := INSERT_VALUES | ADD_VALUES.
Inductive ScatterMode := SCATTER_FORWARD | SCATTER_REVERSE.

(** The scalar constants handed to PETSc; the class itself only ever
    passes the literal [0.]. *)
Definition PetscScalar := QArith_base.Q.
Definition scalar_zero : PetscScalar := QArith_base.Qmake 0 1.

Inductive PetscCall :=
| VecCreateSeq (n : Z)
| VecCreateMPI (n_local n : Z)
| VecCreateGhost (n_local n n_ghost : Z) (ghosts : list Z)
| VecSetFromOptions (v : Vec)
| VecDuplicate (v : Vec)
| LibMeshVecDestroy (v : Vec)
| VecAssemblyBegin (v : Vec)
| VecAssemblyEnd (v : Vec)
| VecGhostUpdateBegin (v : Vec) (im : InsertMode) (sm : ScatterMode)
| VecGhostUpdateEnd (v : Vec) (im : InsertMode) (sm : ScatterMode)
| VecSet (v : Vec) (z : PetscScalar)
| VecGhostGetLocalForm (v : Vec)
| VecGhostRestoreLocalForm (v lf : Vec)
| VecGetSize (v : Vec)
| VecGetLocalSize (v : Vec)
| VecGetOwnershipRange (v : Vec)
| VecGetType (v : Vec)
| VecGetLocalToGlobalMapping (v : Vec)
| ISLocalToGlobalMappingGetSize (v : Vec)
| ISLocalToGlobalMappingGetIndices (v : Vec)
| ISLocalToGlobalMappingRestoreIndices (v : Vec)
| VecGetArray (v : Vec)
| VecGetArrayRead (v : Vec)
| VecRestoreArray (v : Vec)
| VecRestoreArrayRead (v : Vec)
| VecMin (v : Vec)
| VecMax (v : Vec).

(** What PETSc answers on this process, as a function of the calls made
    so far: the error code of a call (0 is success), and the start of the
    ownership range it assigns to a new parallel vector (the sum of the
    local sizes requested on the lower ranks). *)
Record Petsc := {
  petsc_ierr : list PetscCall -> PetscCall -> Z;
  petsc_rstart : list PetscCall -> Z
}.

(** ** Failures and the monad *)

Inductive Failure :=
| AssertionFailed                          (* libmesh_assert, debug builds *)
| LibmeshError (msg : string)              (* libmesh_error_msg *)
| PetscFailure (c : PetscCall) (ierr : Z)  (* LIBMESH_CHKERR, CHKERRABORT *)
| UndefinedBehaviour                       (* invalid handle or iterator *)
| Diverges.                                (* a loop that never ends *)

Inductive Result (A : Type) :=
| Ok (a : A)
| Failed (f : Failure).
Arguments Ok {A} a.
Arguments Failed {A} f.

Definition M (A : Type) : Type := list PetscCall -> Result (A * list PetscCall).

#[export] Instance M_ret : MRet M := fun A a log => Ok (a, log).
#[export] Instance M_bind : MBind M := fun A B f m log =>
  match m log with
  | Ok (a, log') => f a log'
  | Failed e => Failed e
  end.

Definition throw {A : Type} (e : Failure) : M A := fun _ => Failed e.

(** ** The object *)

(** [_is_closed], [_is_initialized] and [_type] are the members of the
    base class [NumericVector<T>]; the others are declared in the
    header.  A handle that is null or indeterminate is [None].  The
    pointers [_values] and [_read_only_values] name the vector whose raw
    array they point into.  The mutex has no counterpart: one thread. *)
Record PetscVector := {
  _is_closed : bool;
  _is_initialized : bool;
  _type : ParallelType;
  _vec : option Vec;
  _array_is_present : bool;
  _first : Z;
  _last : Z;
  _local_size : Z;
  _local_form : option Vec;
  _read_only_values : option Vec;
  _values : option Vec;
  _global_to_local_map : gmap Z Z;
  _destroy_vec_on_exit : bool;
  _values_manually_retrieved : bool;
  _values_read_only : bool
}.

Definition initialized (v : PetscVector) : bool := _is_initialized v.
Definition closed (v : PetscVector) : bool := _is_closed v.
Definition type (v : PetscVector) : ParallelType := _type v.

(** The life-cycle states of the specification, read off the two flags
    of the base class. *)
Inductive Lifecycle := Uninitialized | Open | Closed.

Definition lifecycle (v : PetscVector) : Lifecycle :=
  if initialized v then (if closed v then Closed else Open) else Uninitialized.

(** Assignments to single members. *)
Definition set_is_closed (b : bool) (v : PetscVector) : PetscVector :=
  {| _is_closed := b; _is_initialized := _is_initialized v; _type := _type v;
     _vec := _vec v; _array_is_present := _array_is_present v;
     _first := _first v; _last := _last v; _local_size := _local_size v;
     _local_form := _local_form v; _read_only_values := _read_only_values v;
     _values := _values v; _global_to_local_map := _global_to_local_map v;
     _destroy_vec_on_exit := _destroy_vec_on_exit v;
     _values_manually_retrieved := _values_manually_retrieved v;
     _values_read_only := _values_read_only v |}.

Definition set_is_initialized (b : bool) (v : PetscVector) : PetscVector :=
  {| _is_closed := _is_closed v; _is_initialized := b; _type := _type v;
     _vec := _vec v; _array_is_present := _array_is_present v;
     _first := _first v; _last := _last v; _local_size := _local_size v;
     _local_form := _local_form v; _read_only_values := _read_only_values v;
     _values := _values v; _global_to_local_map := _global_to_local_map v;
     _destroy_vec_on_exit := _destroy_vec_on_exit v;
     _values_manually_retrieved := _values_manually_retrieved v;
     _values_read_only := _values_read_only v |}.

Definition set_type (t : ParallelType) (v : PetscVector) : PetscVector :=
  {| _is_closed := _is_closed v; _is_initialized := _is_initialized v; _type := t;
     _vec := _vec v; _array_is_present := _array_is_present v;
     _first := _first v; _last := _last v; _local_size := _local_size v;
     _local_form := _local_form v; _read_only_values := _read_only_values v;
     _values := _values v; _global_to_local_map := _global_to_local_map v;
     _destroy_vec_on_exit := _destroy_vec_on_exit v;
     _values_manually_retrieved := _values_manually_retrieved v;
     _values_read_only := _values_read_only v |}.

Definition set_vec (h : option Vec) (v : PetscVector) : PetscVector :=
  {| _is_closed := _is_closed v; _is_initialized := _is_initialized v; _type := _type v;
     _vec := h; _array_is_present := _array_is_present v;
     _first := _first v; _last := _last v; _local_size := _local_size v;
     _local_form := _local_form v; _read_only_values := _read_only_values v;
     _values := _values v; _global_to_local_map := _global_to_local_map v;
     _destroy_vec_on_exit := _destroy_vec_on_exit v;
     _values_manually_retrieved := _values_manually_retrieved v;
     _values_read_only := _values_read_only v |}.

Definition set_array_is_present (b : bool) (v : PetscVector) : PetscVector :=
  {| _is_closed := _is_closed v; _is_initialized := _is_initialized v; _type := _type v;
     _vec := _vec v; _array_is_present := b;
     _first := _first v; _last := _last v; _local_size := _local_size v;
     _local_form := _local_form v; _read_only_values := _read_only_values v;
     _values := _values v; _global_to_local_map := _global_to_local_map v;
     _destroy_vec_on_exit := _destroy_vec_on_exit v;
     _values_manually_retrieved := _values_manually_retrieved v;
     _values_read_only := _values_read_only v |}.

Definition set_global_to_local_map (m : gmap Z Z) (v : PetscVector) : PetscVector :=
  {| _is_closed := _is_closed v; _is_initialized := _is_initialized v; _type := _type v;
     _vec := _vec v; _array_is_present := _array_is_present v;
     _first := _first v; _last := _last v; _local_size := _local_size v;
     _local_form := _local_form v; _read_only_values := _read_only_values v;
     _values := _values v; _global_to_local_map := m;
     _destroy_vec_on_exit := _destroy_vec_on_exit v;
     _values_manually_retrieved := _values_manually_retrieved v;
     _values_read_only := _values_read_only v |}.

Definition set_values_manually_retrieved (b : bool) (v : PetscVector) : PetscVector :=
  {| _is_closed := _is_closed v; _is_initialized := _is_initialized v; _type := _type v;
     _vec := _vec v; _array_is_present := _array_is_present v;
     _first := _first v; _last := _last v; _local_size := _local_size v;
     _local_form := _local_form v; _read_only_values := _read_only_values v;
     _values := _values v; _global_to_local_map := _global_to_local_map v;
     _destroy_vec_on_exit := _destroy_vec_on_exit v;
     _values_manually_retrieved := b;
     _values_read_only := _values_read_only v |}.

(** What acquiring the raw array stores in the object: the bounds, the
    size of the view, the local form, the pointer for the access mode
    asked for, the mode, and the presence flag. *)
Definition set_array_cache (first last local_size : Z) (lf : option Vec)
    (target : Vec) (read_only : bool) (v : PetscVector) : PetscVector :=
  {| _is_closed := _is_closed v; _is_initialized := _is_initialized v; _type := _type v;
     _vec := _vec v; _array_is_present := true;
     _first := first; _last := last; _local_size := local_size;
     _local_form := lf;
     _read_only_values := if read_only then Some target else _read_only_values v;
     _values := if read_only then _values v else Some target;
     _global_to_local_map := _global_to_local_map v;
     _destroy_vec_on_exit := _destroy_vec_on_exit v;
     _values_manually_retrieved := _values_manually_retrieved v;
     _values_read_only := read_only |}.

(** The text of the error raised for an index that is neither owned nor
    ghosted; [keys] are the keys of the ghost map in the order the
    container iterates over them ([unordered_map_keys]). *)
Definition newline : string := String (Ascii.ascii_of_nat 10) EmptyString.

Fixpoint comma_separated (keys : list Z) : string :=
  match keys with
  | [] => EmptyString
  | k :: ks => "," +:+ pretty k +:+ comma_separated ks
  end.

Definition no_index_message (i first last : Z) (keys : list Z) : string :=
  "No index " +:+ pretty i +:+ " in ghosted vector." +:+ newline +:+
  "Vector contains [" +:+ pretty first +:+ "," +:+ pretty last +:+ ")" +:+ newline +:+
  match keys with
  | [] => "And empty ghost array." +:+ newline
  | b :: bs => "And ghost array {" +:+ pretty b +:+ comma_separated bs +:+ "}" +:+ newline
  end.

(** ** Member functions *)

Section Members.

Variable cfg : Config.
Variable petsc : Petsc.

(** [libmesh_assert]: checked in debug builds, compiled out (operand
    not evaluated) under [NDEBUG]. *)
Definition libmesh_assert (b : bool) : M unit :=
  if NDEBUG cfg then mret tt
  else if b then mret tt else throw AssertionFailed.

Definition libmesh_error_msg {A : Type} (msg : string) : M A :=
  throw (LibmeshError msg).

(** A PETSc call followed by [LIBMESH_CHKERR] (or [CHKERRABORT]). *)
Definition petsc_call (c : PetscCall) : M unit := fun log =>
  let ierr := petsc_ierr petsc log c in
  if ierr =? 0 then Ok (tt, log ++ [c]) else Failed (PetscFailure c ierr).

(** The vector a creating call hands back, with the sizes the call asks
    for.  What PETSc makes of a negative size (it reads -1 as
    [PETSC_DECIDE] and settles the size itself) is not part of the
    header: statements about the sizes of a created vector are made for
    requests that [fits] admits, which [PetscInt] holds unchanged. *)
Definition created_vec (log : list PetscCall) (c : PetscCall) : option Vec :=
  match c with
  | VecCreateSeq n =>
      Some {| vec_id := length log; vec_type := VECSEQ; vec_N := n;
              vec_rstart := 0; vec_n := n; vec_ghosts := None |}
  | VecCreateMPI n_local n =>
      Some {| vec_id := length log; vec_type := VECMPI; vec_N := n;
              vec_rstart := petsc_rstart petsc log; vec_n := n_local;
              vec_ghosts := None |}
  | VecCreateGhost n_local n _ ghosts =>
      Some {| vec_id := length log; vec_type := VECMPI; vec_N := n;
              vec_rstart := petsc_rstart petsc log; vec_n := n_local;
              vec_ghosts := Some ghosts |}
  | VecDuplicate w =>
      Some {| vec_id := length log; vec_type := vec_type w; vec_N := vec_N w;
              vec_rstart := vec_rstart w; vec_n := vec_n w;
              vec_ghosts := vec_ghosts w |}
  | _ => None
  end.

Definition petsc_create (c : PetscCall) : M Vec := fun log =>
  match created_vec log c with
  | Some w => (petsc_call c;; mret w) log
  | None => Failed UndefinedBehaviour
  end.

Definition petsc_VecGetSize (w : Vec) : M Z :=
  petsc_call (VecGetSize w);; mret (vec_N w).

Definition petsc_VecGetLocalSize (w : Vec) : M Z :=
  petsc_call (VecGetLocalSize w);; mret (vec_n w).

Definition petsc_VecGetOwnershipRange (w : Vec) : M (Z * Z) :=
  petsc_call (VecGetOwnershipRange w);;
  mret (vec_rstart w, vec_rstart w + vec_n w).

Definition petsc_VecGhostGetLocalForm (w : Vec) : M (option Vec) :=
  petsc_call (VecGhostGetLocalForm w);; mret (vec_local_form w).

(** Using a handle: a null or indeterminate one is undefined behaviour. *)
Definition deref (h : option Vec) : M Vec :=
  match h with
  | Some w => mret w
  | None => throw UndefinedBehaviour
  end.

(** *** The array cache *)

(** Modelled from the spec: [_get_array] is defined in
    [src/numerics/petsc_vector.C], which is not among the sources.
    Section 4.3: if no view is present, fetch the backend array (and, for
    Ghosted storage, also the local form), record first/last/local_size,
    mark present; if a view is already present, this is a no-op. *)
Definition _get_array (read_only : bool) (v : PetscVector) : M PetscVector :=
  if _array_is_present v then mret v
  else
    w ← deref (_vec v);
    '(petsc_first, petsc_last) ← petsc_VecGetOwnershipRange w;
    lf ← (if ParallelType_eqb (type v) GHOSTED
          then petsc_VecGhostGetLocalForm w
          else mret None);
    target ← (if ParallelType_eqb (type v) GHOSTED then deref lf else mret w);
    petsc_call (if read_only then VecGetArrayRead target else VecGetArray target);;
    petsc_local_size ← petsc_VecGetLocalSize target;
    mret (set_array_cache (to_index cfg petsc_first) (to_index cfg petsc_last)
            (to_index cfg petsc_local_size) lf target read_only v).

(** Modelled from the spec: [_restore_array] is defined in
    [src/numerics/petsc_vector.C], which is not among the sources.
    Section 4.3: returns the backend array (and local form, if any) to
    the backend, clears presence; section 4.4 ("release the array cache
    if present"): nothing happens when no view is present. *)
Definition _restore_array (v : PetscVector) : M PetscVector :=
  if _array_is_present v then
    w ← deref (_vec v);
    (if ParallelType_eqb (type v) GHOSTED then
       lf ← deref (_local_form v);
       petsc_call (if _values_read_only v then VecRestoreArrayRead lf
                   else VecRestoreArray lf);;
       petsc_call (VecGhostRestoreLocalForm w lf)
     else
       petsc_call (if _values_read_only v then VecRestoreArrayRead w
                   else VecRestoreArray w));;
    mret (set_array_is_present false v)
  else mret v.

(** *** Life cycle *)

(** [parallel_object_only()] is a debug-time check on the communicator;
    it touches neither the object nor PETSc and has no counterpart. *)

Definition clear (v : PetscVector) : M PetscVector :=
  v ← (if initialized v then _restore_array v else mret v);
  v ← (if initialized v && _destroy_vec_on_exit v then
         w ← deref (_vec v);
         petsc_call (LibMeshVecDestroy w);;
         mret (set_vec None v)
       else mret v);
  mret (set_global_to_local_map ∅
          (set_is_closed false (set_is_initialized false v))).

Definition zero (v : PetscVector) : M PetscVector :=
  libmesh_assert (closed v);;
  v ← _restore_array v;
  w ← deref (_vec v);
  (if negb (ParallelType_eqb (type v) GHOSTED) then
     petsc_call (VecSet w scalar_zero)
   else
     loc_vec ← (lf ← petsc_VecGhostGetLocalForm w; deref lf);
     petsc_call (VecSet loc_vec scalar_zero);;
     petsc_call (VecGhostRestoreLocalForm w loc_vec));;
  mret v.

Definition close (v : PetscVector) : M PetscVector :=
  v ← _restore_array v;
  w ← deref (_vec v);
  petsc_call (VecAssemblyBegin w);;
  petsc_call (VecAssemblyEnd w);;
  (if ParallelType_eqb (type v) GHOSTED then
     petsc_call (VecGhostUpdateBegin w INSERT_VALUES SCATTER_FORWARD);;
     petsc_call (VecGhostUpdateEnd w INSERT_VALUES SCATTER_FORWARD)
   else mret tt);;
  mret (set_is_closed true v).

(** [init (n, n_local, fast, type)]. *)
Definition init (n n_local : Z) (fast : bool) (ptype : ParallelType)
    (v : PetscVector) : M PetscVector :=
  let petsc_n := to_PetscInt cfg n in
  let petsc_n_local := to_PetscInt cfg n_local in
  v ← (if initialized v then clear v else mret v);
  let v := set_type (match ptype with
                     | AUTOMATIC => if n =? n_local then SERIAL else PARALLEL
                     | _ => ptype
                     end) v in
  libmesh_assert ((ParallelType_eqb (type v) SERIAL && (n =? n_local))
                  || ParallelType_eqb (type v) PARALLEL);;
  w ← match type v with
      | SERIAL =>
          w ← petsc_create (VecCreateSeq petsc_n);
          petsc_call (VecSetFromOptions w);;
          mret w
      | PARALLEL =>
          w ← (if LIBMESH_HAVE_MPI cfg then
                 libmesh_assert (n_local <=? n);;
                 petsc_create (VecCreateMPI petsc_n_local petsc_n)
               else
                 libmesh_assert (n_local =? n);;
                 petsc_create (VecCreateSeq petsc_n));
          petsc_call (VecSetFromOptions w);;
          mret w
      | t => libmesh_error_msg ("Unsupported type " +:+ ParallelType_name t)
      end;
  let v := set_is_closed true (set_is_initialized true (set_vec (Some w) v)) in
  if fast then mret v else zero v.

(** [init (n, fast, type)]. *)
Definition init_N (n : Z) (fast : bool) (ptype : ParallelType)
    (v : PetscVector) : M PetscVector :=
  init n n fast ptype v.

(** The loop that fills the ghost map, [i] being its counter. *)
Fixpoint fill_ghost_map (ghost : list Z) (i : Z) (m : gmap Z Z) : gmap Z Z :=
  match ghost with
  | [] => m
  | g :: rest => fill_ghost_map rest (to_index cfg (i + 1)) (<[g := i]> m)
  end.

(** [init (n, n_local, ghost, fast, type)].  The counter of the loop is
    a [numeric_index_type]: it can only reach [ghost.size()] when the
    size fits that type. *)
Definition init_ghosted (n n_local : Z) (ghost : list Z) (fast : bool)
    (ptype : ParallelType) (v : PetscVector) : M PetscVector :=
  let petsc_n := to_PetscInt cfg n in
  let petsc_n_local := to_PetscInt cfg n_local in
  let petsc_n_ghost := to_PetscInt cfg (Z.of_nat (length ghost)) in
  let petsc_ghost := map (to_PetscInt cfg) ghost in
  v ← (if initialized v then clear v else mret v);
  libmesh_assert (ParallelType_eqb ptype AUTOMATIC || ParallelType_eqb ptype GHOSTED);;
  let v := set_type GHOSTED v in
  v ← (if index_modulus cfg <=? Z.of_nat (length ghost) then throw Diverges
       else mret (set_global_to_local_map
                    (fill_ghost_map ghost 0 (_global_to_local_map v)) v));
  w ← petsc_create (VecCreateGhost petsc_n_local petsc_n petsc_n_ghost petsc_ghost);
  petsc_call (VecSetFromOptions w);;
  let v := set_is_closed true (set_is_initialized true (set_vec (Some w) v)) in
  if fast then mret v else zero v.

(** [init (other, fast)]: returns this object and [other], whose cache
    the call releases (the two are distinct objects). *)
Definition init_from (other : PetscVector) (fast : bool) (this : PetscVector)
    : M (PetscVector * PetscVector) :=
  this ← (if initialized this then clear this else mret this);
  v ← (if initialized other then _restore_array other else mret other);
  let this := set_global_to_local_map (_global_to_local_map v) this in
  let this := set_is_initialized true (set_is_closed true this) in
  let this := set_type (_type v) this in
  ov ← deref (_vec v);
  w ← petsc_create (VecDuplicate ov);
  let this := set_vec (Some w) this in
  this ← (if fast then mret this else zero this);
  mret (this, v).

(** *** Sizes and index translation *)

Definition size (v : PetscVector) : M Z :=
  libmesh_assert (initialized v);;
  if negb (initialized v) then mret 0
  else
    w ← deref (_vec v);
    petsc_size ← petsc_VecGetSize w;
    mret (to_index cfg petsc_size).

Definition local_size (v : PetscVector) : M Z :=
  libmesh_assert (initialized v);;
  w ← deref (_vec v);
  petsc_size ← petsc_VecGetLocalSize w;
  mret (to_index cfg petsc_size).

(** The bounds [first_local_index], [last_local_index] and
    [map_global_to_local_index] work with: the cached ones while the
    array is present, PETSc's otherwise. *)
Definition ownership_range (v : PetscVector) : M (Z * Z) :=
  if _array_is_present v then mret (_first v, _last v)
  else
    w ← deref (_vec v);
    '(petsc_first, petsc_last) ← petsc_VecGetOwnershipRange w;
    mret (to_index cfg petsc_first, to_index cfg petsc_last).

Definition first_local_index (v : PetscVector) : M Z :=
  libmesh_assert (initialized v);;
  '(first, _) ← ownership_range v;
  mret first.

Definition last_local_index (v : PetscVector) : M Z :=
  libmesh_assert (initialized v);;
  '(_, last) ← ownership_range v;
  mret last.

Definition map_global_to_local_index (v : PetscVector) (i : Z) : M Z :=
  libmesh_assert (initialized v);;
  '(first, last) ← ownership_range v;
  if (first <=? i) && (i <? last) then mret (to_index cfg (i - first))
  else
    match _global_to_local_map v !! i with
    | Some second => mret (to_index cfg (second + last - first))
    | None =>
        if NDEBUG cfg then throw UndefinedBehaviour
        else libmesh_error_msg
               (no_index_message i first last
                  (unordered_map_keys cfg (_global_to_local_map v)))
    end.

(** *** Element access

    The scalars live in PETSc's storage; [operator_call] and [get]
    return the positions of the raw view that [operator()] and [get]
    read. *)
Definition operator_call (v : PetscVector) (i : Z) : M (Z * PetscVector) :=
  v ← _get_array true v;
  local_index ← map_global_to_local_index v i;
  (if ParallelType_eqb (type v) GHOSTED
   then libmesh_assert (local_index <? _local_size v)
   else mret tt);;
  mret (local_index, v).

Fixpoint get_loop (v : PetscVector) (index : list Z) : M (list Z) :=
  match index with
  | [] => mret []
  | i :: rest =>
      local_index ← map_global_to_local_index v i;
      (if ParallelType_eqb (type v) GHOSTED
       then libmesh_assert (local_index <? _local_size v)
       else mret tt);;
      values ← get_loop v rest;
      mret (local_index :: values)
  end.

Definition get (v : PetscVector) (index : list Z) : M (list Z * PetscVector) :=
  v ← _get_array true v;
  values ← get_loop v index;
  mret (values, v).

Definition get_array (v : PetscVector) : M (option Vec * PetscVector) :=
  let v := set_values_manually_retrieved true v in
  v ← _get_array false v;
  mret (_values v, v).

Definition get_array_read (v : PetscVector) : M (option Vec * PetscVector) :=
  let v := set_values_manually_retrieved true v in
  v ← _get_array true v;
  mret (_read_only_values v, v).

Definition restore_array (v : PetscVector) : M PetscVector :=
  let v := set_values_manually_retrieved false v in
  _restore_array v.

(** *** Reductions (the value PETSc computes is not represented) *)

Definition min (v : PetscVector) : M PetscVector :=
  v ← _restore_array v;
  w ← deref (_vec v);
  petsc_call (VecMin w);;
  mret v.

Definition max (v : PetscVector) : M PetscVector :=
  v ← _restore_array v;
  w ← deref (_vec v);
  petsc_call (VecMax w);;
  mret v.

(** *** swap *)

(** Modelled from the spec: [NumericVector<T>::swap] is defined in
    [numeric_vector.h], which is not among the sources.  Sections 4.5
    and 8 describe swap as an exchange between the two instances; the
    base-class part exchanges the three base-class members. *)
Definition NumericVector_swap (this v : PetscVector) : PetscVector * PetscVector :=
  (set_type (_type v) (set_is_initialized (_is_initialized v)
     (set_is_closed (_is_closed v) this)),
   set_type (_type this) (set_is_initialized (_is_initialized this)
     (set_is_closed (_is_closed this) v))).

(** [this->swap(other)]: the pair of objects afterwards. *)
Definition swap (this other : PetscVector) : PetscVector * PetscVector :=
  let '(this, v) := NumericVector_swap this other in
  ({| _is_closed := _is_closed this; _is_initialized := _is_initialized this;
      _type := _type this;
      _vec := _vec v;
      _array_is_present := _array_is_present v;
      _first := _first this; _last := _last this; _local_size := _local_size this;
      _local_form := _local_form v;
      _read_only_values := _read_only_values this;
      _values := _values v;
      _global_to_local_map := _global_to_local_map v;
      _destroy_vec_on_exit := _destroy_vec_on_exit v;
      _values_manually_retrieved := _values_manually_retrieved this;
      _values_read_only := _values_read_only this |},
   {| _is_closed := _is_closed v; _is_initialized := _is_initialized v;
      _type := _type v;
      _vec := _vec this;
      _array_is_present := _array_is_present this;
      _first := _first v; _last := _last v; _local_size := _local_size v;
      _local_form := _local_form this;
      _read_only_values := _read_only_values v;
      _values := _values this;
      _global_to_local_map := _global_to_local_map this;
      _destroy_vec_on_exit := _destroy_vec_on_exit this;
      _values_manually_retrieved := _values_manually_retrieved v;
      _values_read_only := _values_read_only v |}).

(** *** Constructors *)

(** The values of the members a constructor leaves uninitialised. *)
Record Indeterminate := {
  ind_first : Z;
  ind_last : Z;
  ind_local_size : Z
}.

(** The member initialisers the constructors share.  Modelled from the
    spec: the constructor of [NumericVector<T>] is not among the sources;
    section 3: a vector is created Uninitialized. *)
Definition members (u : Indeterminate) (ptype : ParallelType) (destroy : bool)
    : PetscVector :=
  {| _is_closed := false; _is_initialized := false; _type := ptype;
     _vec := None; _array_is_present := false;
     _first := ind_first u; _last := ind_last u; _local_size := ind_local_size u;
     _local_form := None; _read_only_values := None; _values := None;
     _global_to_local_map := ∅; _destroy_vec_on_exit := destroy;
     _values_manually_retrieved := false; _values_read_only := false |}.

(** [PetscVector (comm, type)]; it also sets [_first] and [_last] to 0. *)
Definition PetscVector_ctor (u : Indeterminate) (ptype : ParallelType) : PetscVector :=
  set_type ptype
    (members {| ind_first := 0; ind_last := 0; ind_local_size := ind_local_size u |}
       ptype true).

(** [PetscVector (comm, n, type)]. *)
Definition PetscVector_ctor_n (u : Indeterminate) (n : Z) (ptype : ParallelType)
    : M PetscVector :=
  init n n false ptype (members u ptype true).

(** [PetscVector (comm, n, n_local, type)]. *)
Definition PetscVector_ctor_n_local (u : Indeterminate) (n n_local : Z)
    (ptype : ParallelType) : M PetscVector :=
  init n n_local false ptype (members u ptype true).

(** [PetscVector (comm, N, n_local, ghost, type)]. *)
Definition PetscVector_ctor_ghost (u : Indeterminate) (n n_local : Z)
    (ghost : list Z) (ptype : ParallelType) : M PetscVector :=
  init_ghosted n n_local ghost false ptype (members u ptype true).

(** The loop of [PetscVector (Vec, comm)] that inverts the
    local-to-global mapping, [count] iterations from counter [i]. *)
Fixpoint invert_mapping (indices : list Z) (my_local_size : Z) (count : nat)
    (i : Z) (m : gmap Z Z) : M (gmap Z Z) :=
  match count with
  | O => mret m
  | S count' =>
      match indices !! Z.to_nat i with
      | Some g =>
          invert_mapping indices my_local_size count' (to_index cfg (i + 1))
            (<[to_index cfg g := to_index cfg (i - my_local_size)]> m)
      | None => throw UndefinedBehaviour
      end
  end.

(** [PetscVector (Vec v, comm)]: wraps a vector the caller keeps. *)
Definition PetscVector_ctor_Vec (u : Indeterminate) (w : Vec) : M PetscVector :=
  let v := set_is_initialized true (set_is_closed true
             (set_vec (Some w) (members u AUTOMATIC false))) in
  petsc_local_size ← petsc_VecGetLocalSize w;
  petsc_call (VecGetType w);;
  match vec_type w with
  | VECSHARED | VECMPI =>
      petsc_call (VecGetLocalToGlobalMapping w);;
      match vec_mapping w with
      | Some indices =>
          let my_local_size := to_index cfg petsc_local_size in
          let ghost_begin := to_index cfg petsc_local_size in
          petsc_call (ISLocalToGlobalMappingGetSize w);;
          let ghost_end := to_index cfg (Z.of_nat (length indices)) in
          petsc_call (ISLocalToGlobalMappingGetIndices w);;
          m ← invert_mapping indices my_local_size
                (Z.to_nat (ghost_end - ghost_begin)) ghost_begin
                (_global_to_local_map v);
          let v := set_type GHOSTED (set_global_to_local_map m v) in
          petsc_call (ISLocalToGlobalMappingRestoreIndices w);;
          mret v
      | None => mret (set_type PARALLEL v)
      end
  | VECSEQ => mret (set_type SERIAL v)
  end.

(** [zero_clone ()]: the new vector, and this one with its cache
    released by [init]. *)
Definition zero_clone (u : Indeterminate) (v : PetscVector)
    : M (PetscVector * PetscVector) :=
  init_from v false (PetscVector_ctor u (type v)).

End Members.

(** ** Calls as data *)

(** The member functions that act on one object, as values; [call]
    runs one and keeps the object (what the function returns is
    dropped). *)
Inductive Method :=
| m_init (n n_local : Z) (fast : bool) (ptype : ParallelType)
| m_init_N (n : Z) (fast : bool) (ptype : ParallelType)
| m_init_ghosted (n n_local : Z) (ghost : list Z) (fast : bool) (ptype : ParallelType)
| m_close
| m_clear
| m_zero
| m_size
| m_local_size
| m_first_local_index
| m_last_local_index
| m_map_global_to_local_index (i : Z)
| m_operator_call (i : Z)
| m_get (index : list Z)
| m_get_array
| m_get_array_read
| m_restore_array
| m_min
| m_max.

Definition call (cfg : Config) (petsc : Petsc) (m : Method) (v : PetscVector)
    : M PetscVector :=
  match m with
  | m_init n n_local fast ptype => init cfg petsc n n_local fast ptype v
  | m_init_N n fast ptype => init_N cfg petsc n fast ptype v
  | m_init_ghosted n n_local ghost fast ptype =>
      init_ghosted cfg petsc n n_local ghost fast ptype v
  | m_close => close petsc v
  | m_clear => clear petsc v
  | m_zero => zero cfg petsc v
  | m_size => size cfg petsc v;; mret v
  | m_local_size => local_size cfg petsc v;; mret v
  | m_first_local_index => first_local_index cfg petsc v;; mret v
  | m_last_local_index => last_local_index cfg petsc v;; mret v
  | m_map_global_to_local_index i => map_global_to_local_index cfg petsc v i;; mret v
  | m_operator_call i => r ← operator_call cfg petsc v i; mret r.2
  | m_get index => r ← get cfg petsc v index; mret r.2
  | m_get_array => r ← get_array cfg petsc v; mret r.2
  | m_get_array_read => r ← get_array_read cfg petsc v; mret r.2
  | m_restore_array => restore_array petsc v
  | m_min => min petsc v
  | m_max => max petsc v
  end.

(** A program over two objects [(this, other)]: calls on either, the
    two-object functions [init (other, fast)] and [swap] in both
    directions. *)
Inductive Op :=
| on_this (m : Method)
| on_other (m : Method)
| this_init_from_other (fast : bool)
| other_init_from_this (fast : bool)
| this_swap_other
| other_swap_this.

Definition step (cfg : Config) (petsc : Petsc) (op : Op)
    (p : PetscVector * PetscVector) : M (PetscVector * PetscVector) :=
  match op with
  | on_this m => this ← call cfg petsc m p.1; mret (this, p.2)
  | on_other m => other ← call cfg petsc m p.2; mret (p.1, other)
  | this_init_from_other fast => init_from cfg petsc p.2 fast p.1
  | other_init_from_this fast =>
      r ← init_from cfg petsc p.1 fast p.2; mret (r.2, r.1)
  | this_swap_other => mret (swap p.1 p.2)
  | other_swap_this => let r := swap p.2 p.1 in mret (r.2, r.1)
  end.

Fixpoint run (cfg : Config) (petsc : Petsc) (ops : list Op)
    (p : PetscVector * PetscVector) : M (PetscVector * PetscVector) :=
  match ops with
  | [] => mret p
  | op :: rest => p ← step cfg petsc op p; run cfg petsc rest p
  end.

Definition is_swap (op : Op) : bool :=
  match op with
  | this_swap_other | other_swap_this => true
  | _ => false
  end.

Fixpoint swap_count (ops : list Op) : nat :=
  match ops with
  | [] => 0
  | op :: rest => (if is_swap op then 1 else 0) + swap_count rest
  end.

(** The ownership flags of the two objects. *)
Definition flags (p : PetscVector * PetscVector) : bool * bool :=
  (_destroy_vec_on_exit p.1, _destroy_vec_on_exit p.2).

(** The [init] overloads, as values. *)
Inductive InitCall :=
| init_plain (n n_local : Z) (fast : bool) (ptype : ParallelType)
| init_size (n : Z) (fast : bool) (ptype : ParallelType)
| init_ghost (n n_local : Z) (ghost : list Z) (fast : bool) (ptype : ParallelType)
| init_other (other : PetscVector) (fast : bool).

Definition run_init (cfg : Config) (petsc : Petsc) (c : InitCall)
    (v : PetscVector) : M PetscVector :=
  match c with
  | init_plain n n_local fast ptype => init cfg petsc n n_local fast ptype v
  | init_size n fast ptype => init_N cfg petsc n fast ptype v
  | init_ghost n n_local ghost fast ptype =>
      init_ghosted cfg petsc n n_local ghost fast ptype v
  | init_other other fast => r ← init_from cfg petsc other fast v; mret r.1
  end.

(** ** Vocabulary of the statements *)

(** PETSc accepts the calls [cs], made in this order from [log]. *)
Fixpoint petsc_accepts (petsc : Petsc) (log cs : list PetscCall) : bool :=
  match cs with
  | [] => true
  | c :: rest =>
      (petsc_ierr petsc log c =? 0) && petsc_accepts petsc (log ++ [c]) rest
  end.

(** The calls that hand a present raw array back to PETSc. *)
Definition release_calls (v : PetscVector) (w : Vec) : list PetscCall :=
  if _array_is_present v then
    if ParallelType_eqb (type v) GHOSTED then
      match _local_form v with
      | Some lf =>
          [if _values_read_only v then VecRestoreArrayRead lf else VecRestoreArray lf;
           VecGhostRestoreLocalForm w lf]
      | None => []
      end
    else [if _values_read_only v then VecRestoreArrayRead w else VecRestoreArray w]
  else [].

(** While a raw array of a ghosted vector is present, the handle of the
    local form it was taken from is in place. *)
Definition local_form_in_place (v : PetscVector) : Prop :=
  _array_is_present v = true -> type v = GHOSTED -> _local_form v <> None.

(** Modelled from the spec: which PETSc calls are collective is PETSc's
    business.  Section 5: close(), the ghost-update exchange inside it
    and every reduction are collective; section 4.4: zeroing the local
    form is purely local, whereas zeroing through the distributed vector
    is the collective it avoids.  Calls on a sequential vector involve
    this process only. *)
Definition collective (c : PetscCall) : bool :=
  match c with
  | VecAssemblyBegin _ | VecAssemblyEnd _
  | VecGhostUpdateBegin _ _ _ | VecGhostUpdateEnd _ _ _
  | VecMin _ | VecMax _ => true
  | VecSet w _ => match vec_type w with VECSEQ => false | _ => true end
  | _ => false
  end.

(** [g] occurs in [ghost] at position [k] and nowhere after it. *)
Definition last_occurrence (ghost : list Z) (g : Z) (k : nat) : Prop :=
  ghost !! k = Some g /\ forall j, (k < j)%nat -> ghost !! j <> Some g.

(** The state of an object that holds no vector: nothing is cached and
    the ghost map is empty, as the constructors and [clear] leave it. *)
Definition pristine_if_uninitialized (v : PetscVector) : Prop :=
  initialized v = false ->
  _array_is_present v = false /\ _global_to_local_map v = ∅.

(** ** Concrete configurations, used by the examples *)

(** One order a container may iterate in: by decreasing key. *)
Definition decreasing_keys (m : gmap Z Z) : list Z :=
  reverse (merge_sort Z.le (map_to_list m).*1).

Definition decreasing_keys_visits_each_once (m : gmap Z Z)
    : decreasing_keys m ≡ₚ (map_to_list m).*1 :=
  perm_trans (reverse_Permutation _) (merge_sort_Permutation Z.le _).

Definition debug32 : Config :=
  {| index_bits := 32; NDEBUG := false; LIBMESH_HAVE_MPI := true;
     unordered_map_keys := decreasing_keys;
     unordered_map_keys_visits_each_once := decreasing_keys_visits_each_once |}.
Definition optimized32 : Config :=
  {| index_bits := 32; NDEBUG := true; LIBMESH_HAVE_MPI := true;
     unordered_map_keys := decreasing_keys;
     unordered_map_keys_visits_each_once := decreasing_keys_visits_each_once |}.

(** A PETSc that never fails, on the process of rank 0. *)
Definition petsc_rank0 : Petsc :=
  {| petsc_ierr := fun _ _ => 0; petsc_rstart := fun _ => 0 |}.

Definition junk : Indeterminate :=
  {| ind_first := 17; ind_last := 4; ind_local_size := 99 |}.

(** A ghosted vector somebody else created, to be wrapped. *)
Definition foreign_vec : Vec :=
  {| vec_id := 0; vec_type := VECMPI; vec_N := 4; vec_rstart := 2; vec_n := 2;
     vec_ghosts := Some [1] |}.

(** A vector as the default constructor leaves it. *)
Definition fresh : PetscVector := PetscVector_ctor junk AUTOMATIC.

(** [init (10, 2, {7, 8, 7})] on a fresh vector: two owned entries, the
    ghost index 7 listed twice. *)
Definition ghosted_run : Result (PetscVector * list PetscCall) :=
  init_ghosted debug32 petsc_rank0 10 2 [7; 8; 7] false AUTOMATIC fresh [].

Definition ghosted_vector : PetscVector :=
  match ghosted_run with Ok (v, _) => v | Failed _ => fresh end.

Definition ghosted_log : list PetscCall :=
  match ghosted_run with Ok (_, log) => log | Failed _ => [] end.

(** The PETSc vector behind it, and its local form. *)
Definition ghosted_w : Vec :=
  {| vec_id := 0; vec_type := VECMPI; vec_N := 10; vec_rstart := 0; vec_n := 2;
     vec_ghosts := Some [7; 8; 7] |}.

Definition ghosted_lf : Vec :=
  {| vec_id := 0; vec_type := VECSEQ; vec_N := 5; vec_rstart := 0; vec_n := 5;
     vec_ghosts := None |}.

(** The same vector while an element is being read: the raw array is
    present, acquired read-only. *)
Definition viewed_run : Result (PetscVector * list PetscCall) :=
  _get_array debug32 petsc_rank0 true ghosted_vector ghosted_log.

Definition viewed_vector : PetscVector :=
  match viewed_run with Ok (v, _) => v | Failed _ => fresh end.

Definition viewed_log : list PetscCall :=
  match viewed_run with Ok (_, log) => log | Failed _ => [] end.

(** A vector wrapping [foreign_vec], which it does not own. *)
Definition wrapping_vector : PetscVector :=
  match PetscVector_ctor_Vec debug32 petsc_rank0 junk foreign_vec [] with
  | Ok (v, _) => v
  | Failed _ => fresh
  end.

(** ** More of the class *)

(** [~PetscVector ()]. *)
Definition PetscVector_dtor (petsc : Petsc) (v : PetscVector) : M PetscVector :=
  clear petsc v.

(** A sequence of member-function calls on one object. *)
Fixpoint calls (cfg : Config) (petsc : Petsc) (ms : list Method)
    (v : PetscVector) : M PetscVector :=
  match ms with
  | [] => mret v
  | m :: rest => v ← call cfg petsc m v; calls cfg petsc rest v
  end.

(** The vectors a log shows as handed to [LibMeshVecDestroy]. *)
Fixpoint destroyed (log : list PetscCall) : list Vec :=
  match log with
  | [] => []
  | LibMeshVecDestroy w :: rest => w :: destroyed rest
  | _ :: rest => destroyed rest
  end.

(** The destroying call of [clear]: made on an initialised object that
    owns its vector. *)
Definition destroy_step (v : PetscVector) : list PetscCall :=
  if initialized v && _destroy_vec_on_exit v
  then match _vec v with Some w => [LibMeshVecDestroy w] | None => [] end
  else [].

(** The object's vector, if it holds one, was created during [log] and
    has not been destroyed; the storages destroyed so far are pairwise
    distinct and were created during [log]. *)
Definition storage_live (v : PetscVector) (log : list PetscCall) : Prop :=
  NoDup (vec_id <$> destroyed log) /\
  (forall i, i ∈ (vec_id <$> destroyed log) -> (i < length log)%nat) /\
  (initialized v = true -> forall w, _vec v = Some w ->
   (vec_id w < length log)%nat /\ vec_id w ∉ (vec_id <$> destroyed log)).

(** Whenever [m] succeeds, the log it leaves is the one it started from
    followed by calls that all satisfy [P]. *)
Definition appends {A : Type} (P : PetscCall -> Prop) (m : M A) : Prop :=
  forall log a log', m log = Ok (a, log') ->
    exists cs, log' = log ++ cs /\ Forall P cs.

(** The call destroys nothing. *)
Definition keeps_storage (c : PetscCall) : Prop := destroyed [c] = [].

(** The member functions that let go of the object's vector: the [init]
    overloads (which clear first) and [clear]. *)
Definition lets_go (m : Method) : bool :=
  match m with
  | m_init _ _ _ _ | m_init_N _ _ _ | m_init_ghosted _ _ _ _ _ | m_clear => true
  | _ => false
  end.

(** A value both [numeric_index_type] and [PetscInt] represent. *)
Definition fits (cfg : Config) (z : Z) : Prop :=
  0 <= z < index_modulus cfg / 2.

(** The cached bounds, while a raw array is present, are the ownership
    range of the vector the object holds.  [_get_array] caches them so;
    [swap], which exchanges the vectors and the presence flags but not
    [_first] and [_last], can leave bounds that are not. *)
Definition bounds_coherent (cfg : Config) (v : PetscVector) : Prop :=
  _array_is_present v = true ->
  exists w, _vec v = Some w /\
            _first v = to_index cfg (vec_rstart w) /\
            _last v = to_index cfg (vec_rstart w + vec_n w).

(** None of the calls is an [init] or [clear]. *)
Definition keep_vector (ms : list Method) : Prop :=
  Forall (fun m => lets_go m = false) ms.

(** ** More concrete data *)

(** A PETSc that never fails, on a process whose ranges start at 4. *)
Definition petsc_rank1 : Petsc :=
  {| petsc_ierr := fun _ _ => 0; petsc_rstart := fun _ => 4 |}.

(** [init (10, 3, {1, 9})] on that process: it owns 4, 5 and 6. *)
Definition rank1_run : Result (PetscVector * list PetscCall) :=
  init_ghosted debug32 petsc_rank1 10 3 [1; 9] false AUTOMATIC fresh [].

Definition rank1_vector : PetscVector :=
  match rank1_run with Ok (v, _) => v | Failed _ => fresh end.

Definition rank1_log : list PetscCall :=
  match rank1_run with Ok (_, log) => log | Failed _ => [] end.

Definition rank1_w : Vec :=
  {| vec_id := 0; vec_type := VECMPI; vec_N := 10; vec_rstart := 4; vec_n := 3;
     vec_ghosts := Some [1; 9] |}.

(** The vector of [ghosted_run] after [close ()] and a [get] of the
    entries 7 and 1: in use, its raw array present. *)
Definition used_run : Result (PetscVector * list PetscCall) :=
  calls debug32 petsc_rank0 [m_close; m_get [7; 1]] ghosted_vector ghosted_log.

Definition used_vector : PetscVector :=
  match used_run with Ok (v, _) => v | Failed _ => fresh end.

Definition used_log : list PetscCall :=
  match used_run with Ok (_, log) => log | Failed _ => [] end.

(** * Properties *)

(** ** Reasoning about computations *)

Lemma bind_Ok {A B : Type} (m : M A) (f : A -> M B) log r :
  (m ≫= f) log = Ok r -> exists a log1, m log = Ok (a, log1) /\ f a log1 = Ok r.
Proof.
  unfold mbind, M_bind. destruct (m log) as [[a log1]|e]; [eauto | discriminate].
Qed.

Lemma ret_Ok {A : Type} (a : A) log r : (mret a : M A) log = Ok r -> r = (a, log).
Proof. unfold mret, M_ret. congruence. Qed.

Lemma bind_eq {A B : Type} (m : M A) (f : A -> M B) log a log1 :
  m log = Ok (a, log1) -> (m ≫= f) log = f a log1.
Proof. unfold mbind, M_bind. intros ->. reflexivity. Qed.

(** Decompose a successful run, one step at a time. *)
Ltac inv_step :=
  match goal with
  | H : Ok _ = Ok _ |- _ => inversion H; subst; clear H
  | H : Failed _ = Ok _ |- _ => discriminate H
  | H : @throw _ _ _ = Ok _ |- _ => unfold throw in H; discriminate H
  | H : @libmesh_error_msg _ _ _ = Ok _ |- _ =>
      unfold libmesh_error_msg, throw in H; discriminate H
  | H : @mret _ _ _ _ _ = Ok _ |- _ => apply ret_Ok in H; inversion H; subst; clear H
  | H : @mbind _ _ _ _ _ _ _ = Ok _ |- _ =>
      let a := fresh "a" in let l := fresh "log" in let H1 := fresh "H" in
      apply bind_Ok in H; destruct H as (a & l & H1 & H)
  | H : (let '(_, _) := ?p in _) _ = Ok _ |- _ => destruct p
  | H : (if ?b then _ else _) _ = Ok _ |- _ => destruct b eqn:?
  | H : match ?x with _ => _ end _ = Ok _ |- _ => destruct x eqn:?
  end.
Ltac inv_run := repeat inv_step.

Tactic Notation "inv_bind" hyp(H) "as" ident(a) ident(l) ident(H1) :=
  apply bind_Ok in H; destruct H as (a & l & H1 & H).

Section Properties.

Variable cfg : Config.
Variable petsc : Petsc.

Lemma petsc_call_Ok c log r :
  petsc_call petsc c log = Ok r ->
  petsc_ierr petsc log c = 0 /\ r = (tt, log ++ [c]).
Proof.
  unfold petsc_call. destruct (Z.eqb_spec (petsc_ierr petsc log c) 0); [|discriminate].
  intros [= <-]. auto.
Qed.

Lemma _restore_array_Ok v log v' log' :
  _restore_array petsc v log = Ok (v', log') -> v' = set_array_is_present false v.
Proof.
  unfold _restore_array. intros H. destruct (_array_is_present v) eqn:Hp.
  - inv_run; reflexivity.
  - inv_run. destruct v; simpl in *; subst; reflexivity.
Qed.

Lemma zero_Ok v log v' log' :
  zero cfg petsc v log = Ok (v', log') -> v' = set_array_is_present false v.
Proof.
  unfold zero. intros H. inv_step. inv_step.
  apply _restore_array_Ok in H1. subst. inv_run; reflexivity.
Qed.

Lemma clear_Ok v log v' log' :
  clear petsc v log = Ok (v', log') ->
  initialized v' = false /\ closed v' = false /\ _global_to_local_map v' = ∅ /\
  _type v' = _type v /\ _destroy_vec_on_exit v' = _destroy_vec_on_exit v /\
  (initialized v = true -> _array_is_present v' = false) /\
  (initialized v = false -> _array_is_present v' = _array_is_present v).
Proof.
  unfold clear. intros H. inv_step. inv_step.
  assert (Ha : (initialized v = false /\ a = v) \/
               (initialized v = true /\ a = set_array_is_present false v)).
  { destruct (initialized v) eqn:Hi; [right | left]; split; try reflexivity.
    - eapply _restore_array_Ok; eassumption.
    - inv_run; reflexivity. }
  clear H0. inv_run; destruct Ha as [[Hi ->] | [Hi ->]]; simpl in *;
    repeat split; try reflexivity; try congruence.
Qed.


Lemma _get_array_Ok read_only v log v' log' :
  _get_array cfg petsc read_only v log = Ok (v', log') ->
  _is_initialized v' = _is_initialized v /\ _is_closed v' = _is_closed v /\
  _type v' = _type v /\ _vec v' = _vec v /\
  _global_to_local_map v' = _global_to_local_map v /\
  _destroy_vec_on_exit v' = _destroy_vec_on_exit v /\
  _values_manually_retrieved v' = _values_manually_retrieved v /\
  _array_is_present v' = true.
Proof.
  unfold _get_array. intros H. destruct (_array_is_present v) eqn:Hp.
  - inv_run. auto 10.
  - inv_run; simpl; auto 10.
Qed.

(** What [init] leaves behind. *)
Lemma init_Ok n n_local fast ptype v log v' log' :
  init cfg petsc n n_local fast ptype v log = Ok (v', log') ->
  initialized v' = true /\ closed v' = true /\
  _destroy_vec_on_exit v' = _destroy_vec_on_exit v /\
  type v' = match ptype with
            | AUTOMATIC => if n =? n_local then SERIAL else PARALLEL
            | _ => ptype
            end /\
  (type v' = SERIAL \/ type v' = PARALLEL).
Proof.
  unfold init. intros H. inv_bind H as v1 log1 Hclear.
  assert (Ha : _destroy_vec_on_exit v1 = _destroy_vec_on_exit v).
  { destruct (initialized v); [apply clear_Ok in Hclear; tauto | inv_run; reflexivity]. }
  clear Hclear. inv_bind H as u log2 Hassert. inv_bind H as w log3 Hcreate.
  remember (match ptype with AUTOMATIC => _ | _ => ptype end) as t eqn:Et.
  assert (Ht : t = SERIAL \/ t = PARALLEL).
  { unfold type in Hcreate. simpl in Hcreate.
    destruct t; auto; unfold libmesh_error_msg, throw in Hcreate; discriminate Hcreate. }
  clear Hcreate Hassert.
  destruct fast.
  - inv_run. simpl. auto.
  - apply zero_Ok in H as ->. simpl. auto.
Qed.

Lemma petsc_create_Ok c log w log' :
  petsc_create petsc c log = Ok (w, log') ->
  created_vec petsc log c = Some w /\ log' = log ++ [c].
Proof.
  unfold petsc_create. destruct (created_vec petsc log c) as [w0|]; [|discriminate].
  intros H. inv_bind H as u log1 Hcall. apply petsc_call_Ok in Hcall as [_ [= _ ->]].
  apply ret_Ok in H as [= -> ->]. auto.
Qed.

(** What the ghosted [init] leaves behind. *)
Lemma init_ghosted_Ok n n_local ghost fast ptype v log v' log' :
  init_ghosted cfg petsc n n_local ghost fast ptype v log = Ok (v', log') ->
  initialized v' = true /\ closed v' = true /\
  _destroy_vec_on_exit v' = _destroy_vec_on_exit v /\
  type v' = GHOSTED /\
  Z.of_nat (length ghost) < index_modulus cfg /\
  _global_to_local_map v' =
    fill_ghost_map cfg ghost 0
      (if initialized v then ∅ else _global_to_local_map v) /\
  (exists w, _vec v' = Some w /\ vec_n w = to_PetscInt cfg n_local) /\
  (pristine_if_uninitialized v -> _array_is_present v' = false).
Proof.
  unfold init_ghosted. intros H. inv_bind H as v1 log1 Hclear.
  assert (Ha : _destroy_vec_on_exit v1 = _destroy_vec_on_exit v /\
               _global_to_local_map v1 =
                 (if initialized v then ∅ else _global_to_local_map v) /\
               (pristine_if_uninitialized v -> _array_is_present v1 = false)).
  { unfold pristine_if_uninitialized. destruct (initialized v) eqn:Hi.
    - apply clear_Ok in Hclear. destruct Hclear as (_ & _ & Hm & _ & Hf & Hp & _).
      auto.
    - apply ret_Ok in Hclear as [= -> ->].
      repeat split; try reflexivity. intros Hp. apply Hp. reflexivity. }
  clear Hclear. destruct Ha as (Hflag & Hmap & Hpres).
  inv_bind H as u log2 Hassert. clear Hassert.
  inv_bind H as v2 log3 Hloop.
  destruct (Z.leb_spec (index_modulus cfg) (Z.of_nat (length ghost))) as [|Hlen];
    [discriminate Hloop|].
  apply ret_Ok in Hloop as [= -> ->].
  inv_bind H as w log4 Hcreate. apply petsc_create_Ok in Hcreate as [Hw ->].
  simpl in Hw. injection Hw as <-.
  inv_bind H as u2 log5 Hopts. clear Hopts.
  destruct fast.
  - apply ret_Ok in H as [= -> ->]. simpl. rewrite Hmap. eauto 10.
  - apply zero_Ok in H as ->. simpl. rewrite Hmap. eauto 10.
Qed.

Lemma init_from_Ok other fast this log this' other' log' :
  init_from cfg petsc other fast this log = Ok (this', other', log') ->
  initialized this' = true /\ closed this' = true /\
  _destroy_vec_on_exit this' = _destroy_vec_on_exit this /\
  _destroy_vec_on_exit other' = _destroy_vec_on_exit other /\
  type this' = type other.
Proof.
  unfold init_from. intros H. inv_bind H as v1 log1 Hclear.
  assert (Ha : _destroy_vec_on_exit v1 = _destroy_vec_on_exit this).
  { destruct (initialized this); [apply clear_Ok in Hclear; tauto | inv_run; reflexivity]. }
  clear Hclear. inv_bind H as v log2 Hrestore.
  assert (Hb : _destroy_vec_on_exit v = _destroy_vec_on_exit other /\
               _type v = _type other).
  { destruct (initialized other);
      [apply _restore_array_Ok in Hrestore as ->; auto | inv_run; auto]. }
  clear Hrestore. destruct Hb as [Hb1 Hb2].
  inv_bind H as ov log3 Hderef. inv_bind H as w log4 Hcreate.
  inv_bind H as v3 log5 Hzero.
  apply ret_Ok in H as [= -> -> ->].
  destruct fast.
  - apply ret_Ok in Hzero as [= -> ->]. simpl. auto.
  - apply zero_Ok in Hzero as ->. simpl. auto.
Qed.

(** ** Life cycle after [init] *)

(** C1 (amended): every successful [init] call (plain, size only,
    ghosted, or from another vector) leaves the vector initialised and
    closed, i.e. in the Closed life-cycle state, not in Open. *)
Theorem init_enters_closed c v log v' log' :
  run_init cfg petsc c v log = Ok (v', log') -> lifecycle v' = Closed.
Proof.
  intros H. unfold lifecycle.
  assert (Hic : initialized v' = true /\ closed v' = true).
  { destruct c as [n n_local fast ptype | n fast ptype
                  | n n_local ghost fast ptype | other fast]; simpl in H.
    - apply init_Ok in H. tauto.
    - apply init_Ok in H. tauto.
    - apply init_ghosted_Ok in H. tauto.
    - inv_bind H as r log1 Hinit. destruct r as [this' other'].
      apply ret_Ok in H as [= -> ->]. apply init_from_Ok in Hinit. tauto. }
  destruct Hic as [-> ->]. reflexivity.
Qed.

(** ** Storage type chosen by [init] *)

(** C5: [init (N, n_local, fast, AUTOMATIC)] makes the storage type
    SERIAL when [N = n_local] and PARALLEL otherwise; the ghost-list
    [init] makes it GHOSTED whatever [N], [n_local] and the type asked
    for; and the plain [init] never succeeds on a GHOSTED request, which
    therefore has to go through the ghost-list [init]. *)
Theorem init_storage_type :
  (forall n n_local fast v log v' log',
      init cfg petsc n n_local fast AUTOMATIC v log = Ok (v', log') ->
      type v' = if n =? n_local then SERIAL else PARALLEL) /\
  (forall n n_local ghost fast ptype v log v' log',
      init_ghosted cfg petsc n n_local ghost fast ptype v log = Ok (v', log') ->
      type v' = GHOSTED) /\
  (forall n n_local fast v log v' log',
      init cfg petsc n n_local fast GHOSTED v log <> Ok (v', log')).
Proof.
  repeat split.
  - intros * H. apply init_Ok in H. tauto.
  - intros * H. apply init_ghosted_Ok in H. tauto.
  - intros * H. apply init_Ok in H. destruct H as (_ & _ & _ & Ht & [Hs | Hp]);
      congruence.
Qed.

(** ** [size] on a vector that was never initialised *)

(** C10: on an Uninitialized vector, [size ()] returns 0 in an optimised
    build (assertions compiled out) and fails its assertion in a debug
    build; PETSc is not consulted in either. *)
Theorem size_uninitialized v log :
  initialized v = false ->
  size cfg petsc v log =
    if NDEBUG cfg then Ok (0, log) else Failed AssertionFailed.
Proof.
  intros Hi. unfold size, libmesh_assert. rewrite Hi.
  destruct (NDEBUG cfg); reflexivity.
Qed.

(** ** [swap] *)

(** C8: swapping the same two vectors twice in succession gives back
    both objects exactly as they were. *)
Theorem swap_twice this other :
  swap (swap this other).1 (swap this other).2 = (this, other).
Proof. destruct this, other. reflexivity. Qed.

(** C9: [swap] exchanges the PETSc handle, the ownership flag, the ghost
    map, the presence flag, the local-form handle and the read-write
    pointer, and leaves to each object its own cached bounds, read-only
    pointer, manually-retrieved marker and read-only marker; so when
    [other] held a cached view, [this] afterwards shows a view as present
    over [other]'s vector while its cached bounds are still its own. *)
Theorem swap_frame this other :
  let this' := (swap this other).1 in
  let other' := (swap this other).2 in
  (_vec this' = _vec other /\ _vec other' = _vec this) /\
  (_destroy_vec_on_exit this' = _destroy_vec_on_exit other /\
   _destroy_vec_on_exit other' = _destroy_vec_on_exit this) /\
  (_global_to_local_map this' = _global_to_local_map other /\
   _global_to_local_map other' = _global_to_local_map this) /\
  (_array_is_present this' = _array_is_present other /\
   _array_is_present other' = _array_is_present this) /\
  (_local_form this' = _local_form other /\ _local_form other' = _local_form this) /\
  (_values this' = _values other /\ _values other' = _values this) /\
  (_first this' = _first this /\ _first other' = _first other) /\
  (_last this' = _last this /\ _last other' = _last other) /\
  (_local_size this' = _local_size this /\ _local_size other' = _local_size other) /\
  (_read_only_values this' = _read_only_values this /\
   _read_only_values other' = _read_only_values other) /\
  (_values_manually_retrieved this' = _values_manually_retrieved this /\
   _values_manually_retrieved other' = _values_manually_retrieved other) /\
  (_values_read_only this' = _values_read_only this /\
   _values_read_only other' = _values_read_only other) /\
  (_array_is_present other = true ->
   _array_is_present this' = true /\ _vec this' = _vec other /\
   (_first this', _last this', _local_size this') =
     (_first this, _last this, _local_size this)).
Proof. destruct this, other. simpl. tauto. Qed.

(** ** The ownership flag *)

Lemma call_keeps_flag m v log v' log' :
  call cfg petsc m v log = Ok (v', log') ->
  _destroy_vec_on_exit v' = _destroy_vec_on_exit v.
Proof.
  destruct m; simpl; intros H.
  - apply init_Ok in H. tauto.
  - apply init_Ok in H. tauto.
  - apply init_ghosted_Ok in H. tauto.
  - unfold close in H. inv_bind H as v1 log1 Hr.
    apply _restore_array_Ok in Hr as ->. inv_run; reflexivity.
  - apply clear_Ok in H. tauto.
  - apply zero_Ok in H as ->. reflexivity.
  - inv_bind H as r log1 Hq. apply ret_Ok in H as [= -> ->]. reflexivity.
  - inv_bind H as r log1 Hq. apply ret_Ok in H as [= -> ->]. reflexivity.
  - inv_bind H as r log1 Hq. apply ret_Ok in H as [= -> ->]. reflexivity.
  - inv_bind H as r log1 Hq. apply ret_Ok in H as [= -> ->]. reflexivity.
  - inv_bind H as r log1 Hq. apply ret_Ok in H as [= -> ->]. reflexivity.
  - inv_bind H as r log1 Hq. apply ret_Ok in H as [= -> ->].
    unfold operator_call in Hq. inv_bind Hq as v1 log2 Hg.
    apply _get_array_Ok in Hg. inv_bind Hq as li log3 Hm. inv_bind Hq as u log4 Ha.
    apply ret_Ok in Hq as [= ->]. simpl. tauto.
  - inv_bind H as r log1 Hq. apply ret_Ok in H as [= -> ->].
    unfold get in Hq. inv_bind Hq as v1 log2 Hg.
    apply _get_array_Ok in Hg. inv_bind Hq as li log3 Hm.
    apply ret_Ok in Hq as [= ->]. simpl. tauto.
  - inv_bind H as r log1 Hq. apply ret_Ok in H as [= -> ->].
    unfold get_array in Hq. inv_bind Hq as v1 log2 Hg.
    apply _get_array_Ok in Hg. apply ret_Ok in Hq as [= ->]. simpl. tauto.
  - inv_bind H as r log1 Hq. apply ret_Ok in H as [= -> ->].
    unfold get_array_read in Hq. inv_bind Hq as v1 log2 Hg.
    apply _get_array_Ok in Hg. apply ret_Ok in Hq as [= ->]. simpl. tauto.
  - unfold restore_array in H. apply _restore_array_Ok in H as ->. reflexivity.
  - unfold min in H. inv_bind H as v1 log1 Hr.
    apply _restore_array_Ok in Hr as ->. inv_run; reflexivity.
  - unfold max in H. inv_bind H as v1 log1 Hr.
    apply _restore_array_Ok in Hr as ->. inv_run; reflexivity.
Qed.

Lemma swap_flags this other :
  flags (swap this other) = prod_swap (flags (this, other)).
Proof. destruct this, other. reflexivity. Qed.

Lemma step_flags op p log p' log' :
  step cfg petsc op p log = Ok (p', log') ->
  flags p' = if is_swap op then prod_swap (flags p) else flags p.
Proof.
  destruct p as [this other].
  destruct op; simpl; intros H.
  - inv_bind H as r log1 Hc. apply ret_Ok in H. injection H as -> ->.
    apply call_keeps_flag in Hc. unfold flags. simpl. rewrite Hc. reflexivity.
  - inv_bind H as r log1 Hc. apply ret_Ok in H. injection H as -> ->.
    apply call_keeps_flag in Hc. unfold flags. simpl. rewrite Hc. reflexivity.
  - destruct p' as [this' other']. apply init_from_Ok in H.
    destruct H as (_ & _ & H1 & H2 & _). unfold flags. simpl. rewrite H1, H2.
    reflexivity.
  - inv_bind H as r log1 Hc. destruct r as [r1 r2].
    apply ret_Ok in H. injection H as -> ->.
    apply init_from_Ok in Hc. destruct Hc as (_ & _ & H1 & H2 & _).
    unfold flags. simpl. rewrite H1, H2. reflexivity.
  - apply ret_Ok in H. injection H as -> ->. apply swap_flags.
  - apply ret_Ok in H. injection H as -> ->. destruct this, other. reflexivity.
Qed.

(** C3 (amended): no member function acting on one object changes its
    ownership flag, and neither does [init (other, fast)]; [swap]
    exchanges the flags of the two objects (each flag travels with the
    PETSc handle it was decided for).  So after any program over two
    objects that runs to its end, the two flags are as at the start when
    the number of swaps is even, and exchanged when it is odd. *)
Theorem ownership_flag_changes_only_by_swap ops p log p' log' :
  run cfg petsc ops p log = Ok (p', log') ->
  flags p' = if Nat.even (swap_count ops) then flags p else prod_swap (flags p).
Proof.
  revert p log. induction ops as [|op ops IH]; intros p log H; simpl in H.
  - apply ret_Ok in H as [= -> ->]. reflexivity.
  - inv_bind H as p1 log1 Hs. apply IH in H. apply step_flags in Hs.
    rewrite H, Hs. cbn [swap_count].
    destruct (is_swap op).
    + change (1 + swap_count ops)%nat with (S (swap_count ops)).
      rewrite Nat.even_succ, <- Nat.negb_even.
      destruct (Nat.even (swap_count ops)); reflexivity.
    + reflexivity.
Qed.

(** ** Sequences of PETSc calls *)

Lemma petsc_accepts_app log cs1 cs2 :
  petsc_accepts petsc log (cs1 ++ cs2) =
  petsc_accepts petsc log cs1 && petsc_accepts petsc (log ++ cs1) cs2.
Proof.
  revert log. induction cs1 as [|c cs1 IH]; intros log; simpl.
  - rewrite app_nil_r. reflexivity.
  - rewrite IH, <- app_assoc, andb_assoc. reflexivity.
Qed.

Lemma petsc_call_accepted c cs log :
  petsc_accepts petsc log (c :: cs) = true ->
  petsc_call petsc c log = Ok (tt, log ++ [c]) /\
  petsc_accepts petsc (log ++ [c]) cs = true.
Proof.
  simpl. intros [H1 H2]%andb_prop. unfold petsc_call. rewrite H1. auto.
Qed.

(** Split an accepted sequence into its calls and run them in the goal. *)
Ltac run_accepted H :=
  cbn [petsc_accepts app] in H;
  repeat (let He := fresh "He" in apply andb_prop in H as [He H]);
  unfold petsc_VecGhostGetLocalForm, deref, petsc_call, mbind, M_bind, mret, M_ret;
  repeat (cbv beta iota;
          match goal with
          | He : (_ =? 0) = true |- _ => rewrite He; clear He
          | Hl : vec_local_form _ = Some _ |- _ => rewrite Hl
          end);
  cbv beta iota.

Lemma _restore_array_accepted v w log :
  _vec v = Some w -> local_form_in_place v ->
  petsc_accepts petsc log (release_calls v w) = true ->
  _restore_array petsc v log =
    Ok (set_array_is_present false v, log ++ release_calls v w).
Proof.
  intros Hw Hlf Hacc. unfold _restore_array, release_calls in *.
  destruct (_array_is_present v) eqn:Hp.
  - rewrite Hw.
    destruct (ParallelType_eqb (type v) GHOSTED) eqn:Hg.
    + destruct (_local_form v) as [lf|] eqn:Hl.
      * run_accepted Hacc. rewrite <- app_assoc. reflexivity.
      * exfalso. apply Hlf; auto. destruct (type v); try discriminate; reflexivity.
    + run_accepted Hacc. reflexivity.
  - rewrite app_nil_r. destruct v; simpl in *; subst; reflexivity.
Qed.

Lemma release_calls_local v w :
  forallb (fun c => negb (collective c)) (release_calls v w) = true.
Proof.
  unfold release_calls.
  destruct (_array_is_present v), (ParallelType_eqb (type v) GHOSTED),
    (_local_form v), (_values_read_only v); reflexivity.
Qed.

(** ** [close] *)

(** C4: [close ()] first releases the raw array if one is present, then
    runs the assembly (begin, then end), then, exactly when the storage
    type is GHOSTED, the ghost update (begin, then end) with
    [INSERT_VALUES]; afterwards the vector is closed and no array is
    present. *)
Theorem close_sequence v w log :
  _vec v = Some w -> local_form_in_place v ->
  let calls :=
    release_calls v w ++
    [VecAssemblyBegin w; VecAssemblyEnd w] ++
    (if ParallelType_eqb (type v) GHOSTED
     then [VecGhostUpdateBegin w INSERT_VALUES SCATTER_FORWARD;
           VecGhostUpdateEnd w INSERT_VALUES SCATTER_FORWARD]
     else []) in
  petsc_accepts petsc log calls = true ->
  exists v',
    close petsc v log = Ok (v', log ++ calls) /\
    closed v' = true /\ _array_is_present v' = false /\
    (initialized v = true -> lifecycle v' = Closed).
Proof.
  intros Hw Hlf calls Hacc. subst calls.
  exists (set_is_closed true (set_array_is_present false v)).
  split; [|split; [reflexivity | split; [reflexivity|]]].
  - rewrite petsc_accepts_app in Hacc. apply andb_prop in Hacc as [Hrel Hacc].
    unfold close.
    rewrite (bind_eq _ _ _ _ _ (_restore_array_accepted v w log Hw Hlf Hrel)).
    change (_vec (set_array_is_present false v)) with (_vec v). rewrite Hw.
    change (type (set_array_is_present false v)) with (type v).
    rewrite app_assoc.
    destruct (ParallelType_eqb (type v) GHOSTED); run_accepted Hacc;
      repeat rewrite <- app_assoc; reflexivity.
  - intros Hi. unfold lifecycle, initialized, closed. simpl.
    unfold initialized in Hi. rewrite Hi. reflexivity.
Qed.

(** ** [zero] *)

(** C6: [zero ()] asserts that the vector is closed, and checks it in no
    other way.  Past the assertion it releases the raw array if present;
    on a GHOSTED vector it then takes the local form, sets it (owned and
    ghost entries) to zero and gives it back, and none of the calls it
    makes is collective; on any other vector it sets the PETSc vector
    itself to zero.  The closed flag is as before.  The local form holds
    the owned entries and one entry per ghost index. *)
Theorem zero_sequence v w log :
  _vec v = Some w -> local_form_in_place v ->
  (type v = GHOSTED -> vec_local_form w <> None) ->
  let zeroing :=
    if ParallelType_eqb (type v) GHOSTED then
      match vec_local_form w with
      | Some lf => [VecGhostGetLocalForm w; VecSet lf scalar_zero;
                    VecGhostRestoreLocalForm w lf]
      | None => []
      end
    else [VecSet w scalar_zero] in
  let calls := release_calls v w ++ zeroing in
  petsc_accepts petsc log calls = true ->
  (closed v = true \/ NDEBUG cfg = true ->
   exists v', zero cfg petsc v log = Ok (v', log ++ calls) /\
              closed v' = closed v /\ _array_is_present v' = false) /\
  (closed v = false -> NDEBUG cfg = false ->
   zero cfg petsc v log = Failed AssertionFailed) /\
  (type v = GHOSTED -> forallb (fun c => negb (collective c)) calls = true) /\
  (forall lf, vec_local_form w = Some lf ->
   exists gs, vec_ghosts w = Some gs /\
              vec_n lf = vec_n w + Z.of_nat (length gs)).
Proof.
  intros Hw Hlf Hghost zeroing calls Hacc. subst calls zeroing.
  split; [|split; [|split]].
  - intros Hc. exists (set_array_is_present false v).
    split; [|split; reflexivity].
    rewrite petsc_accepts_app in Hacc. apply andb_prop in Hacc as [Hrel Hacc].
    unfold zero.
    assert (Ha : libmesh_assert cfg (closed v) log = Ok (tt, log)).
    { unfold libmesh_assert. destruct Hc as [-> | ->]; [|reflexivity].
      destruct (NDEBUG cfg); reflexivity. }
    rewrite (bind_eq _ _ _ _ _ Ha).
    rewrite (bind_eq _ _ _ _ _ (_restore_array_accepted v w log Hw Hlf Hrel)).
    change (_vec (set_array_is_present false v)) with (_vec v). rewrite Hw.
    change (type (set_array_is_present false v)) with (type v).
    rewrite app_assoc.
    destruct (ParallelType_eqb (type v) GHOSTED) eqn:Hg; simpl negb; cbv iota.
    + destruct (vec_local_form w) as [lf|] eqn:Hl.
      * run_accepted Hacc.
        repeat rewrite <- app_assoc. reflexivity.
      * exfalso. apply Hghost; [|reflexivity].
        destruct (type v); try discriminate; reflexivity.
    + run_accepted Hacc. reflexivity.
  - intros Hc Hn. unfold zero, libmesh_assert. rewrite Hc, Hn. reflexivity.
  - intros Hg. rewrite forallb_app, release_calls_local. rewrite Hg. simpl.
    unfold vec_local_form. destruct (vec_ghosts w); reflexivity.
  - intros lf. unfold vec_local_form. destruct (vec_ghosts w) as [gs|]; [|discriminate].
    intros [= <-]. exists gs. split; reflexivity.
Qed.

(** ** Index arithmetic *)

Lemma index_modulus_pos : 0 < index_modulus cfg.
Proof. unfold index_modulus. apply Z.pow_pos_nonneg; lia. Qed.

Lemma to_index_range z : 0 <= to_index cfg z < index_modulus cfg.
Proof. unfold to_index. apply Z.mod_pos_bound, index_modulus_pos. Qed.

Lemma to_index_small z : 0 <= z < index_modulus cfg -> to_index cfg z = z.
Proof. unfold to_index. apply Z.mod_small. Qed.

Lemma to_index_PetscInt z : to_index cfg (to_PetscInt cfg z) = to_index cfg z.
Proof.
  pose proof index_modulus_pos as Hm.
  unfold to_index, to_PetscInt. cbv zeta.
  destruct (_ <? _).
  - apply Z.mod_mod. lia.
  - rewrite Zminus_mod, Z.mod_same, Z.sub_0_r by lia.
    rewrite !Z.mod_mod by lia. reflexivity.
Qed.

(** ** The ghost map *)

Lemma fill_ghost_map_notin ghost c m g :
  g ∉ ghost -> fill_ghost_map cfg ghost c m !! g = m !! g.
Proof.
  revert c m. induction ghost as [|g0 rest IH]; intros c m Hg; simpl.
  - reflexivity.
  - apply not_elem_of_cons in Hg as [Hne Hg].
    rewrite IH by assumption. apply lookup_insert_ne. congruence.
Qed.

Lemma fill_ghost_map_in ghost c m g :
  g ∈ ghost -> is_Some (fill_ghost_map cfg ghost c m !! g).
Proof.
  revert c m. induction ghost as [|g0 rest IH]; intros c m Hg; simpl.
  - apply elem_of_nil in Hg as [].
  - destruct (decide (g ∈ rest)) as [Hin | Hnot].
    + apply IH, Hin.
    + apply elem_of_cons in Hg as [-> | Hin]; [|contradiction].
      rewrite fill_ghost_map_notin, lookup_insert_eq by assumption. eauto.
Qed.

Lemma last_occurrence_head g rest :
  last_occurrence (g :: rest) g 0 -> g ∉ rest.
Proof.
  intros [_ Hlast] Hin. apply list_elem_of_lookup in Hin as [j Hj].
  apply (Hlast (S j)); [lia | exact Hj].
Qed.

Lemma last_occurrence_tail g0 rest g k :
  last_occurrence (g0 :: rest) g (S k) -> last_occurrence rest g k.
Proof.
  intros [Hk Hlast]. split; [exact Hk|].
  intros j Hj. apply (Hlast (S j)). lia.
Qed.

Lemma fill_ghost_map_last ghost c m g k :
  0 <= c -> c + Z.of_nat (length ghost) <= index_modulus cfg ->
  last_occurrence ghost g k ->
  fill_ghost_map cfg ghost c m !! g = Some (c + Z.of_nat k).
Proof.
  revert c m k. induction ghost as [|g0 rest IH]; intros c m k Hc Hlen Hlast.
  - destruct Hlast as [Hk _]. discriminate Hk.
  - simpl. destruct k as [|k].
    + assert (g0 = g) as -> by (destruct Hlast as [[= ->] _]; reflexivity).
      apply last_occurrence_head in Hlast.
      rewrite fill_ghost_map_notin, lookup_insert_eq by assumption.
      f_equal. lia.
    + apply last_occurrence_tail in Hlast.
      assert (Hrest : (0 < length rest)%nat).
      { destruct Hlast as [Hk _]. apply lookup_lt_Some in Hk. lia. }
      simpl length in Hlen.
      rewrite to_index_small by lia.
      rewrite (IH (c + 1) _ k) by (assumption || lia). f_equal. lia.
Qed.

Lemma ghost_map_keys (m : gmap Z Z) g :
  g ∈ unordered_map_keys cfg m <-> is_Some (m !! g).
Proof.
  rewrite (unordered_map_keys_visits_each_once cfg m).
  rewrite list_elem_of_fmap. split.
  - intros ([g' x] & -> & Hin). apply elem_of_map_to_list in Hin. eauto.
  - intros [x Hx]. exists (g, x). split; [reflexivity|].
    apply elem_of_map_to_list. exact Hx.
Qed.

Lemma unordered_map_keys_empty : unordered_map_keys cfg ∅ = [].
Proof.
  apply Permutation_nil_r.
  rewrite (unordered_map_keys_visits_each_once cfg ∅), map_to_list_empty.
  reflexivity.
Qed.

(** ** Index translation *)

Lemma ownership_range_Ok v log first last log1 :
  ownership_range cfg petsc v log = Ok (first, last, log1) ->
  _array_is_present v = false ->
  exists w, _vec v = Some w /\ first = to_index cfg (vec_rstart w) /\
            last = to_index cfg (vec_rstart w + vec_n w).
Proof.
  unfold ownership_range. intros H Hp. rewrite Hp in H.
  inv_bind H as w log2 Hd. exists w.
  destruct (_vec v) as [w0|]; [|discriminate Hd].
  apply ret_Ok in Hd as [= -> ->].
  inv_bind H as r log3 Hr. unfold petsc_VecGetOwnershipRange in Hr.
  inv_bind Hr as u log4 Hc. apply ret_Ok in Hr as [= -> ->].
  apply ret_Ok in H as [= -> -> ->]. auto.
Qed.

Lemma libmesh_assert_true log : libmesh_assert cfg true log = Ok ((), log).
Proof. unfold libmesh_assert. destruct (NDEBUG cfg); reflexivity. Qed.

Lemma map_global_to_local_index_owned v i log first last log1 :
  initialized v = true ->
  ownership_range cfg petsc v log = Ok (first, last, log1) ->
  first <= i < last ->
  map_global_to_local_index cfg petsc v i log = Ok (to_index cfg (i - first), log1).
Proof.
  intros Hi Hr Hin. unfold map_global_to_local_index. rewrite Hi.
  rewrite (bind_eq _ _ _ _ _ (libmesh_assert_true log)), (bind_eq _ _ _ _ _ Hr).
  destruct (Z.leb_spec first i), (Z.ltb_spec i last); try lia. reflexivity.
Qed.

Lemma map_global_to_local_index_ghost v i log first last log1 :
  initialized v = true ->
  ownership_range cfg petsc v log = Ok (first, last, log1) ->
  ~ (first <= i < last) ->
  map_global_to_local_index cfg petsc v i log =
    match _global_to_local_map v !! i with
    | Some second => Ok (to_index cfg (second + last - first), log1)
    | None =>
        Failed (if NDEBUG cfg then UndefinedBehaviour
              else LibmeshError
                     (no_index_message i first last
                        (unordered_map_keys cfg (_global_to_local_map v))))
    end.
Proof.
  intros Hi Hr Hout. unfold map_global_to_local_index. rewrite Hi.
  rewrite (bind_eq _ _ _ _ _ (libmesh_assert_true log)), (bind_eq _ _ _ _ _ Hr).
  destruct (Z.leb_spec first i), (Z.ltb_spec i last); try lia; simpl;
    destruct (_global_to_local_map v !! i); try reflexivity;
    destruct (NDEBUG cfg); reflexivity.
Qed.

End Properties.

(** * Concrete runs *)

(** ** Inputs on which the claims as first stated throw *)

(** C1, as stated, fails: after [init (10, 10)] on a fresh vector the
    life-cycle state is Closed, not Open. *)
Lemma init_enters_open_counterexample :
  exists v log,
    init debug32 petsc_rank0 10 10 false AUTOMATIC fresh [] = Ok (v, log) /\
    lifecycle v = Closed /\ lifecycle v <> Open.
Proof.
  eexists _, _. split; [vm_compute; reflexivity|].
  split; [reflexivity | discriminate].
Qed.

(** C2, as stated, fails: with the ghost list [{7, 7}] and two owned
    entries, 7 is the entry of position 0, yet its local index is
    [2 + 1], not [2 + 0].  It also fails where the bounds in use are not
    the vector's own: after a [swap] the object that took over the
    ghosted vector of [ghosted_run] (two owned entries, 7 last listed at
    position 2) while its raw array was present translates 7 with its
    own old bounds [[0, 0)], to 2 instead of [2 + 2]. *)
Lemma ghost_position_counterexample :
  (exists v log log',
    init_ghosted debug32 petsc_rank0 10 2 [7; 7] false AUTOMATIC fresh []
      = Ok (v, log) /\
    [7; 7] !! 0%nat = Some 7 /\
    map_global_to_local_index debug32 petsc_rank0 v 7 log = Ok (3, log') /\
    3 <> 2 + Z.of_nat 0) /\
  (initialized (swap fresh viewed_vector).1 = true /\
   _vec (swap fresh viewed_vector).1 = Some ghosted_w /\
   vec_n ghosted_w = 2 /\
   vec_ghosts ghosted_w = Some [7; 8; 7] /\
   [7; 8; 7] !! 2%nat = Some 7 /\
   map_global_to_local_index debug32 petsc_rank0 (swap fresh viewed_vector).1 7 []
     = Ok (2, []) /\
   2 <> 2 + Z.of_nat 2).
Proof.
  split.
  - eexists _, _, _. split; [vm_compute; reflexivity|].
    split; [reflexivity|]. split; [vm_compute; reflexivity | discriminate].
  - repeat split; try (vm_compute; reflexivity). discriminate.
Qed.

(** C7, as stated, fails.  With the ghost list [{7, 7, 7}] and two owned
    entries, 7 stands at the positions 0 and 1, yet the entry of the
    ghost map is that of position 2 and the local index is [2 + 2], not
    [2 + 1].  With the ghost list [{1, 1}], 1 stands at the positions 0
    and 1, yet, being an owned index, it is translated to [1 - 0], not
    to [2 + 1]. *)
Lemma duplicate_ghost_index_counterexample :
  (exists v log log',
    init_ghosted debug32 petsc_rank0 10 2 [7; 7; 7] false AUTOMATIC fresh []
      = Ok (v, log) /\
    [7; 7; 7] !! 0%nat = Some 7 /\ [7; 7; 7] !! 1%nat = Some 7 /\ (0 < 1)%nat /\
    _global_to_local_map v !! 7 = Some 2 /\
    map_global_to_local_index debug32 petsc_rank0 v 7 log = Ok (4, log') /\
    4 <> 2 + Z.of_nat 1) /\
  (exists v log log',
    init_ghosted debug32 petsc_rank0 10 2 [1; 1] false AUTOMATIC fresh []
      = Ok (v, log) /\
    [1; 1] !! 0%nat = Some 1 /\ [1; 1] !! 1%nat = Some 1 /\ (0 < 1)%nat /\
    map_global_to_local_index debug32 petsc_rank0 v 1 log = Ok (1, log') /\
    1 <> 2 + Z.of_nat 1).
Proof.
  split.
  - eexists _, _, _. split; [vm_compute; reflexivity|].
    split; [reflexivity|]. split; [reflexivity|]. split; [lia|].
    split; [vm_compute; reflexivity|].
    split; [vm_compute; reflexivity | discriminate].
  - eexists _, _, _. split; [vm_compute; reflexivity|].
    split; [reflexivity|]. split; [reflexivity|]. split; [lia|].
    split; [vm_compute; reflexivity | discriminate].
Qed.

(** C3, as stated, fails: a default-constructed vector owns its storage;
    after one [swap] with a vector that wraps foreign storage, its flag
    says it does not. *)
Lemma ownership_flag_counterexample :
  _destroy_vec_on_exit fresh = true /\
  _destroy_vec_on_exit wrapping_vector = false /\
  _destroy_vec_on_exit (swap fresh wrapping_vector).1 = false /\
  _destroy_vec_on_exit (swap fresh wrapping_vector).1 <> _destroy_vec_on_exit fresh.
Proof. vm_compute. repeat split; discriminate. Qed.

(** ** The theorems at work on concrete runs *)

Lemma init_enters_closed_witness :
  exists v log,
    run_init debug32 petsc_rank0 (init_ghost 10 2 [7; 8; 7] false AUTOMATIC) fresh []
      = Ok (v, log) /\
    lifecycle v = Closed.
Proof.
  assert (H : run_init debug32 petsc_rank0
                (init_ghost 10 2 [7; 8; 7] false AUTOMATIC) fresh []
              = Ok (ghosted_vector, ghosted_log)) by (vm_compute; reflexivity).
  exists ghosted_vector, ghosted_log.
  split; [exact H | exact (init_enters_closed _ _ _ _ _ _ _ H)].
Defined.

Lemma last_occurrence_example : last_occurrence [7; 8; 7] 7 2.
Proof.
  split; [reflexivity|].
  intros [|[|[|j]]] Hj; simpl; try lia; discriminate.
Defined.

Lemma fresh_pristine : pristine_if_uninitialized fresh.
Proof. intros _. split; reflexivity. Defined.

Lemma ownership_flag_changes_only_by_swap_witness :
  exists p log,
    run debug32 petsc_rank0
      [on_this (m_init 10 10 false AUTOMATIC); on_other m_close;
       this_swap_other; on_this m_zero]
      (fresh, wrapping_vector) [] = Ok (p, log) /\
    flags (fresh, wrapping_vector) = (true, false) /\
    flags p = (false, true).
Proof.
  destruct (run debug32 petsc_rank0
              [on_this (m_init 10 10 false AUTOMATIC); on_other m_close;
               this_swap_other; on_this m_zero]
              (fresh, wrapping_vector) []) as [[p log]|e] eqn:E.
  - exists p, log. split; [reflexivity|]. split; [reflexivity|].
    exact (ownership_flag_changes_only_by_swap debug32 petsc_rank0 _ _ _ _ _ E).
  - vm_compute in E. discriminate E.
Defined.

Lemma viewed_local_form_in_place : local_form_in_place viewed_vector.
Proof. intros _ _. discriminate. Defined.

Lemma close_sequence_witness :
  exists v',
    close petsc_rank0 viewed_vector viewed_log =
      Ok (v', viewed_log ++
                [VecRestoreArrayRead ghosted_lf;
                 VecGhostRestoreLocalForm ghosted_w ghosted_lf;
                 VecAssemblyBegin ghosted_w; VecAssemblyEnd ghosted_w;
                 VecGhostUpdateBegin ghosted_w INSERT_VALUES SCATTER_FORWARD;
                 VecGhostUpdateEnd ghosted_w INSERT_VALUES SCATTER_FORWARD]) /\
    closed v' = true /\ _array_is_present v' = false /\
    (initialized viewed_vector = true -> lifecycle v' = Closed).
Proof.
  apply (close_sequence petsc_rank0 viewed_vector ghosted_w viewed_log);
    [reflexivity | exact viewed_local_form_in_place | reflexivity].
Defined.

Lemma init_storage_type_witness :
  exists v1 log1 v2 log2,
    init debug32 petsc_rank0 10 10 false AUTOMATIC fresh [] = Ok (v1, log1) /\
    type v1 = SERIAL /\
    init debug32 petsc_rank0 10 4 false AUTOMATIC fresh [] = Ok (v2, log2) /\
    type v2 = PARALLEL /\
    type ghosted_vector = GHOSTED.
Proof.
  destruct (init debug32 petsc_rank0 10 10 false AUTOMATIC fresh [])
    as [[v1 log1]|e1] eqn:E1; [|vm_compute in E1; discriminate E1].
  destruct (init debug32 petsc_rank0 10 4 false AUTOMATIC fresh [])
    as [[v2 log2]|e2] eqn:E2; [|vm_compute in E2; discriminate E2].
  exists v1, log1, v2, log2.
  pose proof (init_storage_type debug32 petsc_rank0) as (Hauto & Hghost & _).
  split; [reflexivity|]. split; [exact (Hauto _ _ _ _ _ _ _ E1)|].
  split; [reflexivity|]. split; [exact (Hauto _ _ _ _ _ _ _ E2)|].
  apply (Hghost 10 2 [7; 8; 7] false AUTOMATIC fresh [] ghosted_vector ghosted_log).
  vm_compute. reflexivity.
Defined.

Lemma zero_sequence_witness :
  exists v',
    zero debug32 petsc_rank0 viewed_vector viewed_log =
      Ok (v', viewed_log ++
                [VecRestoreArrayRead ghosted_lf;
                 VecGhostRestoreLocalForm ghosted_w ghosted_lf;
                 VecGhostGetLocalForm ghosted_w;
                 VecSet ghosted_lf scalar_zero;
                 VecGhostRestoreLocalForm ghosted_w ghosted_lf]) /\
    closed v' = closed viewed_vector /\ _array_is_present v' = false.
Proof.
  apply (zero_sequence debug32 petsc_rank0 viewed_vector ghosted_w viewed_log
           eq_refl viewed_local_form_in_place ltac:(discriminate) eq_refl).
  left. reflexivity.
Defined.

Lemma swap_frame_witness :
  _array_is_present (swap fresh viewed_vector).1 = true /\
  _vec (swap fresh viewed_vector).1 = Some ghosted_w /\
  (_first (swap fresh viewed_vector).1, _last (swap fresh viewed_vector).1,
   _local_size (swap fresh viewed_vector).1) = (0, 0, 99).
Proof.
  pose proof (swap_frame fresh viewed_vector) as H. cbv zeta in H.
  destruct H as (_ & _ & _ & _ & _ & _ & _ & _ & _ & _ & _ & _ & H).
  exact (H eq_refl).
Defined.

Lemma size_uninitialized_witness :
  size optimized32 petsc_rank0 fresh [] = Ok (0, []) /\
  size debug32 petsc_rank0 fresh [] = Failed AssertionFailed.
Proof.
  split.
  - exact (size_uninitialized optimized32 petsc_rank0 fresh [] eq_refl).
  - exact (size_uninitialized debug32 petsc_rank0 fresh [] eq_refl).
Defined.

(** After the swap of [swap_frame_witness], the object that now holds the
    ghosted vector (which owns the indices 0 and 1) still translates with
    its own old bounds [[0, 0)]: the owned index 1 is reported missing. *)
Example swap_leaves_stale_bounds :
  map_global_to_local_index debug32 petsc_rank0 (swap fresh viewed_vector).1 1 []
  = Failed (LibmeshError
            (no_index_message 1 0 0
               (unordered_map_keys debug32 (_global_to_local_map ghosted_vector)))).
Proof. vm_compute. reflexivity. Qed.

(** * Further properties of the class *)

Section MoreProperties.

Variable cfg : Config.
Variable petsc : Petsc.

(** ** What a computation adds to the log *)

Lemma appends_ret {A : Type} P (a : A) : appends P (mret a : M A).
Proof.
  intros log a' log' H. apply ret_Ok in H as [= -> ->].
  exists []. rewrite app_nil_r. auto.
Qed.

Lemma appends_throw {A : Type} P e : appends P (throw e : M A).
Proof. intros log a log' H. discriminate H. Qed.

Lemma appends_bind {A B : Type} P (m : M A) (f : A -> M B) :
  appends P m -> (forall a, appends P (f a)) -> appends P (m ≫= f).
Proof.
  intros Hm Hf log b log' H. inv_bind H as a log1 H1.
  apply Hm in H1 as (cs1 & -> & HP1). apply Hf in H as (cs2 & -> & HP2).
  exists (cs1 ++ cs2). rewrite app_assoc. split; [reflexivity|].
  apply Forall_app. auto.
Qed.

Lemma appends_call (P : PetscCall -> Prop) c : P c -> appends P (petsc_call petsc c).
Proof.
  intros HP log a log' H. apply petsc_call_Ok in H as [_ [= _ ->]].
  exists [c]. auto.
Qed.

Lemma destroyed_app log1 log2 :
  destroyed (log1 ++ log2) = destroyed log1 ++ destroyed log2.
Proof.
  induction log1 as [|c log1 IH]; [reflexivity|].
  destruct c; simpl; rewrite IH; reflexivity.
Qed.

Lemma destroyed_keeps_storage cs : Forall keeps_storage cs -> destroyed cs = [].
Proof.
  induction 1 as [|c cs Hc _ IH]; [reflexivity|].
  change (c :: cs) with ([c] ++ cs). rewrite destroyed_app, Hc, IH. reflexivity.
Qed.

Create HintDb walk.

(** Prove [appends keeps_storage] by walking through the code. *)
Ltac walk :=
  repeat first
    [ apply appends_ret
    | apply appends_throw
    | apply appends_call; repeat case_match; reflexivity
    | apply appends_bind; [|intros]
    | match goal with
      | |- appends _ (if ?b then _ else _) => destruct b
      | |- appends _ (match ?x with _ => _ end) => destruct x
      end
    | solve [auto with walk]
    | progress unfold libmesh_assert, libmesh_error_msg, deref, petsc_VecGetSize,
        petsc_VecGetLocalSize, petsc_VecGetOwnershipRange,
        petsc_VecGhostGetLocalForm ].

Lemma quiet_petsc_create c :
  keeps_storage c -> appends keeps_storage (petsc_create petsc c).
Proof.
  intros Hc log w log' H. apply petsc_create_Ok in H as [_ ->].
  exists [c]. auto.
Qed.

Lemma quiet__restore_array v : appends keeps_storage (_restore_array petsc v).
Proof. unfold _restore_array. walk. Qed.

Lemma quiet__get_array read_only v :
  appends keeps_storage (_get_array cfg petsc read_only v).
Proof. unfold _get_array. walk. Qed.

#[local] Hint Resolve quiet__restore_array quiet__get_array : walk.

Lemma quiet_zero v : appends keeps_storage (zero cfg petsc v).
Proof. unfold zero. walk. Qed.

Lemma quiet_close v : appends keeps_storage (close petsc v).
Proof. unfold close. walk. Qed.

Lemma quiet_ownership_range v : appends keeps_storage (ownership_range cfg petsc v).
Proof. unfold ownership_range. walk. Qed.

#[local] Hint Resolve quiet_zero quiet_close quiet_ownership_range : walk.

Lemma quiet_map_global_to_local_index v i :
  appends keeps_storage (map_global_to_local_index cfg petsc v i).
Proof. unfold map_global_to_local_index. walk. Qed.

#[local] Hint Resolve quiet_map_global_to_local_index : walk.

Lemma quiet_get_loop v index : appends keeps_storage (get_loop cfg petsc v index).
Proof.
  induction index as [|i rest IH]; simpl; walk.
Qed.

#[local] Hint Resolve quiet_get_loop : walk.

(** The member functions other than [init] and [clear] destroy nothing
    and leave the handle and the initialised flag alone. *)
Lemma call_keeps_storage m v log v' log' :
  lets_go m = false ->
  call cfg petsc m v log = Ok (v', log') ->
  _vec v' = _vec v /\ initialized v' = initialized v /\
  exists cs, log' = log ++ cs /\ Forall keeps_storage cs.
Proof.
  intros Hm H.
  assert (Hq : appends keeps_storage (call cfg petsc m v)).
  { destruct m; try discriminate Hm; simpl;
      unfold size, local_size, first_local_index, last_local_index,
        operator_call, get, get_array, get_array_read, restore_array, min, max;
      walk. }
  split; [|split; [|exact (Hq _ _ _ H)]].
  all: destruct m; try discriminate Hm; simpl in H.
  all: try (unfold close in H; inv_bind H as v1 log1 Hr;
            apply _restore_array_Ok in Hr as ->; inv_run; reflexivity).
  all: try (apply zero_Ok in H as ->; reflexivity).
  all: try (inv_bind H as r log1 Hq'; apply ret_Ok in H as [= -> ->];
            first [ reflexivity
                  | unfold operator_call in Hq'; inv_bind Hq' as v1 log2 Hg;
                    apply _get_array_Ok in Hg; inv_bind Hq' as li log3 Hm';
                    inv_bind Hq' as u log4 Ha; apply ret_Ok in Hq' as [= ->];
                    simpl; unfold initialized; tauto
                  | unfold get in Hq'; inv_bind Hq' as v1 log2 Hg;
                    apply _get_array_Ok in Hg; inv_bind Hq' as li log3 Hm';
                    apply ret_Ok in Hq' as [= ->]; simpl; unfold initialized; tauto
                  | unfold get_array in Hq'; inv_bind Hq' as v1 log2 Hg;
                    apply _get_array_Ok in Hg; apply ret_Ok in Hq' as [= ->];
                    simpl; unfold initialized; tauto
                  | unfold get_array_read in Hq'; inv_bind Hq' as v1 log2 Hg;
                    apply _get_array_Ok in Hg; apply ret_Ok in Hq' as [= ->];
                    simpl; unfold initialized; tauto ]).
  all: try (unfold restore_array in H; apply _restore_array_Ok in H as ->; reflexivity).
  all: try (unfold min in H; inv_bind H as v1 log1 Hr;
            apply _restore_array_Ok in Hr as ->; inv_run; reflexivity).
  all: try (unfold max in H; inv_bind H as v1 log1 Hr;
            apply _restore_array_Ok in Hr as ->; inv_run; reflexivity).
Qed.

(** ** Who destroys what *)

Lemma libmesh_assert_Ok b log u log' :
  libmesh_assert cfg b log = Ok (u, log') -> log' = log.
Proof.
  unfold libmesh_assert. destruct (NDEBUG cfg); [|destruct b];
    intros H; try discriminate H; apply ret_Ok in H as [= _ ->]; reflexivity.
Qed.

Lemma created_vec_id log c w :
  created_vec petsc log c = Some w -> vec_id w = length log.
Proof. destruct c; simpl; intros [= <-]; reflexivity. Qed.

Lemma clear_log v log v' log' :
  clear petsc v log = Ok (v', log') ->
  exists cs, Forall keeps_storage cs /\ log' = log ++ cs ++ destroy_step v.
Proof.
  unfold clear, destroy_step. intros H. inv_bind H as v1 log1 Hr.
  assert (Hq : exists cs, log1 = log ++ cs /\ Forall keeps_storage cs).
  { destruct (initialized v).
    - exact (quiet__restore_array _ _ _ _ Hr).
    - apply ret_Ok in Hr as [= _ ->]. exists []. rewrite app_nil_r. auto. }
  assert (Hv1 : initialized v1 = initialized v /\
                _destroy_vec_on_exit v1 = _destroy_vec_on_exit v /\ _vec v1 = _vec v).
  { destruct (initialized v) eqn:Hi.
    - apply _restore_array_Ok in Hr as ->. auto.
    - apply ret_Ok in Hr as [= -> _]. auto. }
  destruct Hq as (cs & -> & Hcs). destruct Hv1 as (Hi1 & Hf1 & Hw1).
  exists cs. split; [exact Hcs|].
  inv_bind H as v2 log2 Hd. apply ret_Ok in H as [= _ ->].
  rewrite Hi1, Hf1, Hw1 in Hd.
  destruct (initialized v && _destroy_vec_on_exit v).
  - inv_bind Hd as w log3 Hw. destruct (_vec v) as [w0|]; [|discriminate Hw].
    apply ret_Ok in Hw as [= -> ->]. inv_bind Hd as u log4 Hc.
    apply petsc_call_Ok in Hc as [_ [= _ ->]]. apply ret_Ok in Hd as [= _ ->].
    rewrite <- app_assoc. reflexivity.
  - apply ret_Ok in Hd as [= _ ->]. rewrite !app_nil_r. reflexivity.
Qed.

(** The tail the [init] overloads share: set the flags, then zero
    unless [fast]. *)
Lemma init_tail w v2 (fast : bool) log2 v' log' :
  (if fast
   then @mret M _ _
          (set_is_closed true (set_is_initialized true (set_vec (Some w) v2)))
   else zero cfg petsc
          (set_is_closed true (set_is_initialized true (set_vec (Some w) v2))))
    log2 = Ok (v', log') ->
  _vec v' = Some w /\ initialized v' = true /\
  exists cs, log' = log2 ++ cs /\ Forall keeps_storage cs.
Proof.
  destruct fast; intros H.
  - apply ret_Ok in H as [= -> ->]. repeat split. exists []. rewrite app_nil_r. auto.
  - pose proof (quiet_zero _ _ _ _ H) as Hq. apply zero_Ok in H as ->. auto.
Qed.

(** The head the [init] overloads share: [clear] if initialised. *)
Lemma init_head v log v1 log1 :
  (if initialized v then clear petsc v else @mret M _ _ v) log = Ok (v1, log1) ->
  exists cs, Forall keeps_storage cs /\ log1 = log ++ cs ++ destroy_step v.
Proof.
  unfold destroy_step. destruct (initialized v) eqn:Hi; intros H.
  - apply clear_log in H. unfold destroy_step in H. rewrite Hi in H. exact H.
  - apply ret_Ok in H as [= _ ->]. exists []. rewrite !app_nil_r. auto.
Qed.

(** The log of a successful [init]: what [clear] did, then the creation
    of the new vector, then calls that destroy nothing. *)
Lemma init_log n n_local fast ptype v log v' log' :
  init cfg petsc n n_local fast ptype v log = Ok (v', log') ->
  exists cs1 cs2 w,
    Forall keeps_storage cs1 /\ Forall keeps_storage cs2 /\ cs2 <> [] /\
    log' = (log ++ cs1 ++ destroy_step v) ++ cs2 /\
    _vec v' = Some w /\ vec_id w = length (log ++ cs1 ++ destroy_step v) /\
    initialized v' = true.
Proof.
  unfold init. intros H. inv_bind H as v1 log1 Hhead.
  apply init_head in Hhead as (cs1 & Hcs1 & ->).
  inv_bind H as u log2 Hassert. apply libmesh_assert_Ok in Hassert as ->.
  inv_bind H as w log3 Hcreate.
  assert (Hw : exists c cs, keeps_storage c /\ Forall keeps_storage cs /\
                 log3 = (log ++ cs1 ++ destroy_step v) ++ c :: cs /\
                 vec_id w = length (log ++ cs1 ++ destroy_step v)).
  { unfold type in Hcreate. simpl in Hcreate.
    destruct (match ptype with AUTOMATIC => _ | _ => ptype end);
      try (unfold libmesh_error_msg, throw in Hcreate; discriminate Hcreate).
    - inv_bind Hcreate as w1 log4 Hc. apply petsc_create_Ok in Hc as [Hid ->].
      apply created_vec_id in Hid.
      inv_bind Hcreate as u2 log5 Ho. apply petsc_call_Ok in Ho as [_ [= _ ->]].
      apply ret_Ok in Hcreate as [= -> ->].
      exists (VecCreateSeq (to_PetscInt cfg n)), [VecSetFromOptions w1].
      rewrite <- app_assoc.
      split; [reflexivity|]. split; [constructor; [reflexivity | constructor]|].
      split; [reflexivity | exact Hid].
    - inv_bind Hcreate as w1 log4 Hc.
      assert (Hc' : exists c, keeps_storage c /\
                      created_vec petsc (log ++ cs1 ++ destroy_step v) c = Some w1 /\
                      log4 = (log ++ cs1 ++ destroy_step v) ++ [c]).
      { destruct (LIBMESH_HAVE_MPI cfg); inv_bind Hc as u3 log6 Ha;
          apply libmesh_assert_Ok in Ha as ->;
          apply petsc_create_Ok in Hc as [Hid ->];
          (eexists; split; [|split; [exact Hid | reflexivity]]); reflexivity. }
      destruct Hc' as (c & Hkc & Hid & ->). apply created_vec_id in Hid.
      inv_bind Hcreate as u2 log5 Ho. apply petsc_call_Ok in Ho as [_ [= _ ->]].
      apply ret_Ok in Hcreate as [= -> ->].
      exists c, [VecSetFromOptions w1]. rewrite <- app_assoc.
      split; [exact Hkc|]. split; [constructor; [reflexivity | constructor]|].
      split; [reflexivity | exact Hid]. }
  destruct Hw as (c & cs & Hc & Hcs & -> & Hid).
  apply init_tail in H as (Hvec & Hinit & cs3 & -> & Hcs3).
  exists cs1, ((c :: cs) ++ cs3), w.
  split; [exact Hcs1|].
  split; [apply Forall_app; split; [constructor; assumption | assumption]|].
  split; [discriminate|].
  split; [rewrite <- !app_assoc; reflexivity|].
  auto.
Qed.

Lemma init_ghosted_log n n_local ghost fast ptype v log v' log' :
  init_ghosted cfg petsc n n_local ghost fast ptype v log = Ok (v', log') ->
  exists cs1 cs2 w,
    Forall keeps_storage cs1 /\ Forall keeps_storage cs2 /\ cs2 <> [] /\
    log' = (log ++ cs1 ++ destroy_step v) ++ cs2 /\
    _vec v' = Some w /\ vec_id w = length (log ++ cs1 ++ destroy_step v) /\
    initialized v' = true.
Proof.
  unfold init_ghosted. intros H. inv_bind H as v1 log1 Hhead.
  apply init_head in Hhead as (cs1 & Hcs1 & ->).
  inv_bind H as u log2 Hassert. apply libmesh_assert_Ok in Hassert as ->.
  inv_bind H as v2 log3 Hloop.
  destruct (index_modulus cfg <=? Z.of_nat (length ghost)); [discriminate Hloop|].
  apply ret_Ok in Hloop as [= -> ->].
  inv_bind H as w log4 Hc. apply petsc_create_Ok in Hc as [Hid ->].
  apply created_vec_id in Hid.
  inv_bind H as u2 log5 Ho. apply petsc_call_Ok in Ho as [_ [= _ ->]].
  apply init_tail in H as (Hvec & Hinit & cs3 & -> & Hcs3).
  exists cs1,
    (([VecCreateGhost (to_PetscInt cfg n_local) (to_PetscInt cfg n)
         (to_PetscInt cfg (Z.of_nat (length ghost))) (map (to_PetscInt cfg) ghost)]
      ++ [VecSetFromOptions w]) ++ cs3), w.
  split; [exact Hcs1|].
  split; [apply Forall_app; split;
          [constructor; [reflexivity | constructor; [reflexivity | constructor]]
          | assumption]|].
  split; [discriminate|].
  split; [rewrite <- !app_assoc; reflexivity|].
  auto.
Qed.

(** What a call that lets go of the vector adds to the log, and where
    the vector it leaves in the object was created. *)
Lemma lets_go_log m v log v' log' :
  lets_go m = true ->
  call cfg petsc m v log = Ok (v', log') ->
  exists cs1 cs2,
    Forall keeps_storage cs1 /\ Forall keeps_storage cs2 /\
    log' = (log ++ cs1 ++ destroy_step v) ++ cs2 /\
    (initialized v' = true -> forall w, _vec v' = Some w ->
     (length (log ++ cs1 ++ destroy_step v) <= vec_id w < length log')%nat).
Proof.
  intros Hm H.
  assert (Hinit : (exists cs1 cs2 w,
                     Forall keeps_storage cs1 /\ Forall keeps_storage cs2 /\
                     cs2 <> [] /\
                     log' = (log ++ cs1 ++ destroy_step v) ++ cs2 /\
                     _vec v' = Some w /\
                     vec_id w = length (log ++ cs1 ++ destroy_step v) /\
                     initialized v' = true) ->
                  exists cs1 cs2,
                    Forall keeps_storage cs1 /\ Forall keeps_storage cs2 /\
                    log' = (log ++ cs1 ++ destroy_step v) ++ cs2 /\
                    (initialized v' = true -> forall w, _vec v' = Some w ->
                     (length (log ++ cs1 ++ destroy_step v) <= vec_id w
                      < length log')%nat)).
  { intros (cs1 & cs2 & w & H1 & H2 & Hne & -> & Hw & Hid & _).
    exists cs1, cs2. split; [assumption|]. split; [assumption|].
    split; [reflexivity|].
    intros _ w0 Hw0. rewrite Hw in Hw0. injection Hw0 as <-.
    rewrite Hid, (length_app _ cs2). destruct cs2; [congruence | simpl; lia]. }
  destruct m; try discriminate Hm; simpl in H.
  - apply Hinit. eapply init_log. exact H.
  - apply Hinit. eapply init_log. exact H.
  - apply Hinit. eapply init_ghosted_log. exact H.
  - pose proof (clear_Ok _ _ _ _ _ H) as (Hi & _).
    apply clear_log in H as (cs & Hcs & ->).
    exists cs, []. rewrite app_nil_r.
    split; [assumption|]. split; [constructor|]. split; [reflexivity|].
    intros Hi'. congruence.
Qed.

Lemma call_destroyed m v log v' log' :
  call cfg petsc m v log = Ok (v', log') ->
  destroyed log' =
    destroyed log ++ (if lets_go m then destroyed (destroy_step v) else []).
Proof.
  intros H. destruct (lets_go m) eqn:Hm.
  - apply lets_go_log in H as (cs1 & cs2 & H1 & H2 & -> & _); [|exact Hm].
    rewrite !destroyed_app, (destroyed_keeps_storage cs1),
      (destroyed_keeps_storage cs2), app_nil_r by assumption.
    reflexivity.
  - apply call_keeps_storage in H as (_ & _ & cs & -> & Hcs); [|exact Hm].
    rewrite destroyed_app, (destroyed_keeps_storage cs) by assumption. reflexivity.
Qed.

(** X1: [clear ()] (and so the destructor) hands the object's vector to
    [LibMeshVecDestroy] exactly when the object is initialised and owns
    it, destroys nothing else, and always leaves the object
    uninitialised, not closed, with an empty ghost map; a vector the
    object merely wraps stays in place. *)
Theorem clear_destroys_iff_owning v w log v' log' :
  _vec v = Some w ->
  PetscVector_dtor petsc v log = Ok (v', log') ->
  destroyed log' =
    destroyed log ++ (if initialized v && _destroy_vec_on_exit v then [w] else []) /\
  lifecycle v' = Uninitialized /\ closed v' = false /\
  _global_to_local_map v' = ∅ /\
  (_destroy_vec_on_exit v = false -> _vec v' = Some w).
Proof.
  unfold PetscVector_dtor. intros Hw H.
  pose proof (clear_log _ _ _ _ H) as (cs & Hcs & Hd).
  split.
  { rewrite Hd, !destroyed_app, (destroyed_keeps_storage cs) by exact Hcs.
    unfold destroy_step. rewrite Hw.
    destruct (initialized v && _destroy_vec_on_exit v); reflexivity. }
  pose proof (clear_Ok _ _ _ _ _ H) as (Hi & Hc & Hm & _).
  split; [unfold lifecycle; rewrite Hi; reflexivity|].
  split; [exact Hc|]. split; [exact Hm|].
  intros Hf. unfold clear in H. inv_bind H as v1 log1 Hr.
  assert (Hv1 : _vec v1 = Some w /\ _destroy_vec_on_exit v1 = false).
  { destruct (initialized v).
    - apply _restore_array_Ok in Hr as ->. auto.
    - apply ret_Ok in Hr as [= -> _]. auto. }
  destruct Hv1 as [Hw1 Hf1]. rewrite Hf1, andb_false_r in H.
  inv_bind H as v2 log2 Hd2. apply ret_Ok in Hd2 as [= -> _].
  apply ret_Ok in H as [= -> _]. exact Hw1.
Qed.

Lemma calls_keep_flag ms v log v' log' :
  calls cfg petsc ms v log = Ok (v', log') ->
  _destroy_vec_on_exit v' = _destroy_vec_on_exit v.
Proof.
  revert v log. induction ms as [|m ms IH]; intros v log H; simpl in H.
  - apply ret_Ok in H as [= -> _]. reflexivity.
  - inv_bind H as v1 log1 Hc. apply call_keeps_flag in Hc. apply IH in H.
    congruence.
Qed.

(** X2: an object whose ownership flag is false never calls
    [LibMeshVecDestroy], whatever member functions are called on it and
    in whatever order: neither the vector it wraps nor a vector it
    creates itself in a later [init] is ever destroyed by it. *)
Theorem non_owner_never_destroys ms v log v' log' :
  _destroy_vec_on_exit v = false ->
  calls cfg petsc ms v log = Ok (v', log') ->
  destroyed log' = destroyed log.
Proof.
  revert v log. induction ms as [|m ms IH]; intros v log Hf H; simpl in H.
  - apply ret_Ok in H as [= _ ->]. reflexivity.
  - inv_bind H as v1 log1 Hc.
    pose proof (call_keeps_flag _ _ _ _ _ _ _ Hc) as Hf1.
    apply call_destroyed in Hc. apply IH in H; [|congruence].
    rewrite H, Hc. unfold destroy_step. rewrite Hf, andb_false_r.
    destruct (lets_go m); apply app_nil_r.
Qed.

Lemma storage_live_step m v log v' log' :
  storage_live v log ->
  call cfg petsc m v log = Ok (v', log') ->
  storage_live v' log'.
Proof.
  intros (Hnd & Hlt & Hcur) H.
  pose proof (call_destroyed _ _ _ _ _ H) as Hd.
  destruct (lets_go m) eqn:Hm.
  - apply lets_go_log in H as (cs1 & cs2 & _ & _ & Hlog & Hnew); [|exact Hm].
    assert (Hlen : (length log <= length (log ++ cs1 ++ destroy_step v))%nat)
      by (rewrite length_app; lia).
    assert (Hlen' : (length (log ++ cs1 ++ destroy_step v) <= length log')%nat)
      by (rewrite Hlog, (length_app _ cs2); lia).
    assert (Hds : destroyed (destroy_step v) = [] \/
                  exists w, destroyed (destroy_step v) = [w] /\
                            initialized v = true /\ _vec v = Some w).
    { unfold destroy_step. destruct (initialized v) eqn:Hi; [|auto].
      destruct (_destroy_vec_on_exit v); [|auto].
      destruct (_vec v) as [w|]; [|auto]. right. exists w. auto. }
    unfold storage_live. rewrite Hd.
    destruct Hds as [-> | (w & -> & Hi & Hw)].
    + rewrite app_nil_r. split; [exact Hnd|]. split.
      * intros i Hin. apply Hlt in Hin. lia.
      * intros Hi' w' Hw'. specialize (Hnew Hi' w' Hw').
        split; [lia|]. intros Hin. apply Hlt in Hin. lia.
    + destruct (Hcur Hi w Hw) as [Hwlt Hwnot].
      rewrite fmap_app. simpl. split; [|split].
      * apply NoDup_app. split; [exact Hnd|]. split.
        -- intros i Hin Hin'. apply list_elem_of_singleton in Hin' as ->.
           contradiction.
        -- apply NoDup_singleton.
      * intros i Hin. apply elem_of_app in Hin as [Hin | Hin].
        -- apply Hlt in Hin. lia.
        -- apply list_elem_of_singleton in Hin as ->. lia.
      * intros Hi' w' Hw'. specialize (Hnew Hi' w' Hw').
        split; [lia|]. intros Hin. apply elem_of_app in Hin as [Hin | Hin].
        -- apply Hlt in Hin. lia.
        -- apply list_elem_of_singleton in Hin. lia.
  - apply call_keeps_storage in H as (Hw & Hi & cs & -> & _); [|exact Hm].
    unfold storage_live. rewrite Hd, app_nil_r, length_app.
    split; [exact Hnd|]. split.
    + intros i Hin. apply Hlt in Hin. lia.
    + rewrite Hw, Hi. intros Hi' w' Hw'. destruct (Hcur Hi' w' Hw'). split; [lia|].
      assumption.
Qed.

(** X3: no double free.  Starting from an object whose vector, if any,
    is still alive (as after any constructor but the wrapping one), any
    sequence of member-function calls that runs to its end has handed
    pairwise distinct vectors to [LibMeshVecDestroy], and the vector the
    object holds at the end has not been destroyed. *)
Theorem never_destroys_twice ms v log v' log' :
  storage_live v log ->
  calls cfg petsc ms v log = Ok (v', log') ->
  NoDup (destroyed log') /\ storage_live v' log'.
Proof.
  intros Hlive H.
  assert (Hlive' : storage_live v' log').
  { revert v log Hlive H. induction ms as [|m ms IH]; intros v log Hlive H;
      simpl in H.
    - apply ret_Ok in H as [= -> ->]. exact Hlive.
    - inv_bind H as v1 log1 Hc. eapply IH; [|exact H].
      eapply storage_live_step; eassumption. }
  split; [|exact Hlive'].
  destruct Hlive' as (Hnd & _). eapply NoDup_fmap_1. exact Hnd.
Qed.

(** ** Repeating [clear] and [close] *)

(** Split an accepted sequence of calls and run them in the goal. *)
Ltac accept_calls H :=
  cbn [petsc_accepts app] in H;
  repeat (let He := fresh "He" in apply andb_prop in H as [He H]);
  unfold petsc_VecGhostGetLocalForm, petsc_VecGetSize, petsc_VecGetLocalSize,
    petsc_VecGetOwnershipRange, deref, petsc_call, mbind, M_bind, mret, M_ret;
  repeat (cbv beta iota;
          match goal with
          | He : (_ =? 0) = true |- _ => rewrite He; clear He
          end);
  cbv beta iota.

(** X4: [clear ()] is idempotent, and on an object that is not
    initialised it cannot fail: after a successful [clear], another
    [clear] makes no PETSc call and leaves the object exactly as it is. *)
Theorem clear_twice v log v1 log1 log2 :
  clear petsc v log = Ok (v1, log1) ->
  clear petsc v1 log2 = Ok (v1, log2).
Proof.
  intros H. apply clear_Ok in H as (Hi & Hc & Hm & _).
  unfold clear. rewrite Hi. simpl.
  unfold mbind, M_bind, mret, M_ret.
  destruct v1. unfold initialized, closed in *. simpl in *. subst. reflexivity.
Qed.

Lemma close_Ok v log v' log' :
  close petsc v log = Ok (v', log') ->
  v' = set_is_closed true (set_array_is_present false v) /\
  exists w, _vec v = Some w.
Proof.
  unfold close. intros H. inv_bind H as v1 log1 Hr.
  apply _restore_array_Ok in Hr as ->.
  inv_bind H as w log2 Hw. simpl in Hw.
  destruct (_vec v) as [w0|]; [|discriminate Hw].
  inv_bind H as u1 log3 H1. inv_bind H as u2 log4 H2. inv_bind H as u3 log5 H3.
  apply ret_Ok in H as [= -> _]. eauto.
Qed.

(** X5: [close ()] is idempotent on the object: closing a vector that a
    [close ()] has just left runs the assembly (and, for a GHOSTED
    vector, the ghost update) once more, has no array to release, and
    leaves the object exactly as it is. *)
Theorem close_twice v log v1 log1 :
  close petsc v log = Ok (v1, log1) ->
  exists w, _vec v1 = Some w /\
    forall log2,
      let calls :=
        [VecAssemblyBegin w; VecAssemblyEnd w] ++
        (if ParallelType_eqb (type v1) GHOSTED
         then [VecGhostUpdateBegin w INSERT_VALUES SCATTER_FORWARD;
               VecGhostUpdateEnd w INSERT_VALUES SCATTER_FORWARD]
         else []) in
      petsc_accepts petsc log2 calls = true ->
      close petsc v1 log2 = Ok (v1, log2 ++ calls).
Proof.
  intros H. apply close_Ok in H as (-> & w & Hw). exists w. split; [exact Hw|].
  intros log2 calls Hacc. subst calls.
  unfold close, _restore_array. simpl _array_is_present. cbv iota.
  rewrite (bind_eq _ _ log2 _ log2 eq_refl).
  simpl _vec. rewrite Hw.
  change (type (set_is_closed true (set_array_is_present false v))) with (type v) in *.
  assert (Heta : set_is_closed true (set_is_closed true (set_array_is_present false v))
                 = set_is_closed true (set_array_is_present false v)) by reflexivity.
  rewrite Heta.
  destruct (ParallelType_eqb (type v) GHOSTED); accept_calls Hacc;
    repeat rewrite <- app_assoc; reflexivity.
Qed.

(** ** Sizes after [init] *)

Lemma libmesh_assert_holds b log u log' :
  libmesh_assert cfg b log = Ok (u, log') -> NDEBUG cfg = false -> b = true.
Proof.
  unfold libmesh_assert. intros H Hn. rewrite Hn in H.
  destruct b; [reflexivity | discriminate H].
Qed.

(** The layout of the vector a plain [init] creates. *)
Lemma init_layout n n_local fast ptype v log v' log' :
  init cfg petsc n n_local fast ptype v log = Ok (v', log') ->
  exists w, _vec v' = Some w /\ vec_N w = to_PetscInt cfg n /\
    vec_n w = (if ParallelType_eqb (type v') PARALLEL && LIBMESH_HAVE_MPI cfg
               then to_PetscInt cfg n_local else to_PetscInt cfg n) /\
    (NDEBUG cfg = false ->
     ParallelType_eqb (type v') PARALLEL && LIBMESH_HAVE_MPI cfg = false ->
     n = n_local).
Proof.
  unfold init. intros H. inv_bind H as v1 log1 Hhead. clear Hhead.
  inv_bind H as u log2 Hassert. inv_bind H as w log3 Hcreate.
  remember (match ptype with AUTOMATIC => _ | _ => ptype end) as t eqn:Et.
  unfold type in Hassert, Hcreate. simpl in Hassert, Hcreate.
  assert (Hw : vec_N w = to_PetscInt cfg n /\
               vec_n w = (if ParallelType_eqb t PARALLEL && LIBMESH_HAVE_MPI cfg
                          then to_PetscInt cfg n_local else to_PetscInt cfg n) /\
               (NDEBUG cfg = false ->
                ParallelType_eqb t PARALLEL && LIBMESH_HAVE_MPI cfg = false ->
                n = n_local)).
  { destruct t; try (unfold libmesh_error_msg, throw in Hcreate; discriminate Hcreate).
    - inv_bind Hcreate as w1 log4 Hc. apply petsc_create_Ok in Hc as [Hid _].
      simpl in Hid. injection Hid as <-.
      inv_bind Hcreate as u2 log5 Ho. apply ret_Ok in Hcreate as [= -> _].
      simpl. repeat split. intros Hn _.
      apply libmesh_assert_holds in Hassert; [|exact Hn]. simpl in Hassert.
      rewrite orb_false_r in Hassert. apply Z.eqb_eq. exact Hassert.
    - inv_bind Hcreate as w1 log4 Hc.
      inv_bind Hcreate as u2 log5 Ho. apply ret_Ok in Hcreate as [= <- _].
      simpl. destruct (LIBMESH_HAVE_MPI cfg).
      + inv_bind Hc as u3 log6 Ha. apply petsc_create_Ok in Hc as [Hid _].
        simpl in Hid. injection Hid as <-. simpl. repeat split. discriminate.
      + inv_bind Hc as u3 log6 Ha. apply petsc_create_Ok in Hc as [Hid _].
        simpl in Hid. injection Hid as <-. simpl. repeat split. intros Hn _.
        apply libmesh_assert_holds in Ha; [|exact Hn].
        apply Z.eqb_eq in Ha. congruence. }
  assert (Hv : _vec v' = Some w /\ type v' = t).
  { destruct fast.
    - apply ret_Ok in H as [= -> _]. auto.
    - apply zero_Ok in H as ->. auto. }
  destruct Hv as [Hv ->]. exists w. tauto.
Qed.

Lemma fits_is_index z : fits cfg z -> is_index cfg z.
Proof.
  unfold fits, is_index. intros Hz.
  pose proof (index_modulus_pos cfg) as Hm.
  assert (Hhalf : index_modulus cfg / 2 <= index_modulus cfg)
    by (apply Z.div_le_upper_bound; lia).
  lia.
Qed.

(** X6: after a successful [init (N, n_local, fast, type)], with [N]
    and [n_local] values that both the index type and [PetscInt]
    represent, [size ()] returns [N], and
    [local_size ()] returns [n_local] for a PARALLEL vector built with MPI
    and [N] for a vector built sequentially; in a debug build the
    assertions of [init] make the latter equal to [n_local] too. *)
Theorem init_then_sizes n n_local fast ptype v log v' log' :
  init cfg petsc n n_local fast ptype v log = Ok (v', log') ->
  fits cfg n -> fits cfg n_local ->
  exists w, _vec v' = Some w /\
    let expected :=
      if ParallelType_eqb (type v') PARALLEL && LIBMESH_HAVE_MPI cfg
      then n_local else n in
    (forall log2, petsc_accepts petsc log2 [VecGetSize w] = true ->
       size cfg petsc v' log2 = Ok (n, log2 ++ [VecGetSize w])) /\
    (forall log2, petsc_accepts petsc log2 [VecGetLocalSize w] = true ->
       local_size cfg petsc v' log2 = Ok (expected, log2 ++ [VecGetLocalSize w])) /\
    (NDEBUG cfg = false -> expected = n_local).
Proof.
  intros H Hn Hnl.
  apply fits_is_index in Hn, Hnl.
  pose proof (init_Ok _ _ _ _ _ _ _ _ _ _ H) as (Hi & _).
  apply init_layout in H as (w & Hw & HN & Hnloc & Hdbg).
  exists w. split; [exact Hw|]. cbv zeta. split; [|split].
  - intros log2 Hacc. unfold size. rewrite Hi, Hw. simpl negb. cbv iota.
    rewrite (bind_eq _ _ _ _ _ (libmesh_assert_true cfg log2)).
    accept_calls Hacc. rewrite HN, to_index_PetscInt, to_index_small by exact Hn.
    reflexivity.
  - intros log2 Hacc. unfold local_size. rewrite Hi, Hw.
    rewrite (bind_eq _ _ _ _ _ (libmesh_assert_true cfg log2)).
    accept_calls Hacc. rewrite Hnloc.
    destruct (ParallelType_eqb (type v') PARALLEL && LIBMESH_HAVE_MPI cfg);
      rewrite to_index_PetscInt, to_index_small by assumption; reflexivity.
  - intros Hd.
    destruct (ParallelType_eqb (type v') PARALLEL && LIBMESH_HAVE_MPI cfg) eqn:Hp;
      [reflexivity|]. apply Hdbg; [exact Hd | reflexivity].
Qed.

(** X7: the size and type arguments of the plain [init] are checked by
    assertions only.  On an uninitialised object a debug build fails the
    assertion, before any PETSc call, for a SERIAL request with
    [n_local <> N] and for a PARALLEL or AUTOMATIC request with
    [n_local > N]; an optimised build accepts the SERIAL request and
    builds a sequential vector of [N] entries, ignoring [n_local]. *)
Theorem init_size_checks n n_local v log :
  initialized v = false ->
  (NDEBUG cfg = false -> n <> n_local -> forall fast,
     init cfg petsc n n_local fast SERIAL v log = Failed AssertionFailed) /\
  (NDEBUG cfg = false -> n < n_local -> forall fast,
     init cfg petsc n n_local fast PARALLEL v log = Failed AssertionFailed /\
     init cfg petsc n n_local fast AUTOMATIC v log = Failed AssertionFailed) /\
  (NDEBUG cfg = true ->
   let w := {| vec_id := length log; vec_type := VECSEQ;
               vec_N := to_PetscInt cfg n; vec_rstart := 0;
               vec_n := to_PetscInt cfg n; vec_ghosts := None |} in
   let calls := [VecCreateSeq (to_PetscInt cfg n); VecSetFromOptions w] in
   petsc_accepts petsc log calls = true ->
   exists v', init cfg petsc n n_local true SERIAL v log = Ok (v', log ++ calls) /\
              _vec v' = Some w /\ type v' = SERIAL /\ lifecycle v' = Closed).
Proof.
  intros Hi. split; [|split].
  - intros Hd Hne fast. unfold init. rewrite Hi.
    rewrite (bind_eq _ _ log v log eq_refl).
    unfold type, libmesh_assert. simpl. rewrite Hd.
    destruct (Z.eqb_spec n n_local); [contradiction | reflexivity].
  - intros Hd Hlt fast. unfold init. rewrite Hi.
    rewrite !(bind_eq _ _ log v log eq_refl).
    unfold type, libmesh_assert. simpl. rewrite Hd.
    destruct (Z.eqb_spec n n_local); [lia|]. simpl.
    unfold mbind, M_bind, mret, M_ret, throw.
    destruct (LIBMESH_HAVE_MPI cfg).
    + destruct (Z.leb_spec n_local n); [lia|]. auto.
    + destruct (Z.eqb_spec n_local n); [lia|]. auto.
  - intros Hn. cbv zeta. intros Hacc.
    eexists (set_is_closed true (set_is_initialized true
               (set_vec (Some _) (set_type SERIAL v)))).
    split; [|repeat split].
    unfold init. rewrite Hi. rewrite (bind_eq _ _ log v log eq_refl).
    unfold type, libmesh_assert, petsc_create. simpl. rewrite Hn.
    accept_calls Hacc. rewrite <- app_assoc. reflexivity.
Qed.

(** ** Translation against PETSc's local-to-global mapping *)

Lemma to_PetscInt_fits z : fits cfg z -> to_PetscInt cfg z = z.
Proof.
  unfold fits, to_PetscInt. intros Hz. cbv zeta.
  pose proof (index_modulus_pos cfg) as Hm.
  assert (Hhalf : index_modulus cfg / 2 <= index_modulus cfg)
    by (apply Z.div_le_upper_bound; lia).
  rewrite Z.mod_small by lia.
  destruct (Z.ltb_spec z (index_modulus cfg / 2)); [reflexivity | lia].
Qed.

(** Every entry of the filled map comes from the list or was there
    before. *)
Lemma fill_ghost_map_sound ghost c m g s :
  0 <= c -> c + Z.of_nat (length ghost) <= index_modulus cfg ->
  fill_ghost_map cfg ghost c m !! g = Some s ->
  (exists k, s = c + Z.of_nat k /\ ghost !! k = Some g) \/ m !! g = Some s.
Proof.
  revert c m. induction ghost as [|g0 rest IH]; intros c m Hc Hlen H; simpl in H.
  - right. exact H.
  - simpl length in Hlen.
    assert (Hins : (<[g0:=c]> m) !! g = Some s ->
                   (exists k, s = c + Z.of_nat k /\ (g0 :: rest) !! k = Some g)
                   \/ m !! g = Some s).
    { intros Hl. destruct (decide (g0 = g)) as [-> | Hne].
      - rewrite lookup_insert_eq in Hl. injection Hl as <-.
        left. exists 0%nat. split; [lia | reflexivity].
      - rewrite lookup_insert_ne in Hl by assumption. right. exact Hl. }
    destruct rest as [|g1 rest'].
    + simpl in H. apply Hins, H.
    + simpl length in Hlen. rewrite to_index_small in H by lia.
      apply IH in H; [|lia|simpl length; lia].
      destruct H as [(k & -> & Hk) | Hl]; [|apply Hins, Hl].
      left. exists (S k). split; [lia | exact Hk].
Qed.

Lemma init_ghosted_layout n n_local ghost fast ptype v log v' log' :
  init_ghosted cfg petsc n n_local ghost fast ptype v log = Ok (v', log') ->
  exists w, _vec v' = Some w /\ vec_n w = to_PetscInt cfg n_local /\
    vec_N w = to_PetscInt cfg n /\ vec_type w = VECMPI /\
    vec_ghosts w = Some (map (to_PetscInt cfg) ghost).
Proof.
  unfold init_ghosted. intros H. inv_bind H as v1 log1 Hhead. clear Hhead.
  inv_bind H as u log2 Hassert. inv_bind H as v2 log3 Hloop.
  inv_bind H as w log4 Hc. apply petsc_create_Ok in Hc as [Hid _].
  simpl in Hid. injection Hid as <-.
  inv_bind H as u2 log5 Ho.
  destruct fast.
  - apply ret_Ok in H as [= -> _]. simpl. eauto 10.
  - apply zero_Ok in H as ->. simpl. eauto 10.
Qed.

Lemma map_global_to_local_index_Ok v i log l log' :
  map_global_to_local_index cfg petsc v i log = Ok (l, log') ->
  exists first last,
    ownership_range cfg petsc v log = Ok (first, last, log') /\
    ((first <= i < last /\ l = to_index cfg (i - first)) \/
     (~ (first <= i < last) /\
      exists s, _global_to_local_map v !! i = Some s /\
                l = to_index cfg (s + last - first))).
Proof.
  unfold map_global_to_local_index. intros H.
  inv_bind H as u log1 Ha. apply libmesh_assert_Ok in Ha as ->.
  inv_bind H as r log2 Hr. destruct r as [first last]. exists first, last.
  destruct (Z.leb_spec first i), (Z.ltb_spec i last); simpl in H.
  1: { apply ret_Ok in H as [= -> ->]. split; [exact Hr|]. left. split; [lia|reflexivity]. }
  all: destruct (_global_to_local_map v !! i) as [s|] eqn:Hs;
    [apply ret_Ok in H as [= -> ->]; split; [exact Hr|]; right;
     split; [lia | eauto]
    | destruct (NDEBUG cfg); discriminate H].
Qed.

(** X8: index translation undoes PETSc's local-to-global mapping.  On
    a vector set up by the ghosted [init] (sizes and ghost indices in
    the range both integer types share), whenever
    [map_global_to_local_index (i)] returns [l], the position [l] lies
    inside the local form and the local-to-global mapping of the PETSc
    vector has [i] at position [l]; so two indices that translate to the
    same position are equal. *)
Theorem translation_inverts_mapping n n_local ghost fast ptype v0 log0 v log w
    mapping :
  pristine_if_uninitialized v0 ->
  init_ghosted cfg petsc n n_local ghost fast ptype v0 log0 = Ok (v, log) ->
  _vec v = Some w -> vec_mapping w = Some mapping ->
  fits cfg n_local -> Forall (fits cfg) ghost ->
  0 <= vec_rstart w ->
  vec_rstart w + n_local + Z.of_nat (length ghost) < index_modulus cfg ->
  (forall i log2 l log3,
      map_global_to_local_index cfg petsc v i log2 = Ok (l, log3) ->
      0 <= l < n_local + Z.of_nat (length ghost) /\
      mapping !! Z.to_nat l = Some i) /\
  (forall i j log2 l log3 log4 log5,
      map_global_to_local_index cfg petsc v i log2 = Ok (l, log3) ->
      map_global_to_local_index cfg petsc v j log4 = Ok (l, log5) ->
      i = j).
Proof.
  intros Hpristine Hinit Hw Hmapping Hnl Hghost Hr0 Hbound.
  assert (Hround : forall i log2 l log3,
             map_global_to_local_index cfg petsc v i log2 = Ok (l, log3) ->
             0 <= l < n_local + Z.of_nat (length ghost) /\
             mapping !! Z.to_nat l = Some i).
  { intros i log2 l log3 H.
    pose proof (init_ghosted_Ok _ _ _ _ _ _ _ _ _ _ _ Hinit) as
      (_ & _ & _ & _ & Hlen & Hmap & _ & Hp).
    specialize (Hp Hpristine).
    assert (Hempty : (if initialized v0 then ∅ else _global_to_local_map v0)
                     = (∅ : gmap Z Z)).
    { destruct (initialized v0) eqn:Hi0; [reflexivity|]. apply Hpristine, Hi0. }
    rewrite Hempty in Hmap.
    apply init_ghosted_layout in Hinit as (w' & Hw' & Hn & _ & _ & Hg).
    assert (w' = w) as -> by congruence.
    rewrite to_PetscInt_fits in Hn by exact Hnl.
    unfold vec_mapping in Hmapping. rewrite Hg, Hn in Hmapping.
    injection Hmapping as <-.
    apply map_global_to_local_index_Ok in H as (first & last & Hrange & Hcase).
    destruct (ownership_range_Ok _ _ _ _ _ _ _ Hrange Hp) as (w2 & Hw2 & -> & ->).
    assert (w2 = w) as -> by congruence. rewrite Hn in *.
    unfold fits in Hnl.
    rewrite !to_index_small in Hcase by lia.
    destruct Hcase as [[Hin ->] | [Hout (s & Hs & ->)]].
    - rewrite to_index_small by lia. split; [lia|].
      rewrite lookup_app_l by (rewrite length_seqZ; lia).
      rewrite lookup_seqZ_lt by lia. f_equal. lia.
    - rewrite Hmap in Hs. apply fill_ghost_map_sound in Hs; [|lia|lia].
      destruct Hs as [(k & -> & Hk) | Hs]; [|rewrite lookup_empty in Hs; discriminate Hs].
      pose proof (lookup_lt_Some _ _ _ Hk) as Hklt.
      rewrite to_index_small by lia. split; [lia|].
      rewrite lookup_app_r by (rewrite length_seqZ; lia).
      rewrite length_seqZ.
      replace (Z.to_nat (0 + Z.of_nat k + (vec_rstart w + n_local) - vec_rstart w)
               - Z.to_nat n_local)%nat with k by lia.
      rewrite list_lookup_fmap, Hk. simpl. f_equal.
      apply to_PetscInt_fits. rewrite Forall_forall in Hghost. apply Hghost.
      apply list_elem_of_lookup. eauto. }
  split; [exact Hround|].
  intros i j log2 l log3 log4 log5 Hi Hj.
  apply Hround in Hi as [_ Hi]. apply Hround in Hj as [_ Hj]. congruence.
Qed.

(** ** Wrapping an existing PETSc vector *)

(** The loop of the wrapping constructor fills the map as the loop of
    the ghosted [init] does. *)
Lemma invert_mapping_fill pre done rest n m log :
  0 <= n -> length pre = Z.to_nat n ->
  n + Z.of_nat (length done) + Z.of_nat (length rest) < index_modulus cfg ->
  invert_mapping cfg (pre ++ done ++ rest) n (length rest)
    (n + Z.of_nat (length done)) m log
  = Ok (fill_ghost_map cfg (to_index cfg <$> rest) (Z.of_nat (length done)) m, log).
Proof.
  revert done m. induction rest as [|g rest IH]; intros done m Hn Hpre Hlen.
  - reflexivity.
  - simpl length in Hlen. cbn [invert_mapping length fmap list_fmap fill_ghost_map].
    assert (Hlook : (pre ++ done ++ g :: rest) !! Z.to_nat (n + Z.of_nat (length done))
                    = Some g).
    { rewrite lookup_app_r by lia.
      rewrite lookup_app_r by lia.
      replace (Z.to_nat (n + Z.of_nat (length done)) - length pre - length done)%nat
        with 0%nat by lia.
      reflexivity. }
    rewrite Hlook.
    rewrite (to_index_small cfg (n + Z.of_nat (length done) + 1)) by lia.
    rewrite (to_index_small cfg (n + Z.of_nat (length done) - n)) by lia.
    rewrite (to_index_small cfg (Z.of_nat (length done) + 1)) by lia.
    specialize (IH (done ++ [g])). rewrite length_app in IH. simpl length in IH.
    rewrite <- app_assoc in IH. simpl in IH.
    replace (n + Z.of_nat (length done) + 1) with (n + Z.of_nat (length done + 1))
      by lia.
    replace (n + Z.of_nat (length done) - n) with (Z.of_nat (length done)) by lia.
    replace (Z.of_nat (length done) + 1) with (Z.of_nat (length done + 1)) by lia.
    apply IH; [exact Hn | exact Hpre | lia].
Qed.

(** What the wrapping constructor builds. *)
Lemma ctor_Vec_Ok u w log v log' :
  PetscVector_ctor_Vec cfg petsc u w log = Ok (v, log') ->
  0 <= vec_n w ->
  vec_n w + Z.of_nat (length (default [] (vec_ghosts w))) < index_modulus cfg ->
  _destroy_vec_on_exit v = false /\ _vec v = Some w /\
  lifecycle v = Closed /\ _array_is_present v = false /\
  type v = match vec_type w, vec_ghosts w with
           | VECSEQ, _ => SERIAL
           | _, None => PARALLEL
           | _, Some _ => GHOSTED
           end /\
  _global_to_local_map v =
    match vec_type w, vec_ghosts w with
    | VECSEQ, _ | _, None => ∅
    | _, Some gs => fill_ghost_map cfg (to_index cfg <$> gs) 0 ∅
    end.
Proof.
  unfold PetscVector_ctor_Vec, vec_mapping. intros H Hn Hlen.
  inv_bind H as ls log1 Hls. unfold petsc_VecGetLocalSize in Hls.
  inv_bind Hls as u1 log2 Hc1. apply ret_Ok in Hls as [= -> ->].
  inv_bind H as u2 log3 Hc2.
  assert (Hghost : forall gs, vec_ghosts w = Some gs ->
            (petsc_call petsc (VecGetLocalToGlobalMapping w) ≫= λ _ : (),
               match
                 match vec_ghosts w with
                 | Some gs0 => Some (seqZ (vec_rstart w) (vec_n w) ++ gs0)
                 | None => None
                 end
               with
               | Some indices =>
                   petsc_call petsc (ISLocalToGlobalMappingGetSize w) ≫= λ _ : (),
                   petsc_call petsc (ISLocalToGlobalMappingGetIndices w) ≫= λ _ : (),
                   invert_mapping cfg indices (to_index cfg (vec_n w))
                     (Z.to_nat (to_index cfg (Z.of_nat (length indices))
                                - to_index cfg (vec_n w)))
                     (to_index cfg (vec_n w))
                     (_global_to_local_map
                        (set_is_initialized true (set_is_closed true
                           (set_vec (Some w) (members u AUTOMATIC false)))))
                   ≫= λ m : gmap Z Z,
                   petsc_call petsc (ISLocalToGlobalMappingRestoreIndices w)
                   ≫= λ _ : (),
                   mret (set_type GHOSTED (set_global_to_local_map m
                           (set_is_initialized true (set_is_closed true
                              (set_vec (Some w) (members u AUTOMATIC false))))))
               | None =>
                   mret (set_type PARALLEL
                           (set_is_initialized true (set_is_closed true
                              (set_vec (Some w) (members u AUTOMATIC false)))))
               end) log3 = Ok (v, log') ->
            _destroy_vec_on_exit v = false /\ _vec v = Some w /\
            lifecycle v = Closed /\ _array_is_present v = false /\
            type v = GHOSTED /\
            _global_to_local_map v = fill_ghost_map cfg (to_index cfg <$> gs) 0 ∅).
  { intros gs Hgs Hrun. rewrite Hgs in Hrun, Hlen. simpl in Hlen.
    inv_bind Hrun as u3 log4 Hc3. inv_bind Hrun as u4 log5 Hc4.
    inv_bind Hrun as u5 log6 Hc5. inv_bind Hrun as m log7 Hloop.
    inv_bind Hrun as u6 log8 Hc6. apply ret_Ok in Hrun as [= -> _].
    rewrite length_app, length_seqZ in Hloop.
    rewrite (to_index_small cfg (vec_n w)) in Hloop by lia.
    rewrite to_index_small in Hloop by lia.
    replace (Z.to_nat (Z.of_nat (Z.to_nat (vec_n w) + length gs) - vec_n w))
      with (length gs) in Hloop by lia.
    pose proof (invert_mapping_fill (seqZ (vec_rstart w) (vec_n w)) [] gs (vec_n w)
                  ∅ log6 Hn (length_seqZ _ _)) as Hfill.
    simpl in Hfill. rewrite Z.add_0_r in Hfill.
    simpl _global_to_local_map in Hloop.
    rewrite Hfill in Hloop by lia. injection Hloop as <- _.
    repeat split. }
  destruct (vec_type w) eqn:Ht.
  - apply ret_Ok in H as [= -> _]. repeat split.
  - destruct (vec_ghosts w) as [gs|] eqn:Hgs.
    + exact (Hghost gs eq_refl H).
    + inv_bind H as u3 log4 Hc3. apply ret_Ok in H as [= -> _]. repeat split.
  - destruct (vec_ghosts w) as [gs|] eqn:Hgs.
    + exact (Hghost gs eq_refl H).
    + inv_bind H as u3 log4 Hc3. apply ret_Ok in H as [= -> _]. repeat split.
Qed.

(** X9: the constructor that wraps an existing PETSc vector never
    takes ownership and always yields an initialised, closed object over
    that vector.  The storage type is SERIAL for a sequential vector,
    PARALLEL for a distributed one without ghosts, and GHOSTED for one
    with ghost indices [gs], in which case the ghost map is the one the
    ghosted [init] builds from [gs]. *)
Theorem wrapping_constructor u w log v log' :
  PetscVector_ctor_Vec cfg petsc u w log = Ok (v, log') ->
  0 <= vec_n w ->
  vec_n w + Z.of_nat (length (default [] (vec_ghosts w))) < index_modulus cfg ->
  _destroy_vec_on_exit v = false /\ _vec v = Some w /\
  lifecycle v = Closed /\ _array_is_present v = false /\
  type v = match vec_type w, vec_ghosts w with
           | VECSEQ, _ => SERIAL
           | _, None => PARALLEL
           | _, Some _ => GHOSTED
           end /\
  _global_to_local_map v =
    match vec_type w, vec_ghosts w with
    | VECSEQ, _ | _, None => ∅
    | _, Some gs => fill_ghost_map cfg (to_index cfg <$> gs) 0 ∅
    end.
Proof. apply ctor_Vec_Ok. Qed.

Lemma to_index_PetscInt_list ghost :
  Forall (is_index cfg) ghost ->
  to_index cfg <$> map (to_PetscInt cfg) ghost = ghost.
Proof.
  induction 1 as [|g ghost Hg _ IH]; [reflexivity|].
  simpl. rewrite to_index_PetscInt, to_index_small by exact Hg.
  f_equal. exact IH.
Qed.

(** X10: the two ways of building the ghost map agree.  Wrapping the
    PETSc vector of an object set up by the ghosted [init] (ghost
    indices within the index type) gives an object with the same storage
    type and the same ghost map, which does not own the vector. *)
Theorem wrapping_agrees_with_init n n_local ghost fast ptype v0 log0 v log w
    u log2 v2 log3 :
  pristine_if_uninitialized v0 ->
  init_ghosted cfg petsc n n_local ghost fast ptype v0 log0 = Ok (v, log) ->
  _vec v = Some w ->
  fits cfg n_local -> Forall (is_index cfg) ghost ->
  n_local + Z.of_nat (length ghost) < index_modulus cfg ->
  PetscVector_ctor_Vec cfg petsc u w log2 = Ok (v2, log3) ->
  type v2 = type v /\
  _global_to_local_map v2 = _global_to_local_map v /\
  _vec v2 = _vec v /\ _destroy_vec_on_exit v2 = false.
Proof.
  intros Hpristine Hinit Hw Hnl Hghost Hlen Hwrap.
  pose proof (init_ghosted_Ok _ _ _ _ _ _ _ _ _ _ _ Hinit) as
    (_ & _ & _ & Ht & _ & Hmap & _ & _).
  assert (Hempty : (if initialized v0 then ∅ else _global_to_local_map v0)
                   = (∅ : gmap Z Z)).
  { destruct (initialized v0) eqn:Hi0; [reflexivity|]. apply Hpristine, Hi0. }
  rewrite Hempty in Hmap.
  apply init_ghosted_layout in Hinit as (w' & Hw' & Hn & _ & Hty & Hg).
  assert (w' = w) as -> by congruence.
  rewrite to_PetscInt_fits in Hn by exact Hnl.
  apply ctor_Vec_Ok in Hwrap.
  - destruct Hwrap as (Hf & Hv2 & _ & _ & Ht2 & Hm2).
    rewrite Hty, Hg in Ht2, Hm2. rewrite to_index_PetscInt_list in Hm2 by exact Hghost.
    rewrite Ht, Hmap, Hw. auto.
  - rewrite Hn. unfold fits in Hnl. lia.
  - rewrite Hg, Hn. simpl. rewrite length_map. exact Hlen.
Qed.

(** ** Constructors *)

Lemma call_init_live n n_local fast ptype v log v' log' :
  storage_live v log ->
  init cfg petsc n n_local fast ptype v log = Ok (v', log') ->
  storage_live v' log'.
Proof. intros Hl H. exact (storage_live_step (m_init n n_local fast ptype) _ _ _ _ Hl H). Qed.

(** X11: every constructor but the wrapping one yields an object that
    owns its storage.  The default constructor leaves it Uninitialized,
    with nothing cached and an empty ghost map; the sizing constructors,
    when they succeed, leave it Closed; and run from a log in which no
    vector was destroyed twice, each leaves the object with a vector
    that is alive. *)
Theorem constructors_own u ptype log :
  (_destroy_vec_on_exit (PetscVector_ctor u ptype) = true /\
   lifecycle (PetscVector_ctor u ptype) = Uninitialized /\
   pristine_if_uninitialized (PetscVector_ctor u ptype)) /\
  (forall n v log',
      PetscVector_ctor_n cfg petsc u n ptype log = Ok (v, log') ->
      _destroy_vec_on_exit v = true /\ lifecycle v = Closed /\
      (storage_live (members u ptype true) log -> storage_live v log')) /\
  (forall n n_local v log',
      PetscVector_ctor_n_local cfg petsc u n n_local ptype log = Ok (v, log') ->
      _destroy_vec_on_exit v = true /\ lifecycle v = Closed /\
      (storage_live (members u ptype true) log -> storage_live v log')) /\
  (forall n n_local ghost v log',
      PetscVector_ctor_ghost cfg petsc u n n_local ghost ptype log = Ok (v, log') ->
      _destroy_vec_on_exit v = true /\ lifecycle v = Closed /\ type v = GHOSTED /\
      (storage_live (members u ptype true) log -> storage_live v log')).
Proof.
  split; [|split; [|split]].
  - repeat split.
  - unfold PetscVector_ctor_n. intros n v log' H.
    pose proof (init_Ok _ _ _ _ _ _ _ _ _ _ H) as (Hi & Hc & Hf & _).
    split; [rewrite Hf; reflexivity|].
    split; [unfold lifecycle; rewrite Hi, Hc; reflexivity|].
    intros Hl. eapply call_init_live; eassumption.
  - unfold PetscVector_ctor_n_local. intros n n_local v log' H.
    pose proof (init_Ok _ _ _ _ _ _ _ _ _ _ H) as (Hi & Hc & Hf & _).
    split; [rewrite Hf; reflexivity|].
    split; [unfold lifecycle; rewrite Hi, Hc; reflexivity|].
    intros Hl. eapply call_init_live; eassumption.
  - unfold PetscVector_ctor_ghost. intros n n_local ghost v log' H.
    pose proof (init_ghosted_Ok _ _ _ _ _ _ _ _ _ _ _ H) as (Hi & Hc & Hf & Ht & _).
    split; [rewrite Hf; reflexivity|].
    split; [unfold lifecycle; rewrite Hi, Hc; reflexivity|].
    split; [exact Ht|].
    intros Hl.
    exact (storage_live_step (m_init_ghosted n n_local ghost false ptype)
             _ _ _ _ Hl H).
Qed.

(** ** Duplicating another vector *)

Lemma init_from_shape other fast this log this' other' log' :
  init_from cfg petsc other fast this log = Ok (this', other', log') ->
  _global_to_local_map this' = _global_to_local_map other /\
  (other' = other \/ other' = set_array_is_present false other) /\
  exists w w', _vec other = Some w /\ _vec this' = Some w' /\
    vec_type w' = vec_type w /\ vec_N w' = vec_N w /\
    vec_rstart w' = vec_rstart w /\ vec_n w' = vec_n w /\
    vec_ghosts w' = vec_ghosts w.
Proof.
  unfold init_from. intros H. inv_bind H as v1 log1 Hclear. clear Hclear.
  inv_bind H as v log2 Hrestore.
  assert (Hv : v = other \/ v = set_array_is_present false other).
  { destruct (initialized other).
    - right. eapply _restore_array_Ok. exact Hrestore.
    - left. apply ret_Ok in Hrestore as [= -> _]. reflexivity. }
  clear Hrestore.
  inv_bind H as ov log3 Hd. destruct (_vec v) as [w|] eqn:Hw; [|discriminate Hd].
  apply ret_Ok in Hd as [= -> ->].
  inv_bind H as w' log4 Hc. apply petsc_create_Ok in Hc as [Hid _].
  simpl in Hid. injection Hid as <-.
  inv_bind H as v3 log5 Hz. apply ret_Ok in H as [= -> -> _].
  assert (Hw0 : _vec other = Some w /\
                _global_to_local_map v = _global_to_local_map other).
  { destruct Hv as [-> | ->]; auto. }
  destruct Hw0 as [Hw0 Hm0].
  split; [|split; [exact Hv|]].
  - destruct fast.
    + apply ret_Ok in Hz as [= -> _]. simpl. exact Hm0.
    + apply zero_Ok in Hz as ->. simpl. exact Hm0.
  - eexists w, _. split; [exact Hw0|]. split.
    + destruct fast.
      * apply ret_Ok in Hz as [= -> _]. reflexivity.
      * apply zero_Ok in Hz as ->. reflexivity.
    + simpl. repeat split.
Qed.

(** X12: [init (other, fast)] makes this object a closed duplicate of
    [other]: same storage type, same ghost map, a new PETSc vector with
    the layout of [other]'s (type, sizes, ownership range, ghost list).
    The argument is left as it was apart from its raw array being
    released, and each object keeps its own ownership flag. *)
Theorem init_from_duplicates other fast this log this' other' log' :
  init_from cfg petsc other fast this log = Ok (this', other', log') ->
  lifecycle this' = Closed /\ type this' = type other /\
  _global_to_local_map this' = _global_to_local_map other /\
  _destroy_vec_on_exit this' = _destroy_vec_on_exit this /\
  (other' = other \/ other' = set_array_is_present false other) /\
  exists w w', _vec other = Some w /\ _vec this' = Some w' /\
    vec_type w' = vec_type w /\ vec_N w' = vec_N w /\
    vec_rstart w' = vec_rstart w /\ vec_n w' = vec_n w /\
    vec_ghosts w' = vec_ghosts w.
Proof.
  intros H.
  pose proof (init_from_Ok _ _ _ _ _ _ _ _ _ H) as (Hi & Hc & Hf & _ & Ht).
  pose proof (init_from_shape _ _ _ _ _ _ _ H) as (Hm & Ho & Hw).
  split; [unfold lifecycle; rewrite Hi, Hc; reflexivity|]. auto 10.
Qed.

(** X13: [zero_clone ()] returns an object that owns its storage,
    whether or not the cloned object owns its own: a closed duplicate
    with the storage type and ghost map of the original. *)
Theorem zero_clone_owns u v log c v' log' :
  zero_clone cfg petsc u v log = Ok (c, v', log') ->
  _destroy_vec_on_exit c = true /\ lifecycle c = Closed /\
  type c = type v /\ _global_to_local_map c = _global_to_local_map v /\
  _destroy_vec_on_exit v' = _destroy_vec_on_exit v.
Proof.
  unfold zero_clone. intros H.
  pose proof (init_from_Ok _ _ _ _ _ _ _ _ _ H) as (Hi & Hc & Hf & Hf' & Ht).
  pose proof (init_from_shape _ _ _ _ _ _ _ H) as (Hm & _ & _).
  split; [rewrite Hf; reflexivity|].
  split; [unfold lifecycle; rewrite Hi, Hc; reflexivity|]. auto.
Qed.

(** ** Queries *)

(** X14: unlike [size ()], the queries [local_size], [first_local_index],
    [last_local_index] and [map_global_to_local_index] have no early
    return for an object that is not initialised.  A debug build fails
    their assertion without calling PETSc; an optimised build goes on to
    use the PETSc handle, which is undefined behaviour when the object
    holds none. *)
Theorem queries_on_uninitialized v i log :
  initialized v = false ->
  (NDEBUG cfg = false ->
   local_size cfg petsc v log = Failed AssertionFailed /\
   first_local_index cfg petsc v log = Failed AssertionFailed /\
   last_local_index cfg petsc v log = Failed AssertionFailed /\
   map_global_to_local_index cfg petsc v i log = Failed AssertionFailed) /\
  (NDEBUG cfg = true -> _vec v = None -> _array_is_present v = false ->
   local_size cfg petsc v log = Failed UndefinedBehaviour /\
   first_local_index cfg petsc v log = Failed UndefinedBehaviour /\
   last_local_index cfg petsc v log = Failed UndefinedBehaviour /\
   map_global_to_local_index cfg petsc v i log = Failed UndefinedBehaviour).
Proof.
  intros Hi. split.
  - intros Hd.
    unfold local_size, first_local_index, last_local_index,
      map_global_to_local_index, libmesh_assert.
    rewrite Hi, Hd. repeat split.
  - intros Hn Hw Hp.
    unfold local_size, first_local_index, last_local_index,
      map_global_to_local_index, ownership_range, libmesh_assert.
    rewrite Hn, Hw, Hp. repeat split.
Qed.

Lemma cached_range v log :
  _array_is_present v = true ->
  ownership_range cfg petsc v log = Ok (_first v, _last v, log).
Proof. intros Hp. unfold ownership_range. rewrite Hp. reflexivity. Qed.

(** X15: while the raw array is present, [first_local_index],
    [last_local_index] and [map_global_to_local_index] answer from the
    cached bounds and make no PETSc call: the first two return [_first]
    and [_last], and a translation that succeeds leaves the log as it is
    and gives the same answer from any log. *)
Theorem cached_bounds_answer_queries v log :
  initialized v = true -> _array_is_present v = true ->
  first_local_index cfg petsc v log = Ok (_first v, log) /\
  last_local_index cfg petsc v log = Ok (_last v, log) /\
  (forall i l log',
      map_global_to_local_index cfg petsc v i log = Ok (l, log') ->
      log' = log /\
      forall log2, map_global_to_local_index cfg petsc v i log2 = Ok (l, log2)).
Proof.
  intros Hi Hp. split; [|split].
  - unfold first_local_index. rewrite Hi.
    rewrite (bind_eq _ _ _ _ _ (libmesh_assert_true cfg log)).
    rewrite (bind_eq _ _ _ _ _ (cached_range v log Hp)). reflexivity.
  - unfold last_local_index. rewrite Hi.
    rewrite (bind_eq _ _ _ _ _ (libmesh_assert_true cfg log)).
    rewrite (bind_eq _ _ _ _ _ (cached_range v log Hp)). reflexivity.
  - intros i l log' H.
    apply map_global_to_local_index_Ok in H as (first & last & Hr & Hcase).
    rewrite (cached_range v log Hp) in Hr. injection Hr as <- <- <-.
    split; [reflexivity|]. intros log2.
    destruct Hcase as [[Hin ->] | [Hout (s & Hs & ->)]].
    + exact (map_global_to_local_index_owned cfg petsc v i log2 _ _ log2 Hi
               (cached_range v log2 Hp) Hin).
    + rewrite (map_global_to_local_index_ghost cfg petsc v i log2 _ _ log2 Hi
                 (cached_range v log2 Hp) Hout), Hs. reflexivity.
Qed.

Lemma get_loop_positions v index log values log' :
  initialized v = true -> _array_is_present v = true ->
  get_loop cfg petsc v index log = Ok (values, log') ->
  log' = log /\ length values = length index /\
  forall k i, index !! k = Some i ->
    exists l, values !! k = Some l /\
      forall log2, map_global_to_local_index cfg petsc v i log2 = Ok (l, log2).
Proof.
  intros Hi Hp. revert values log log'.
  induction index as [|i0 rest IH]; intros values log log' H; simpl in H.
  - apply ret_Ok in H as [= -> ->]. repeat split. intros k i Hk. discriminate Hk.
  - inv_bind H as l0 log1 Hm.
    pose proof (cached_bounds_answer_queries v log Hi Hp) as (_ & _ & Hcached).
    apply Hcached in Hm as [-> Hm'].
    inv_bind H as u log2 Ha.
    assert (log2 = log) as ->.
    { destruct (ParallelType_eqb (type v) GHOSTED).
      - eapply libmesh_assert_Ok. exact Ha.
      - apply ret_Ok in Ha as [= _ ->]. reflexivity. }
    inv_bind H as vals log3 Hrest. apply IH in Hrest as (-> & Hlen & Hpos).
    apply ret_Ok in H as [= -> ->].
    split; [reflexivity|]. split; [simpl; rewrite Hlen; reflexivity|].
    intros [|k] i Hk; simpl in Hk.
    + injection Hk as <-. exists l0. split; [reflexivity | exact Hm'].
    + exact (Hpos k i Hk).
Qed.

(** X16: [get (index, values)] fills one value per requested index, in
    order: the k-th position it reads is the translation of the k-th
    index by [map_global_to_local_index] on the object as [get] leaves
    it (raw array present), and the only PETSc calls it makes are those
    that acquire the array. *)
Theorem get_reads_translations v index log values v' log' :
  initialized v = true ->
  get cfg petsc v index log = Ok (values, v', log') ->
  _get_array cfg petsc true v log = Ok (v', log') /\
  length values = length index /\
  forall k i, index !! k = Some i ->
    exists l, values !! k = Some l /\
      forall log2, map_global_to_local_index cfg petsc v' i log2 = Ok (l, log2).
Proof.
  intros Hi H. unfold get in H. inv_bind H as v1 log1 Hg.
  inv_bind H as vals log2 Hloop. apply ret_Ok in H as [= -> -> ->].
  pose proof (_get_array_Ok _ _ _ _ _ _ _ Hg) as (Hi1 & _ & _ & _ & _ & _ & _ & Hp1).
  unfold initialized in Hi. rewrite <- Hi1 in Hi.
  apply get_loop_positions in Hloop as (-> & Hlen & Hpos); [|exact Hi|exact Hp1].
  auto.
Qed.

(** ** Reductions *)

(** X17: [min ()] and [max ()] release the raw array if one is present
    and then make exactly one PETSc call, the reduction on the object's
    vector; apart from the released array the object is unchanged. *)
Theorem reductions_release_then_reduce v w log :
  _vec v = Some w -> local_form_in_place v ->
  (petsc_accepts petsc log (release_calls v w ++ [VecMin w]) = true ->
   min petsc v log
   = Ok (set_array_is_present false v, log ++ release_calls v w ++ [VecMin w])) /\
  (petsc_accepts petsc log (release_calls v w ++ [VecMax w]) = true ->
   max petsc v log
   = Ok (set_array_is_present false v, log ++ release_calls v w ++ [VecMax w])).
Proof.
  intros Hw Hlf. split; intros Hacc;
    rewrite petsc_accepts_app in Hacc; apply andb_prop in Hacc as [Hrel Hacc].
  - unfold min.
    rewrite (bind_eq _ _ _ _ _ (_restore_array_accepted petsc v w log Hw Hlf Hrel)).
    change (_vec (set_array_is_present false v)) with (_vec v). rewrite Hw.
    accept_calls Hacc. rewrite <- app_assoc. reflexivity.
  - unfold max.
    rewrite (bind_eq _ _ _ _ _ (_restore_array_accepted petsc v w log Hw Hlf Hrel)).
    change (_vec (set_array_is_present false v)) with (_vec v). rewrite Hw.
    accept_calls Hacc. rewrite <- app_assoc. reflexivity.
Qed.

(** ** Initialising again *)

Lemma bind_Failed {A B : Type} (m : M A) (f : A -> M B) log e :
  m log = Failed e -> (m ≫= f) log = Failed e.
Proof. unfold mbind, M_bind. intros ->. reflexivity. Qed.

Lemma clear_uninitialized v log v1 log1 :
  clear petsc v log = Ok (v1, log1) -> initialized v1 = false.
Proof. intros H. apply clear_Ok in H. tauto. Qed.

(** X18: on an initialised object, each [init] overload is [clear ()]
    followed by the same [init]: the same result, the same PETSc calls
    and the same failure. *)
Theorem reinit_is_clear_then_init v log :
  initialized v = true ->
  (forall n n_local fast ptype,
      init cfg petsc n n_local fast ptype v log
      = (v1 ← clear petsc v; init cfg petsc n n_local fast ptype v1) log) /\
  (forall n n_local ghost fast ptype,
      init_ghosted cfg petsc n n_local ghost fast ptype v log
      = (v1 ← clear petsc v; init_ghosted cfg petsc n n_local ghost fast ptype v1) log).
Proof.
  intros Hi. split; intros.
  - unfold init at 1. rewrite Hi.
    destruct (clear petsc v log) as [[v1 log1]|e] eqn:Hc.
    + rewrite !(bind_eq _ _ _ _ _ Hc).
      apply clear_uninitialized in Hc. unfold init. rewrite Hc.
      rewrite (bind_eq _ _ log1 v1 log1 eq_refl). reflexivity.
    + rewrite !(bind_Failed _ _ _ _ Hc). reflexivity.
  - unfold init_ghosted at 1. rewrite Hi.
    destruct (clear petsc v log) as [[v1 log1]|e] eqn:Hc.
    + rewrite !(bind_eq _ _ _ _ _ Hc).
      apply clear_uninitialized in Hc. unfold init_ghosted. rewrite Hc.
      rewrite (bind_eq _ _ log1 v1 log1 eq_refl). reflexivity.
    + rewrite !(bind_Failed _ _ _ _ Hc). reflexivity.
Qed.

(** ** Vectors without ghost entries *)

Lemma init_map n n_local fast ptype v log v' log' :
  init cfg petsc n n_local fast ptype v log = Ok (v', log') ->
  _global_to_local_map v' =
    (if initialized v then ∅ else _global_to_local_map v).
Proof.
  unfold init. intros H. inv_bind H as v1 log1 Hhead.
  assert (Hm : _global_to_local_map v1 =
               (if initialized v then ∅ else _global_to_local_map v)).
  { destruct (initialized v).
    - apply clear_Ok in Hhead. tauto.
    - apply ret_Ok in Hhead as [= -> _]. reflexivity. }
  clear Hhead. inv_bind H as u log2 Ha. inv_bind H as w log3 Hc.
  destruct fast.
  - apply ret_Ok in H as [= -> _]. exact Hm.
  - apply zero_Ok in H as ->. exact Hm.
Qed.

(** X19: a vector set up by the plain [init] has no ghost entries: its
    ghost map is empty, so translating any index outside the owned range
    fails, in a debug build with the error whose text ends in "And empty
    ghost array." (undefined behaviour in an optimised build). *)
Theorem plain_init_has_no_ghosts n n_local fast ptype v0 log0 v log :
  pristine_if_uninitialized v0 ->
  init cfg petsc n n_local fast ptype v0 log0 = Ok (v, log) ->
  _global_to_local_map v = ∅ /\
  forall i log2 first last log3,
    ownership_range cfg petsc v log2 = Ok (first, last, log3) ->
    ~ (first <= i < last) ->
    map_global_to_local_index cfg petsc v i log2 =
      Failed (if NDEBUG cfg then UndefinedBehaviour
              else LibmeshError
                     ("No index " +:+ pretty i +:+ " in ghosted vector." +:+ newline
                      +:+ "Vector contains [" +:+ pretty first +:+ "," +:+
                      pretty last +:+ ")" +:+ newline
                      +:+ "And empty ghost array." +:+ newline)).
Proof.
  intros Hpristine H.
  pose proof (init_Ok _ _ _ _ _ _ _ _ _ _ H) as (Hi & _).
  apply init_map in H.
  assert (Hm : _global_to_local_map v = ∅).
  { rewrite H. destruct (initialized v0) eqn:Hi0; [reflexivity|].
    apply Hpristine, Hi0. }
  split; [exact Hm|].
  intros i log2 first last log3 Hr Hout.
  rewrite (map_global_to_local_index_ghost cfg petsc v i log2 _ _ log3 Hi Hr Hout).
  rewrite Hm, lookup_empty, unordered_map_keys_empty. reflexivity.
Qed.

(** ** Sizes and bounds after the ghosted [init] *)

(** X20: after a successful ghosted [init (N, n_local, ghost)] (sizes in
    the range both integer types share, nothing cached), [size ()]
    returns [N], [local_size ()] returns [n_local], and the bounds are
    [first_local_index () = rstart] and
    [last_local_index () = rstart + n_local], [rstart] being the start
    PETSc gave the vector: the ghost entries count in none of them. *)
Theorem init_ghosted_then_sizes n n_local ghost fast ptype v0 log0 v log :
  pristine_if_uninitialized v0 ->
  init_ghosted cfg petsc n n_local ghost fast ptype v0 log0 = Ok (v, log) ->
  fits cfg n -> fits cfg n_local ->
  exists w, _vec v = Some w /\
    (forall log2, petsc_accepts petsc log2 [VecGetSize w] = true ->
       size cfg petsc v log2 = Ok (n, log2 ++ [VecGetSize w])) /\
    (forall log2, petsc_accepts petsc log2 [VecGetLocalSize w] = true ->
       local_size cfg petsc v log2 = Ok (n_local, log2 ++ [VecGetLocalSize w])) /\
    (0 <= vec_rstart w -> vec_rstart w + n_local < index_modulus cfg ->
     forall log2, petsc_accepts petsc log2 [VecGetOwnershipRange w] = true ->
       first_local_index cfg petsc v log2
         = Ok (vec_rstart w, log2 ++ [VecGetOwnershipRange w]) /\
       last_local_index cfg petsc v log2
         = Ok (vec_rstart w + n_local, log2 ++ [VecGetOwnershipRange w])).
Proof.
  intros Hpristine H Hn Hnl.
  pose proof (init_ghosted_Ok _ _ _ _ _ _ _ _ _ _ _ H) as
    (Hi & _ & _ & _ & _ & _ & _ & Hp).
  specialize (Hp Hpristine).
  apply init_ghosted_layout in H as (w & Hw & Hloc & HN & _ & _).
  rewrite to_PetscInt_fits in Hloc, HN by assumption.
  exists w. split; [exact Hw|]. split; [|split].
  - intros log2 Hacc. unfold size. rewrite Hi, Hw. simpl negb. cbv iota.
    rewrite (bind_eq _ _ _ _ _ (libmesh_assert_true cfg log2)).
    accept_calls Hacc. rewrite HN, to_index_small; [reflexivity|].
    unfold fits, is_index in *. pose proof (index_modulus_pos cfg).
    assert (index_modulus cfg / 2 <= index_modulus cfg)
      by (apply Z.div_le_upper_bound; lia). lia.
  - intros log2 Hacc. unfold local_size. rewrite Hi, Hw.
    rewrite (bind_eq _ _ _ _ _ (libmesh_assert_true cfg log2)).
    accept_calls Hacc. rewrite Hloc, to_index_small; [reflexivity|].
    unfold fits, is_index in *. pose proof (index_modulus_pos cfg).
    assert (index_modulus cfg / 2 <= index_modulus cfg)
      by (apply Z.div_le_upper_bound; lia). lia.
  - intros Hr0 Hr1 log2 Hacc. unfold fits in Hnl.
    assert (Hrange : ownership_range cfg petsc v log2
                     = Ok (vec_rstart w, vec_rstart w + n_local,
                           log2 ++ [VecGetOwnershipRange w])).
    { unfold ownership_range. rewrite Hp, Hw. accept_calls Hacc.
      rewrite Hloc, !to_index_small by lia. reflexivity. }
    unfold first_local_index, last_local_index. rewrite Hi.
    rewrite !(bind_eq _ _ _ _ _ (libmesh_assert_true cfg log2)).
    rewrite !(bind_eq _ _ _ _ _ Hrange). split; reflexivity.
Qed.


(** ** Element access *)

(** X21: [operator() (i)] reads what [get] reads for the one-element
    index list: either call succeeds exactly when the other does, with
    the same position, the same object and the same PETSc calls. *)
Theorem operator_call_is_get_of_one v i log l v' log' :
  operator_call cfg petsc v i log = Ok (l, v', log') <->
  get cfg petsc v [i] log = Ok ([l], v', log').
Proof.
  unfold operator_call, get. cbn [get_loop].
  destruct (_get_array cfg petsc true v log) as [[v1 log1]|e] eqn:Hg.
  2: { rewrite !(bind_Failed _ _ _ _ Hg). split; discriminate. }
  rewrite !(bind_eq _ _ _ _ _ Hg).
  destruct (map_global_to_local_index cfg petsc v1 i log1) as [[l1 log2]|e] eqn:Hm.
  2: { rewrite (bind_Failed _ _ _ _ Hm).
       rewrite (bind_Failed _ _ log1 e); [split; discriminate|].
       apply bind_Failed. exact Hm. }
  rewrite (bind_eq _ _ _ _ _ Hm).
  destruct ((if ParallelType_eqb (type v1) GHOSTED
             then libmesh_assert cfg (l1 <? _local_size v1)
             else mret ()) log2) as [[u log3]|e] eqn:Ha.
  - rewrite (bind_eq _ _ _ _ _ Ha).
    assert (Hloop : (map_global_to_local_index cfg petsc v1 i ≫= λ local_index : Z,
                       (if ParallelType_eqb (type v1) GHOSTED
                        then libmesh_assert cfg (local_index <? _local_size v1)
                        else mret ()) ≫= λ _ : (),
                       mret [] ≫= λ values : list Z, mret (local_index :: values))
                      log1 = Ok ([l1], log3)).
    { rewrite (bind_eq _ _ _ _ _ Hm), (bind_eq _ _ _ _ _ Ha). reflexivity. }
    rewrite (bind_eq _ _ _ _ _ Hloop).
    unfold mret, M_ret. split; intros [= -> -> ->]; reflexivity.
  - rewrite (bind_Failed _ _ _ _ Ha).
    assert (Hloop : (map_global_to_local_index cfg petsc v1 i ≫= λ local_index : Z,
                       (if ParallelType_eqb (type v1) GHOSTED
                        then libmesh_assert cfg (local_index <? _local_size v1)
                        else mret ()) ≫= λ _ : (),
                       mret [] ≫= λ values : list Z, mret (local_index :: values))
                      log1 = Failed e).
    { rewrite (bind_eq _ _ _ _ _ Hm), (bind_Failed _ _ _ _ Ha). reflexivity. }
    rewrite (bind_Failed _ _ _ _ Hloop). split; discriminate.
Qed.

(** ** Manual access to the raw array *)

(** X22: [get_array ()] and [get_array_read ()] mark the array as
    manually retrieved and leave it present; a following
    [restore_array ()] clears the mark and the presence flag, and
    across the pair the object keeps its PETSc handle, storage type,
    life-cycle flags, ownership flag and ghost map. *)
Theorem manual_access_round_trip (read_only : bool) v log p v1 log1 v2 log2 :
  (if read_only then get_array_read cfg petsc v log
   else get_array cfg petsc v log) = Ok (p, v1, log1) ->
  restore_array petsc v1 log1 = Ok (v2, log2) ->
  (_values_manually_retrieved v1 = true /\ _array_is_present v1 = true) /\
  (_values_manually_retrieved v2 = false /\ _array_is_present v2 = false) /\
  _vec v2 = _vec v /\ type v2 = type v /\
  initialized v2 = initialized v /\ closed v2 = closed v /\
  _destroy_vec_on_exit v2 = _destroy_vec_on_exit v /\
  _global_to_local_map v2 = _global_to_local_map v.
Proof.
  intros Hget Hrestore.
  assert (Hg : exists ro, _get_array cfg petsc ro (set_values_manually_retrieved true v)
                            log = Ok (v1, log1)).
  { destruct read_only; [unfold get_array_read in Hget | unfold get_array in Hget];
      inv_bind Hget as v1' log1' Hg; apply ret_Ok in Hget as [= _ -> ->]; eauto. }
  destruct Hg as [ro Hg].
  apply _get_array_Ok in Hg as (Hi & Hc & Ht & Hw & Hm & Hf & Hmark & Hp).
  unfold restore_array in Hrestore. apply _restore_array_Ok in Hrestore as ->.
  simpl in *. unfold type, initialized, closed. auto 12.
Qed.

(** ** Index translation on a vector in use *)

Lemma coherent_absent v : _array_is_present v = false -> bounds_coherent cfg v.
Proof. intros Hp Hq. congruence. Qed.

Lemma _get_array_coherent read_only v log v' log' :
  _get_array cfg petsc read_only v log = Ok (v', log') ->
  bounds_coherent cfg v -> bounds_coherent cfg v'.
Proof.
  unfold _get_array. intros H Hc. destruct (_array_is_present v) eqn:Hp.
  - apply ret_Ok in H as [= -> _]. exact Hc.
  - inv_bind H as w' log1 Hd.
    destruct (_vec v) as [w|] eqn:Hw; [|discriminate Hd].
    apply ret_Ok in Hd as [= -> ->].
    inv_bind H as r log2 Hr. unfold petsc_VecGetOwnershipRange in Hr.
    inv_bind Hr as u log3 Hcall. apply ret_Ok in Hr as [= -> ->].
    cbv beta iota in H.
    inv_bind H as lf log4 Hlf. inv_bind H as target log5 Ht.
    inv_bind H as u2 log6 Hc2. inv_bind H as ls log7 Hls.
    apply ret_Ok in H as [= -> _].
    intros _. exists w. simpl. rewrite Hw. auto.
Qed.

(** The member functions other than [init] and [clear] keep the ghost
    map and keep the cached bounds coherent. *)
Lemma call_keeps_translation m v log v' log' :
  lets_go m = false ->
  call cfg petsc m v log = Ok (v', log') ->
  _global_to_local_map v' = _global_to_local_map v /\
  (bounds_coherent cfg v -> bounds_coherent cfg v').
Proof.
  intros Hm H. destruct m; try discriminate Hm; simpl in H.
  - apply close_Ok in H as [-> _]. split; [reflexivity|].
    intros _. apply coherent_absent. reflexivity.
  - apply zero_Ok in H as ->. split; [reflexivity|].
    intros _. apply coherent_absent. reflexivity.
  - inv_bind H as r log1 Hq. apply ret_Ok in H as [= -> _]. auto.
  - inv_bind H as r log1 Hq. apply ret_Ok in H as [= -> _]. auto.
  - inv_bind H as r log1 Hq. apply ret_Ok in H as [= -> _]. auto.
  - inv_bind H as r log1 Hq. apply ret_Ok in H as [= -> _]. auto.
  - inv_bind H as r log1 Hq. apply ret_Ok in H as [= -> _]. auto.
  - inv_bind H as r log1 Hq. apply ret_Ok in H as [= -> _].
    unfold operator_call in Hq. inv_bind Hq as v1 log2 Hg.
    inv_bind Hq as li log3 Hm'. inv_bind Hq as u log4 Ha.
    apply ret_Ok in Hq as [= -> _]. simpl. split.
    + apply _get_array_Ok in Hg. tauto.
    + exact (_get_array_coherent _ _ _ _ _ Hg).
  - inv_bind H as r log1 Hq. apply ret_Ok in H as [= -> _].
    unfold get in Hq. inv_bind Hq as v1 log2 Hg. inv_bind Hq as li log3 Hm'.
    apply ret_Ok in Hq as [= -> _]. simpl. split.
    + apply _get_array_Ok in Hg. tauto.
    + exact (_get_array_coherent _ _ _ _ _ Hg).
  - inv_bind H as r log1 Hq. apply ret_Ok in H as [= -> _].
    unfold get_array in Hq. cbv zeta in Hq. inv_bind Hq as v1 log2 Hg.
    apply ret_Ok in Hq as [= -> _]. simpl. split.
    + apply _get_array_Ok in Hg. simpl in Hg. tauto.
    + intros Hc. apply (_get_array_coherent _ _ _ _ _ Hg). exact Hc.
  - inv_bind H as r log1 Hq. apply ret_Ok in H as [= -> _].
    unfold get_array_read in Hq. cbv zeta in Hq. inv_bind Hq as v1 log2 Hg.
    apply ret_Ok in Hq as [= -> _]. simpl. split.
    + apply _get_array_Ok in Hg. simpl in Hg. tauto.
    + intros Hc. apply (_get_array_coherent _ _ _ _ _ Hg). exact Hc.
  - unfold restore_array in H. apply _restore_array_Ok in H as ->.
    split; [reflexivity|]. intros _. apply coherent_absent. reflexivity.
  - unfold min in H. inv_bind H as v1 log1 Hr. apply _restore_array_Ok in Hr as ->.
    inv_bind H as w log2 Hw. inv_bind H as u log3 Hc. apply ret_Ok in H as [= -> _].
    split; [reflexivity|]. intros _. apply coherent_absent. reflexivity.
  - unfold max in H. inv_bind H as v1 log1 Hr. apply _restore_array_Ok in Hr as ->.
    inv_bind H as w log2 Hw. inv_bind H as u log3 Hc. apply ret_Ok in H as [= -> _].
    split; [reflexivity|]. intros _. apply coherent_absent. reflexivity.
Qed.

Lemma calls_keep_translation ms v log v' log' :
  keep_vector ms ->
  calls cfg petsc ms v log = Ok (v', log') ->
  _vec v' = _vec v /\ initialized v' = initialized v /\
  _global_to_local_map v' = _global_to_local_map v /\
  (bounds_coherent cfg v -> bounds_coherent cfg v').
Proof.
  intros Hms. revert v log. induction Hms as [|m ms Hm Hms IH]; intros v log H.
  - apply ret_Ok in H as [= -> _]. auto.
  - simpl in H. inv_bind H as v1 log1 Hcall.
    destruct (call_keeps_storage _ _ _ _ _ Hm Hcall) as (Hv & Hi & _).
    destruct (call_keeps_translation _ _ _ _ _ Hm Hcall) as (Hmap & Hc).
    destruct (IH _ _ H) as (Hv' & Hi' & Hmap' & Hc').
    repeat split; try congruence. auto.
Qed.

(** With coherent bounds, the bounds in use are the ownership range of
    the object's vector, cached or not. *)
Lemma ownership_range_coherent v log first last log1 :
  bounds_coherent cfg v ->
  ownership_range cfg petsc v log = Ok (first, last, log1) ->
  exists w, _vec v = Some w /\ first = to_index cfg (vec_rstart w) /\
            last = to_index cfg (vec_rstart w + vec_n w).
Proof.
  intros Hc H. destruct (_array_is_present v) eqn:Hp.
  - unfold ownership_range in H. rewrite Hp in H.
    apply ret_Ok in H as [= -> -> _]. exact (Hc Hp).
  - exact (ownership_range_Ok cfg petsc _ _ _ _ _ H Hp).
Qed.

Lemma range_width rstart n :
  to_index cfg (to_index cfg (rstart + n) - to_index cfg rstart) = to_index cfg n.
Proof.
  pose proof (index_modulus_pos cfg) as Hm.
  unfold to_index. rewrite <- Zminus_mod. f_equal. lia.
Qed.

Lemma ghost_offset_width second first last :
  to_index cfg (second + last - first)
  = to_index cfg (to_index cfg (last - first) + second).
Proof.
  unfold to_index. rewrite Zplus_mod_idemp_l. f_equal. lia.
Qed.

(** What the ghosted [init] sets up stays in place while the vector is
    in use: the ghost map built from the list, and bounds that span the
    [n_local] owned entries. *)
Lemma ghosted_setup_kept n n_local ghost fast ptype v0 log0 v1 log1 ms v log :
  init_ghosted cfg petsc n n_local ghost fast ptype v0 log0 = Ok (v1, log1) ->
  keep_vector ms ->
  calls cfg petsc ms v1 log1 = Ok (v, log) ->
  initialized v = true /\
  Z.of_nat (length ghost) < index_modulus cfg /\
  _global_to_local_map v =
    fill_ghost_map cfg ghost 0
      (if initialized v0 then ∅ else _global_to_local_map v0) /\
  (pristine_if_uninitialized v0 -> fits cfg n_local ->
   forall log2 first last log3,
     ownership_range cfg petsc v log2 = Ok (first, last, log3) ->
     to_index cfg (last - first) = n_local).
Proof.
  intros Hinit Hms Hcalls.
  pose proof (init_ghosted_Ok cfg petsc _ _ _ _ _ _ _ _ _ Hinit) as
    (Hi & _ & _ & _ & Hlen & Hmap & (w & Hw & Hn) & Hp).
  destruct (calls_keep_translation _ _ _ _ _ Hms Hcalls) as (Hv & Hi' & Hmap' & Hc).
  split; [congruence|]. split; [exact Hlen|]. split; [congruence|].
  intros Hpristine Hfits log2 first last log3 Hr.
  specialize (Hc (coherent_absent _ (Hp Hpristine))).
  destruct (ownership_range_coherent _ _ _ _ _ Hc Hr) as (w' & Hw' & -> & ->).
  assert (w' = w) as -> by congruence.
  rewrite range_width, Hn, to_PetscInt_fits by exact Hfits.
  apply to_index_small, fits_is_index, Hfits.
Qed.

Lemma pristine_base (v0 : PetscVector) :
  pristine_if_uninitialized v0 ->
  (if initialized v0 then ∅ else _global_to_local_map v0) = (∅ : gmap Z Z).
Proof.
  intros Hpristine. destruct (initialized v0) eqn:Hi0; [reflexivity|].
  apply Hpristine, Hi0.
Qed.

Lemma fill_ghost_map_keys ghost g :
  is_Some (fill_ghost_map cfg ghost 0 ∅ !! g) <-> g ∈ ghost.
Proof.
  split.
  - intros Hsome. destruct (decide (g ∈ ghost)) as [Hin | Hnin]; [exact Hin|].
    rewrite fill_ghost_map_notin, lookup_empty in Hsome by assumption.
    destruct Hsome as [x Hx]. discriminate Hx.
  - apply fill_ghost_map_in.
Qed.

(** C2 (amended): on an initialised vector, [[first, last)] being the
    bounds the function works with (the cached ones while a raw array is
    present, PETSc's ownership range otherwise),
    [map_global_to_local_index (i)] returns [i - first] when [i] is in
    the range.  For [i] outside the range, [k] being the last position
    of [i] in the ghost list the ghost map was built from, it returns
    [n_local + k], where [n_local] is the width [last - first] of the
    bounds.  For [i] outside the range and not a key of the ghost map, a
    debug build raises the error whose text names [i], [first], [last]
    and the keys of the ghost map, in the order the container iterates
    over them (an optimised build has undefined behaviour there).  On a
    vector set up by the ghosted [init (N, n_local, ghost)] and used
    since through member functions other than [init] and [clear], the
    ghost map is the one built from [ghost], its keys are the entries of
    [ghost], and the width of the bounds is the [n_local] handed to
    [init]. *)
Theorem map_global_to_local_index_cases v log2 first last log3 i :
  initialized v = true ->
  ownership_range cfg petsc v log2 = Ok (first, last, log3) ->
  0 <= first -> is_index cfg i ->
  (first <= i < last ->
   map_global_to_local_index cfg petsc v i log2 = Ok (i - first, log3)) /\
  (forall ghost n_local k,
      _global_to_local_map v = fill_ghost_map cfg ghost 0 ∅ ->
      Z.of_nat (length ghost) < index_modulus cfg ->
      to_index cfg (last - first) = n_local ->
      ~ (first <= i < last) -> last_occurrence ghost i k ->
      n_local + Z.of_nat k < index_modulus cfg ->
      map_global_to_local_index cfg petsc v i log2 =
        Ok (n_local + Z.of_nat k, log3)) /\
  (~ (first <= i < last) -> _global_to_local_map v !! i = None ->
   map_global_to_local_index cfg petsc v i log2 =
     Failed (if NDEBUG cfg then UndefinedBehaviour
             else LibmeshError
                    (no_index_message i first last
                       (unordered_map_keys cfg (_global_to_local_map v))))) /\
  (forall g, g ∈ unordered_map_keys cfg (_global_to_local_map v) <->
             is_Some (_global_to_local_map v !! g)) /\
  (forall n n_local ghost fast ptype v0 log0 v1 log1 ms log,
      pristine_if_uninitialized v0 ->
      init_ghosted cfg petsc n n_local ghost fast ptype v0 log0 = Ok (v1, log1) ->
      keep_vector ms ->
      calls cfg petsc ms v1 log1 = Ok (v, log) ->
      fits cfg n_local ->
      _global_to_local_map v = fill_ghost_map cfg ghost 0 ∅ /\
      Z.of_nat (length ghost) < index_modulus cfg /\
      to_index cfg (last - first) = n_local /\
      forall g, g ∈ unordered_map_keys cfg (_global_to_local_map v) <-> g ∈ ghost).
Proof.
  intros Hi Hrange Hfirst Hidx. split; [|split; [|split; [|split]]].
  - intros Hin.
    rewrite (map_global_to_local_index_owned cfg petsc v i log2 _ _ log3 Hi Hrange Hin).
    rewrite to_index_small; [reflexivity|]. unfold is_index in Hidx. lia.
  - intros ghost n_local k Hmap Hlen Hwidth Hout Hlast Hk.
    rewrite (map_global_to_local_index_ghost cfg petsc v i log2 _ _ log3 Hi Hrange Hout).
    rewrite Hmap, (fill_ghost_map_last cfg ghost 0 ∅ i k) by (lia || exact Hlast).
    rewrite ghost_offset_width, Hwidth.
    pose proof (to_index_range cfg (last - first)) as Hn. rewrite Hwidth in Hn.
    rewrite to_index_small by lia. reflexivity.
  - intros Hout Hnone.
    rewrite (map_global_to_local_index_ghost cfg petsc v i log2 _ _ log3 Hi Hrange Hout).
    rewrite Hnone. reflexivity.
  - intros g. apply ghost_map_keys.
  - intros n n_local ghost fast ptype v0 log0 v1 log1 ms log
      Hpristine Hinit Hms Hcalls Hfits.
    destruct (ghosted_setup_kept _ _ _ _ _ _ _ _ _ _ _ _ Hinit Hms Hcalls) as
      (_ & Hlen & Hmap & Hwidth).
    rewrite (pristine_base _ Hpristine) in Hmap.
    split; [exact Hmap|]. split; [exact Hlen|].
    split; [exact (Hwidth Hpristine Hfits _ _ _ _ Hrange)|].
    intros g. rewrite ghost_map_keys, Hmap. apply fill_ghost_map_keys.
Qed.

(** C7 (amended): when the ghost list handed to [init] holds the same
    index [g] at positions [j] and [k], [j < k], [k] being the last of
    its positions, the entry of the ghost map for [g] is the one of
    position [k], and stays so while the vector is used through member
    functions other than [init] and [clear].
    [map_global_to_local_index (g)] then returns [n_local + k] when [g]
    lies outside the bounds [[first, last)] the function works with, and
    [g - first] when it lies inside. *)
Theorem duplicate_ghost_index_later_wins n n_local ghost fast ptype v0 log0
    v1 log1 ms v log g j k :
  init_ghosted cfg petsc n n_local ghost fast ptype v0 log0 = Ok (v1, log1) ->
  keep_vector ms ->
  calls cfg petsc ms v1 log1 = Ok (v, log) ->
  ghost !! j = Some g -> (j < k)%nat -> last_occurrence ghost g k ->
  _global_to_local_map v !! g = Some (Z.of_nat k) /\
  (forall log2 first last log3,
      ownership_range cfg petsc v log2 = Ok (first, last, log3) ->
      (first <= g < last ->
       map_global_to_local_index cfg petsc v g log2 =
         Ok (to_index cfg (g - first), log3)) /\
      (~ (first <= g < last) ->
       pristine_if_uninitialized v0 -> fits cfg n_local ->
       n_local + Z.of_nat k < index_modulus cfg ->
       map_global_to_local_index cfg petsc v g log2 =
         Ok (n_local + Z.of_nat k, log3))).
Proof.
  intros Hinit Hms Hcalls Hj Hjk Hlast.
  destruct (ghosted_setup_kept _ _ _ _ _ _ _ _ _ _ _ _ Hinit Hms Hcalls) as
    (Hi & Hlen & Hmap & Hwidth).
  assert (Hlook : _global_to_local_map v !! g = Some (Z.of_nat k)).
  { rewrite Hmap, (fill_ghost_map_last cfg ghost 0 _ g k) by (lia || exact Hlast).
    reflexivity. }
  split; [exact Hlook|].
  intros log2 first last log3 Hrange. split.
  - intros Hin.
    exact (map_global_to_local_index_owned cfg petsc v g log2 _ _ log3 Hi Hrange Hin).
  - intros Hout Hpristine Hfits Hk.
    rewrite (map_global_to_local_index_ghost cfg petsc v g log2 _ _ log3 Hi Hrange Hout).
    rewrite Hlook, ghost_offset_width, (Hwidth Hpristine Hfits _ _ _ _ Hrange).
    rewrite to_index_small; [reflexivity|]. unfold fits in Hfits. lia.
Qed.

End MoreProperties.
(** * Further concrete runs *)

Lemma index_32 z : 0 <= z < 4294967296 -> is_index debug32 z.
Proof. intros Hz. unfold is_index. change (index_modulus debug32) with 4294967296. lia. Defined.

Lemma fits_32 z : 0 <= z < 2147483648 -> fits debug32 z.
Proof.
  intros Hz. unfold fits.
  change (index_modulus debug32 / 2) with 2147483648. lia.
Defined.

Lemma fresh_storage_live : storage_live fresh [].
Proof.
  split; [constructor|]. split.
  - intros i Hi. apply elem_of_nil in Hi as [].
  - intros Hi. discriminate Hi.
Defined.

Lemma clear_destroys_iff_owning_witness :
  exists v' log',
    PetscVector_dtor petsc_rank0 ghosted_vector ghosted_log = Ok (v', log') /\
    destroyed log' = destroyed ghosted_log ++ [ghosted_w] /\
    lifecycle v' = Uninitialized.
Proof.
  destruct (PetscVector_dtor petsc_rank0 ghosted_vector ghosted_log)
    as [[v' log']|e] eqn:E; [|vm_compute in E; discriminate E].
  exists v', log'. split; [reflexivity|].
  destruct (clear_destroys_iff_owning petsc_rank0 ghosted_vector ghosted_w
              ghosted_log v' log' eq_refl E) as (Hd & Hl & _).
  split; [exact Hd | exact Hl].
Defined.

Lemma non_owner_never_destroys_witness :
  exists v' log',
    calls debug32 petsc_rank0
      [m_close; m_zero; m_init 6 6 false AUTOMATIC; m_clear] wrapping_vector []
      = Ok (v', log') /\
    destroyed log' = [].
Proof.
  destruct (calls debug32 petsc_rank0
              [m_close; m_zero; m_init 6 6 false AUTOMATIC; m_clear]
              wrapping_vector []) as [[v' log']|e] eqn:E;
    [|vm_compute in E; discriminate E].
  exists v', log'. split; [reflexivity|].
  exact (non_owner_never_destroys debug32 petsc_rank0 _ wrapping_vector [] v' log'
           eq_refl E).
Defined.

Lemma never_destroys_twice_witness :
  exists v' log',
    calls debug32 petsc_rank0
      [m_init 10 10 false AUTOMATIC; m_init_ghosted 10 2 [7; 8] false AUTOMATIC;
       m_close; m_clear; m_init 4 4 true SERIAL; m_clear] fresh []
      = Ok (v', log') /\
    length (destroyed log') = 3%nat /\ NoDup (destroyed log').
Proof.
  destruct (calls debug32 petsc_rank0
              [m_init 10 10 false AUTOMATIC;
               m_init_ghosted 10 2 [7; 8] false AUTOMATIC;
               m_close; m_clear; m_init 4 4 true SERIAL; m_clear] fresh [])
    as [[v' log']|e] eqn:E; [|vm_compute in E; discriminate E].
  exists v', log'. split; [reflexivity|]. split.
  - vm_compute in E. injection E as _ <-. reflexivity.
  - exact (proj1 (never_destroys_twice debug32 petsc_rank0 _ fresh [] v' log'
                    fresh_storage_live E)).
Defined.

Lemma clear_twice_witness :
  exists v1 log1,
    clear petsc_rank0 ghosted_vector ghosted_log = Ok (v1, log1) /\
    clear petsc_rank0 v1 log1 = Ok (v1, log1).
Proof.
  destruct (clear petsc_rank0 ghosted_vector ghosted_log)
    as [[v1 log1]|e] eqn:E; [|vm_compute in E; discriminate E].
  exists v1, log1. split; [reflexivity|].
  exact (clear_twice petsc_rank0 ghosted_vector ghosted_log v1 log1 log1 E).
Defined.

Lemma close_twice_witness :
  exists v1 log1,
    close petsc_rank0 ghosted_vector ghosted_log = Ok (v1, log1) /\
    close petsc_rank0 v1 log1 =
      Ok (v1, log1 ++ [VecAssemblyBegin ghosted_w; VecAssemblyEnd ghosted_w;
                       VecGhostUpdateBegin ghosted_w INSERT_VALUES SCATTER_FORWARD;
                       VecGhostUpdateEnd ghosted_w INSERT_VALUES SCATTER_FORWARD]).
Proof.
  destruct (close petsc_rank0 ghosted_vector ghosted_log)
    as [[v1 log1]|e] eqn:E; [|vm_compute in E; discriminate E].
  exists v1, log1. split; [reflexivity|].
  destruct (close_twice petsc_rank0 ghosted_vector ghosted_log v1 log1 E)
    as (w & Hw & Hclose).
  vm_compute in E. injection E as <- <-.
  injection Hw as <-.
  exact (Hclose _ eq_refl).
Defined.

Lemma init_then_sizes_witness :
  exists v log w,
    init debug32 petsc_rank1 10 3 false AUTOMATIC fresh [] = Ok (v, log) /\
    _vec v = Some w /\
    size debug32 petsc_rank1 v log = Ok (10, log ++ [VecGetSize w]) /\
    local_size debug32 petsc_rank1 v log = Ok (3, log ++ [VecGetLocalSize w]).
Proof.
  destruct (init debug32 petsc_rank1 10 3 false AUTOMATIC fresh [])
    as [[v log]|e] eqn:E; [|vm_compute in E; discriminate E].
  destruct (init_then_sizes debug32 petsc_rank1 10 3 false AUTOMATIC fresh [] v log E
              (fits_32 10 ltac:(lia)) (fits_32 3 ltac:(lia)))
    as (w & Hw & Hsize & Hlocal & Hdebug).
  exists v, log, w. split; [reflexivity|]. split; [exact Hw|]. split.
  - exact (Hsize log eq_refl).
  - rewrite <- (Hdebug eq_refl). exact (Hlocal log eq_refl).
Defined.

Lemma init_size_checks_witness :
  init debug32 petsc_rank0 10 4 false SERIAL fresh [] = Failed AssertionFailed /\
  init debug32 petsc_rank0 4 10 false AUTOMATIC fresh [] = Failed AssertionFailed /\
  exists v', init optimized32 petsc_rank0 10 4 true SERIAL fresh []
             = Ok (v', [VecCreateSeq 10;
                        VecSetFromOptions
                          {| vec_id := 0; vec_type := VECSEQ; vec_N := 10;
                             vec_rstart := 0; vec_n := 10; vec_ghosts := None |}]) /\
            type v' = SERIAL.
Proof.
  split; [|split].
  - exact (proj1 (init_size_checks debug32 petsc_rank0 10 4 fresh [] eq_refl)
             eq_refl ltac:(lia) false).
  - exact (proj2 (proj1 (proj2 (init_size_checks debug32 petsc_rank0 4 10 fresh []
                                  eq_refl)) eq_refl ltac:(lia) false)).
  - destruct (proj2 (proj2 (init_size_checks optimized32 petsc_rank0 10 4 fresh []
                              eq_refl)) eq_refl eq_refl)
      as (v' & Hinit & _ & Ht & _).
    exists v'. split; [exact Hinit | exact Ht].
Defined.

Lemma rank1_run_Ok :
  init_ghosted debug32 petsc_rank1 10 3 [1; 9] false AUTOMATIC fresh []
  = Ok (rank1_vector, rank1_log).
Proof. vm_compute. reflexivity. Defined.

Lemma translation_inverts_mapping_witness :
  exists log3,
    map_global_to_local_index debug32 petsc_rank1 rank1_vector 9 rank1_log
      = Ok (4, log3) /\
    [4; 5; 6; 1; 9] !! Z.to_nat 4 = Some 9.
Proof.
  assert (H : map_global_to_local_index debug32 petsc_rank1 rank1_vector 9 rank1_log
              = Ok (4, rank1_log ++ [VecGetOwnershipRange rank1_w]))
    by (vm_compute; reflexivity).
  eexists. split; [exact H|].
  refine (proj2 (proj1 (translation_inverts_mapping debug32 petsc_rank1
            10 3 [1; 9] false AUTOMATIC fresh [] rank1_vector rank1_log rank1_w
            [4; 5; 6; 1; 9] fresh_pristine rank1_run_Ok eq_refl eq_refl
            (fits_32 3 ltac:(lia)) _ ltac:(simpl; lia) _) 9 _ 4 _ H)).
  - repeat constructor; apply fits_32; lia.
  - change (index_modulus debug32) with 4294967296. simpl. lia.
Defined.

Lemma wrapping_constructor_witness :
  exists v log,
    PetscVector_ctor_Vec debug32 petsc_rank0 junk foreign_vec [] = Ok (v, log) /\
    _destroy_vec_on_exit v = false /\ type v = GHOSTED /\
    _global_to_local_map v = fill_ghost_map debug32 [1] 0 ∅.
Proof.
  destruct (PetscVector_ctor_Vec debug32 petsc_rank0 junk foreign_vec [])
    as [[v log]|e] eqn:E; [|vm_compute in E; discriminate E].
  exists v, log. split; [reflexivity|].
  destruct (wrapping_constructor debug32 petsc_rank0 junk foreign_vec [] v log E)
    as (Hf & _ & _ & _ & Ht & Hm).
  - simpl. lia.
  - change (index_modulus debug32) with 4294967296. simpl. lia.
  - split; [exact Hf|]. split; [exact Ht | exact Hm].
Defined.

Lemma wrapping_agrees_with_init_witness :
  exists v2 log2,
    PetscVector_ctor_Vec debug32 petsc_rank1 junk rank1_w rank1_log = Ok (v2, log2) /\
    type v2 = type rank1_vector /\
    _global_to_local_map v2 = _global_to_local_map rank1_vector /\
    _destroy_vec_on_exit v2 = false.
Proof.
  destruct (PetscVector_ctor_Vec debug32 petsc_rank1 junk rank1_w rank1_log)
    as [[v2 log2]|e] eqn:E; [|vm_compute in E; discriminate E].
  exists v2, log2. split; [reflexivity|].
  destruct (wrapping_agrees_with_init debug32 petsc_rank1 10 3 [1; 9] false AUTOMATIC
              fresh [] rank1_vector rank1_log rank1_w junk rank1_log v2 log2
              fresh_pristine rank1_run_Ok eq_refl (fits_32 3 ltac:(lia)))
    as (Ht & Hm & _ & Hf).
  - repeat constructor; apply index_32; lia.
  - change (index_modulus debug32) with 4294967296. simpl. lia.
  - exact E.
  - split; [exact Ht|]. split; [exact Hm | exact Hf].
Defined.

Lemma constructors_own_witness :
  exists v log,
    PetscVector_ctor_ghost debug32 petsc_rank0 junk 10 2 [7; 8; 7] AUTOMATIC []
      = Ok (v, log) /\
    _destroy_vec_on_exit v = true /\ lifecycle v = Closed /\ storage_live v log.
Proof.
  destruct (PetscVector_ctor_ghost debug32 petsc_rank0 junk 10 2 [7; 8; 7] AUTOMATIC [])
    as [[v log]|e] eqn:E; [|vm_compute in E; discriminate E].
  exists v, log. split; [reflexivity|].
  destruct (proj2 (proj2 (proj2 (constructors_own debug32 petsc_rank0 junk AUTOMATIC
                                   []))) 10 2 [7; 8; 7] v log E)
    as (Hf & Hl & _ & Hlive).
  split; [exact Hf|]. split; [exact Hl|]. apply Hlive.
  split; [constructor|]. split.
  - intros i Hi. apply elem_of_nil in Hi as [].
  - intros Hi. discriminate Hi.
Defined.

Lemma init_from_duplicates_witness :
  exists this' other' log',
    init_from debug32 petsc_rank0 viewed_vector false fresh viewed_log
      = Ok (this', other', log') /\
    lifecycle this' = Closed /\ type this' = GHOSTED /\
    _global_to_local_map this' = _global_to_local_map viewed_vector /\
    other' = set_array_is_present false viewed_vector.
Proof.
  destruct (init_from debug32 petsc_rank0 viewed_vector false fresh viewed_log)
    as [[[this' other'] log']|e] eqn:E; [|vm_compute in E; discriminate E].
  exists this', other', log'. split; [reflexivity|].
  destruct (init_from_duplicates debug32 petsc_rank0 viewed_vector false fresh
              viewed_log this' other' log' E) as (Hl & Ht & Hm & _ & _ & _).
  split; [exact Hl|]. split; [exact Ht|]. split; [exact Hm|].
  vm_compute in E. injection E as _ <- _. reflexivity.
Defined.

Lemma zero_clone_owns_witness :
  exists c v' log',
    zero_clone debug32 petsc_rank0 junk wrapping_vector [] = Ok (c, v', log') /\
    _destroy_vec_on_exit wrapping_vector = false /\
    _destroy_vec_on_exit c = true /\ lifecycle c = Closed.
Proof.
  destruct (zero_clone debug32 petsc_rank0 junk wrapping_vector [])
    as [[[c v'] log']|e] eqn:E; [|vm_compute in E; discriminate E].
  exists c, v', log'. split; [reflexivity|]. split; [reflexivity|].
  destruct (zero_clone_owns debug32 petsc_rank0 junk wrapping_vector [] c v' log' E)
    as (Hf & Hl & _).
  split; [exact Hf | exact Hl].
Defined.

Lemma queries_on_uninitialized_witness :
  local_size debug32 petsc_rank0 fresh [] = Failed AssertionFailed /\
  map_global_to_local_index debug32 petsc_rank0 fresh 3 [] = Failed AssertionFailed /\
  local_size optimized32 petsc_rank0 fresh [] = Failed UndefinedBehaviour /\
  first_local_index optimized32 petsc_rank0 fresh [] = Failed UndefinedBehaviour.
Proof.
  destruct (queries_on_uninitialized debug32 petsc_rank0 fresh 3 [] eq_refl)
    as [Hd _].
  destruct (queries_on_uninitialized optimized32 petsc_rank0 fresh 3 [] eq_refl)
    as [_ Ho].
  destruct (Hd eq_refl) as (H1 & _ & _ & H2).
  destruct (Ho eq_refl eq_refl eq_refl) as (H3 & H4 & _).
  auto.
Defined.

Lemma cached_bounds_answer_queries_witness :
  first_local_index debug32 petsc_rank0 viewed_vector [] = Ok (0, []) /\
  last_local_index debug32 petsc_rank0 viewed_vector [] = Ok (2, []).
Proof.
  destruct (cached_bounds_answer_queries debug32 petsc_rank0 viewed_vector []
              eq_refl eq_refl) as (Hf & Hl & _).
  split; [exact Hf | exact Hl].
Defined.

Lemma get_reads_translations_witness :
  exists values v' log',
    get debug32 petsc_rank0 ghosted_vector [7; 0; 8] ghosted_log
      = Ok (values, v', log') /\
    length values = 3%nat /\
    exists l, values !! 2%nat = Some l /\
      map_global_to_local_index debug32 petsc_rank0 v' 8 [] = Ok (l, []).
Proof.
  destruct (get debug32 petsc_rank0 ghosted_vector [7; 0; 8] ghosted_log)
    as [[[values v'] log']|e] eqn:E; [|vm_compute in E; discriminate E].
  exists values, v', log'. split; [reflexivity|].
  destruct (get_reads_translations debug32 petsc_rank0 ghosted_vector [7; 0; 8]
              ghosted_log values v' log' eq_refl E) as (_ & Hlen & Hpos).
  split; [exact Hlen|].
  destruct (Hpos 2%nat 8 eq_refl) as (l & Hl & Hm).
  exists l. split; [exact Hl | exact (Hm [])].
Defined.

Lemma reductions_release_then_reduce_witness :
  min petsc_rank0 viewed_vector viewed_log
  = Ok (set_array_is_present false viewed_vector,
        viewed_log ++ [VecRestoreArrayRead ghosted_lf;
                       VecGhostRestoreLocalForm ghosted_w ghosted_lf;
                       VecMin ghosted_w]).
Proof.
  exact (proj1 (reductions_release_then_reduce petsc_rank0 viewed_vector ghosted_w
                  viewed_log eq_refl viewed_local_form_in_place) eq_refl).
Defined.

Lemma reinit_is_clear_then_init_witness :
  init debug32 petsc_rank0 6 6 false AUTOMATIC ghosted_vector ghosted_log
  = (v1 ← clear petsc_rank0 ghosted_vector;
     init debug32 petsc_rank0 6 6 false AUTOMATIC v1) ghosted_log.
Proof.
  exact (proj1 (reinit_is_clear_then_init debug32 petsc_rank0 ghosted_vector
                  ghosted_log eq_refl) 6 6 false AUTOMATIC).
Defined.

Lemma plain_init_has_no_ghosts_witness :
  exists v log,
    init debug32 petsc_rank0 10 10 false AUTOMATIC fresh [] = Ok (v, log) /\
    _global_to_local_map v = ∅ /\
    exists msg,
      map_global_to_local_index debug32 petsc_rank0 v 12 log
        = Failed (LibmeshError msg).
Proof.
  destruct (init debug32 petsc_rank0 10 10 false AUTOMATIC fresh [])
    as [[v log]|e] eqn:E; [|vm_compute in E; discriminate E].
  exists v, log. split; [reflexivity|].
  destruct (plain_init_has_no_ghosts debug32 petsc_rank0 10 10 false AUTOMATIC
              fresh [] v log fresh_pristine E) as (Hm & Hfail).
  split; [exact Hm|].
  eexists. eapply (Hfail 12 log 0 10).
  - vm_compute in E. injection E as <- <-. vm_compute. reflexivity.
  - lia.
Defined.

Lemma init_ghosted_then_sizes_witness :
  exists w,
    _vec rank1_vector = Some w /\
    size debug32 petsc_rank1 rank1_vector rank1_log
      = Ok (10, rank1_log ++ [VecGetSize w]) /\
    local_size debug32 petsc_rank1 rank1_vector rank1_log
      = Ok (3, rank1_log ++ [VecGetLocalSize w]) /\
    first_local_index debug32 petsc_rank1 rank1_vector rank1_log
      = Ok (4, rank1_log ++ [VecGetOwnershipRange w]) /\
    last_local_index debug32 petsc_rank1 rank1_vector rank1_log
      = Ok (4 + 3, rank1_log ++ [VecGetOwnershipRange w]).
Proof.
  destruct (init_ghosted_then_sizes debug32 petsc_rank1 10 3 [1; 9] false AUTOMATIC
              fresh [] rank1_vector rank1_log fresh_pristine rank1_run_Ok
              (fits_32 10 ltac:(lia)) (fits_32 3 ltac:(lia)))
    as (w & Hw & Hsize & Hlocal & Hbounds).
  exists w. split; [exact Hw|].
  split; [exact (Hsize rank1_log eq_refl)|].
  split; [exact (Hlocal rank1_log eq_refl)|].
  injection Hw as <-.
  exact (Hbounds ltac:(simpl; lia)
           ltac:(change (index_modulus debug32) with 4294967296; simpl; lia)
           rank1_log eq_refl).
Defined.

Lemma manual_access_round_trip_witness :
  exists p v1 log1 v2 log2,
    get_array debug32 petsc_rank0 ghosted_vector ghosted_log = Ok (p, v1, log1) /\
    restore_array petsc_rank0 v1 log1 = Ok (v2, log2) /\
    _values_manually_retrieved v1 = true /\
    _values_manually_retrieved v2 = false /\ _array_is_present v2 = false /\
    _vec v2 = Some ghosted_w.
Proof.
  destruct (get_array debug32 petsc_rank0 ghosted_vector ghosted_log)
    as [[[p v1] log1]|e] eqn:E; [|vm_compute in E; discriminate E].
  destruct (restore_array petsc_rank0 v1 log1) as [[v2 log2]|e] eqn:E2.
  - exists p, v1, log1, v2, log2. split; [reflexivity|]. split; [exact E2|].
    destruct (manual_access_round_trip debug32 petsc_rank0 false ghosted_vector
                ghosted_log p v1 log1 v2 log2 E E2)
      as ((Hm1 & _) & (Hm2 & Hp2) & Hw & _).
    auto.
  - vm_compute in E. injection E as _ <- <-. vm_compute in E2. discriminate E2.
Defined.

Lemma used_run_Ok :
  calls debug32 petsc_rank0 [m_close; m_get [7; 1]] ghosted_vector ghosted_log
  = Ok (used_vector, used_log).
Proof. vm_compute. reflexivity. Defined.

Lemma ghosted_run_Ok :
  init_ghosted debug32 petsc_rank0 10 2 [7; 8; 7] false AUTOMATIC fresh []
  = Ok (ghosted_vector, ghosted_log).
Proof. vm_compute. reflexivity. Defined.

Lemma used_keep_vector : keep_vector [m_close; m_get [7; 1]].
Proof. repeat constructor. Defined.

Lemma map_global_to_local_index_cases_witness :
  _array_is_present used_vector = true /\
  map_global_to_local_index debug32 petsc_rank0 used_vector 1 used_log
    = Ok (1 - 0, used_log) /\
  map_global_to_local_index debug32 petsc_rank0 used_vector 7 used_log
    = Ok (2 + Z.of_nat 2, used_log) /\
  map_global_to_local_index debug32 petsc_rank0 used_vector 9 used_log
    = Failed (LibmeshError
                (no_index_message 9 0 2
                   (unordered_map_keys debug32
                      (_global_to_local_map used_vector)))) /\
  (forall g, g ∈ unordered_map_keys debug32 (_global_to_local_map used_vector)
             <-> g ∈ [7; 8; 7]).
Proof.
  assert (Hi : initialized used_vector = true) by reflexivity.
  assert (Hr : ownership_range debug32 petsc_rank0 used_vector used_log
               = Ok (0, 2, used_log)) by (vm_compute; reflexivity).
  pose proof (fun i Hidx =>
                map_global_to_local_index_cases debug32 petsc_rank0 used_vector
                  used_log 0 2 used_log i Hi Hr ltac:(lia) Hidx) as Hcases.
  destruct (Hcases 7 (index_32 7 ltac:(lia))) as (_ & Hghost & _ & _ & Hsetup).
  destruct (Hsetup 10 2 [7; 8; 7] false AUTOMATIC fresh [] ghosted_vector
              ghosted_log _ used_log fresh_pristine ghosted_run_Ok
              used_keep_vector used_run_Ok (fits_32 2 ltac:(lia)))
    as (Hmap & Hlen & Hwidth & Hkeys).
  split; [reflexivity|]. split; [|split; [|split]].
  - apply (Hcases 1 (index_32 1 ltac:(lia))). lia.
  - apply (Hghost [7; 8; 7] 2 2%nat Hmap Hlen Hwidth);
      [lia | exact last_occurrence_example |].
    change (index_modulus debug32) with 4294967296. lia.
  - apply (proj1 (proj2 (proj2 (Hcases 9 (index_32 9 ltac:(lia))))));
      [lia | vm_compute; reflexivity].
  - exact Hkeys.
Defined.

Lemma duplicate_ghost_index_later_wins_witness :
  _global_to_local_map used_vector !! 7 = Some (Z.of_nat 2) /\
  map_global_to_local_index debug32 petsc_rank0 used_vector 7 used_log
    = Ok (2 + Z.of_nat 2, used_log) /\
  _global_to_local_map ghosted_vector !! 7 = Some (Z.of_nat 2).
Proof.
  destruct (duplicate_ghost_index_later_wins debug32 petsc_rank0
              10 2 [7; 8; 7] false AUTOMATIC fresh [] ghosted_vector ghosted_log
              [m_close; m_get [7; 1]] used_vector used_log 7 0%nat 2%nat
              ghosted_run_Ok used_keep_vector used_run_Ok eq_refl ltac:(lia)
              last_occurrence_example) as [Hmap Htrans].
  split; [exact Hmap|]. split.
  - destruct (Htrans used_log 0 2 used_log ltac:(vm_compute; reflexivity))
      as [_ Hout].
    apply Hout; [lia | exact fresh_pristine | apply fits_32; lia |].
    change (index_modulus debug32) with 4294967296. lia.
  - apply (duplicate_ghost_index_later_wins debug32 petsc_rank0
             10 2 [7; 8; 7] false AUTOMATIC fresh [] ghosted_vector ghosted_log
             [] ghosted_vector ghosted_log 7 0%nat 2%nat
             ghosted_run_Ok ltac:(constructor) eq_refl eq_refl ltac:(lia)
             last_occurrence_example).
Defined.
